(* ===== verification/_CoqProject ===== *)
-Q . S2P
Prelude.v
Text.v
Timers.v
Sequencer.v
Data.v
Carousel.v
GiftBox.v
Shell.v
Layout.v
Timeline.v
Finale.v
Memory.v
Intro.v
Decor.v
Backgrounds.v
App.v
Presentation.v
