(* ===== verification/Prelude.v ===== *)
(** * Verification of the anniversary presentation (src/src/app)

    The program is a React single-page presentation.  [App] (App.tsx)
    holds the index of the current scene and mounts one of six scene
    components inside [AnimatePresence mode="wait"]: Scene1Intro,
    Scene2PhotoJourney, Scene3GiftBox, Scene4MemoryUniverse,
    Scene5Timeline, Scene6Finale.  Each scene calls the [onComplete]
    callback App passes it (the Finale calls [onReplay]), which moves the
    index.  App also listens to long presses on the whole screen and shows
    HiddenEasterEgg for five seconds.  The scenes drive themselves with
    browser timers; RosePetals and SparkleEffect decorate the intro.

    The development models each part as executable Rocq definitions that
    follow the source, with the browser's timer queue as an explicit
    state passed through the handlers:

    - [Prelude] (this file): reachability [star] of a step relation and
      runs with their events [steps], [iter], the list lemmas the
      components share, the tactic [bool_cases] and the hint database
      [anniv].
    - [Text] (after the Prelude): code points, JavaScript strings as
      UTF-16 units with [Array.from]'s iteration by code point, the UTF-8
      encoding with its shifts and masks, the Mac Roman table; a lemma
      shows that the Finale's footer literal holds the Mac Roman reading
      of the heart emoji's UTF-8 bytes.
    - [Timers]: the browser timer queue (setTimeout, setInterval,
      clearTimeout/clearInterval, the event loop firing the earliest due
      timer): the environment the scenes run in, a platform API and not
      code of the repository, so no definition of it is mapped to the
      sources; it follows the specification's scheduler abstraction:
      handles from 1 in one pool, intervals re-armed under their handle,
      time passing only when nothing is due.  Its well-formedness is
      invariant, and a cleared handle never fires again.
    - [Sequencer]: [currentScene], [handleSceneComplete], [handleReplay]
      and the mount chain under AnimatePresence (the exiting scene stays
      mounted, and clickable, while its exit animation plays), as a step
      relation [seq_step] over [presence]; Module [Spec] is the
      specification's sequencer.  Theorems: refinement of [Spec] by the
      runs where each instance completes once, as a simulation along the
      events of the run (C1), scene order (C3), the Finale mounted within
      ten events by a decreasing measure (C5), and what a double
      completion does: a skipped scene (C8), a blank screen (C9).
    - [Data]: the photos and milestones App passes down.
    - [Carousel]: Scene2PhotoJourney's interval, tick and cleanup, the card
      frames (rationals and integers as the code computes them), the
      progress dots.  Theorems: cancellation at unmount (C4), the timed
      run from mount (C10), the termination of the interval from any
      state by a decreasing measure (C11), the render window and depth
      order (C12, C13) and the dots (C14).
    - [GiftBox]: Scene3GiftBox's guarded tap, its two chained timeouts
      and the render's blocks; the timed sequence (C15); that it calls
      back at most once is a lemma App's C7 builds on.
    - [Shell]: App's long-press handlers and [longPressTimer] effect with
      React's bail-out on unchanged state, HiddenEasterEgg's dismissal
      effect; an invariant on the timers (C16) and three timed runs
      (C17-C19).
    - [Layout]: [getHeartPositions] and the radial layouts over the reals
      (C22, C23).
    - [Timeline]: Scene5Timeline's milestone accordion (C24).
    - [Finale]: Scene6Finale's lantern timeout and its heart of photos,
      drawn with the random tilts of each render (C25).
    - [Memory]: Module [MemoryUniverse], Scene4MemoryUniverse's modal,
      swipe navigation with JavaScript's [%] (NaN as [None]) and
      double-tap hearts, and the orbit's render (C26-C30); C27 shows the
      JavaScript remainder formula of the swipe equivalent to a rotation
      on a ring (Euclidean modulo) for every non-negative index, C30 that
      the orbit's connecting lines all point the same way; the rendered
      mini hearts are keyed by id, and two double taps less than 10 ms
      apart give duplicate keys (a lemma).
    - [Intro]: Scene1Intro's button timeout, permission request and tilt
      (C31-C33), and its render: the photo transform, the light rays, the
      title cut by [Array.from] with its delays.
    - [Decor]: RosePetals, SparkleEffect, the easter egg's confetti and
      HiddenEasterEgg's render, each with the random draws as arguments
      (C34).
    - [Backgrounds]: the repeated background elements of Scenes 2 to 6
      (orbs, sparkles, stars, hearts, lanterns, confetti rain), with a
      lemma that the random ones stay in their boxes.
    - [App]: the composition.  The class [SceneModel] is the interface a
      scene offers App: a state, its mount state, and a step that says
      whether the scene called the callback App passed it; the six
      scenes are its instances, built from the files above (the Continue
      buttons of Scene2PhotoJourney, Scene4MemoryUniverse and the Replay
      button of the Finale are events of their instance).  App's state
      is the sequencer's [presence] and the keyed scene element in the
      tree with its state ([slot], a dependent pair); [app_step] runs the
      scene's step and, on a callback, [handleSceneComplete] or
      [handleReplay], keeping the element across re-renders and mounting
      a fresh one when AnimatePresence does.  Theorems: every App run is
      a sequencer run whose mounted state is the mount state run on the
      instance's events (C2), a scene that calls back once never calls
      back while exiting (C6) and the gift box is such a scene (C7).
    - [Presentation]: App as a whole, the scene side of [App] and the
      gesture shell of [Shell] in one state, synchronised on App's
      re-render when [currentScene] changes.  Every run projects to a run
      of each part (a lemma), a scene change while the egg shows
      restarts its 5 s (C20), and the gestures and the egg never change
      the scene side, which is App's run on the scene events alone (C21).

    Each scene is modelled on its own, with its own timer queue holding
    its own closures; in [App] they are composed with the sequencer,
    whose events are the scenes' callbacks and the end of exit
    animations, and in [Presentation] App's scene side with its gesture
    shell.
    Runs are lists of events folded by the step function ([gift_run],
    [shell_run], [memory_run], [intro_run]) or reachability of the step
    relation; no definition needs fuel, except [carousel_run], whose
    count of event-loop turns is the theorem's parameter.  Clock values
    are symbolic ([t0]); timed theorems hold for every start time.
    JavaScript numbers are [nat] or [Z] where they are counters and
    indices, [Q] in the carousel frame and [R] in the layout math (IEEE
    rounding is not modelled).  [Math.random] and [Date.now] are
    arguments.

    Not modelled: FloatingParticles, which Scene1Intro imports but whose
    file is not in the repository; the orientation warning (a CSS media
    query); the
    animation engine (motion/react: transitions are events, durations
    are not), and the merging of all scenes' timer queues and App's
    gesture shell into one queue: each scene's queue is its own, so
    stale timers of an unmounted scene are not part of [App]'s state
    (Carousel's C4 shows its interval is cleared at unmount).
    The guarded sequencer needs no fuel: its measure
    [2 * (5 - currentScene) + 1 or 2] is at most 11 and falls at every
    step of C5's run, which is why ten events are enough. *)

From Stdlib Require Import List Lia Arith.
From stdpp Require Import base.
Import ListNotations.

Declare Scope anniv_scope.
Delimit Scope anniv_scope with anniv.
Open Scope anniv_scope.

Create HintDb anniv discriminated.

(** ** Reachability for a transition relation *)

Section Reach.
Context {A : Type} (R : A -> A -> Prop).

Inductive star : A -> A -> Prop :=
| star_refl a : star a a
| star_step a b c : R a b -> star b c -> star a c.

Lemma star_one a b : R a b -> star a b.
Proof. eauto using star. Qed.

Lemma star_trans a b c : star a b -> star b c -> star a c.
Proof. induction 1; eauto using star. Qed.

Lemma star_right a b c : star a b -> R b c -> star a c.
Proof. eauto using star_trans, star_one. Qed.

(** An invariant of [R] holds at every reachable state. *)
Lemma star_invariant (P : A -> Prop) :
  (forall a b, P a -> R a b -> P b) -> forall a b, star a b -> P a -> P b.
Proof. intros Hstep a b H; induction H; eauto. Qed.
End Reach.

Notation "a '~[' R ']~>*' b" := (star R a b)
  (at level 70, format "a  ~[ R ]~>*  b") : anniv_scope.

#[export] Hint Constructors star : anniv.
#[export] Hint Resolve star_one star_trans : anniv.

(** ** Runs with their events

    A labelled step relation [R s e s'] and its runs [steps R s es s'],
    which record the list of events taken. *)

Section Steps.
Context {S E : Type} (R : S -> E -> S -> Prop).

Inductive steps : S -> list E -> S -> Prop :=
| steps_refl s : steps s [] s
| steps_cons s e s' es s'' : R s e s' -> steps s' es s'' -> steps s (e :: es) s''.

Lemma steps_snoc s es s' e s'' : steps s es s' -> R s' e s'' -> steps s (es ++ [e]) s''.
Proof. induction 1; simpl; eauto using steps. Qed.

Lemma steps_star s es s' : steps s es s' -> star (fun a b => exists e, R a e b) s s'.
Proof. induction 1; eauto using star. Qed.

Lemma star_steps s s' : star (fun a b => exists e, R a e b) s s' -> exists es, steps s es s'.
Proof. induction 1 as [|a b c [e H] _ [es IH]]; eauto using steps. Qed.
End Steps.

#[export] Hint Constructors steps : anniv.

(** ** Iterating a function *)

Fixpoint iter {A} (n : nat) (f : A -> A) (a : A) : A :=
  match n with 0 => a | S n' => iter n' f (f a) end.

Lemma iter_S_r {A} n (f : A -> A) a : iter (S n) f a = f (iter n f a).
Proof. revert a; induction n; intros a; simpl; [reflexivity|apply IHn]. Qed.

Lemma iter_add {A} m n (f : A -> A) a : iter (m + n) f a = iter n f (iter m f a).
Proof. revert a; induction m; simpl; auto. Qed.

(** ** Generic list lemmas *)

Lemma filter_In_iff {A} (p : A -> bool) (l : list A) x :
  In x (List.filter p l) <-> In x l /\ p x = true.
Proof. apply filter_In. Qed.

Lemma filter_length_le {A} (p : A -> bool) (l : list A) :
  length (List.filter p l) <= length l.
Proof. induction l; simpl; [lia|]. destruct (p a); simpl; lia. Qed.

Lemma NoDup_filter_map {A B} (f : A -> B) (p : A -> bool) (l : list A) :
  List.NoDup (map f l) -> List.NoDup (map f (List.filter p l)).
Proof.
  induction l as [|a l IH]; simpl; [auto|]. intros Hnd.
  apply NoDup_cons_iff in Hnd as [Hn Hnd].
  destruct (p a); simpl; [|auto]. constructor; [|auto].
  intros Hin. apply Hn. apply in_map_iff in Hin as (y & Hy & Hin).
  apply filter_In in Hin as [Hin _]. apply in_map_iff; eauto.
Qed.

Lemma Forall_filter_gen {A} (P : A -> Prop) (p : A -> bool) (l : list A) :
  Forall P l -> Forall P (List.filter p l).
Proof. rewrite !Forall_forall. intros H x Hx. apply filter_In in Hx. firstorder. Qed.

#[export] Hint Resolve NoDup_filter_map Forall_filter_gen : anniv.

(** The indices of [seq a m] below a bound [b]. *)
Lemma filter_seq_lt a m b :
  List.filter (fun i => i <? b) (seq a m) = seq a (Nat.min (b - a) m).
Proof.
  revert a; induction m as [|m IH]; intros a; simpl; [rewrite Nat.min_0_r; reflexivity|].
  destruct (Nat.ltb_spec a b) as [Hlt|Hge]; rewrite IH.
  - replace (b - a) with (S (b - S a)) by lia. reflexivity.
  - replace (b - S a) with 0 by lia. replace (b - a) with 0 by lia. reflexivity.
Qed.

(** The indices of [seq 0 n] in the window [lo, hi). *)
Lemma filter_seq_window lo hi n :
  lo <= n ->
  List.filter (fun i => (lo <=? i) && (i <? hi)) (seq 0 n) = seq lo (Nat.min (hi - lo) (n - lo)).
Proof.
  intros Hle. replace n with (lo + (n - lo)) at 1 by lia.
  rewrite seq_app, filter_app. simpl.
  replace (List.filter _ (seq 0 lo)) with (@nil nat).
  - simpl. rewrite <- filter_seq_lt. apply filter_ext_in.
    intros i Hi. apply in_seq in Hi. destruct (Nat.leb_spec lo i); [reflexivity|lia].
  - symmetry. transitivity (List.filter (fun _ : nat => false) (seq 0 lo));
      [|apply filter_false].
    apply filter_ext_in. intros i Hi. apply in_seq in Hi.
    destruct (Nat.leb_spec lo i); [lia|reflexivity].
Qed.

(** JavaScript's [i % 2 === 0] on a non-negative index is evenness. *)
Lemma even_mod2 n : Nat.even n = (n mod 2 =? 0).
Proof.
  rewrite (Nat.div_mod_eq n 2) at 1. rewrite Nat.add_comm, Nat.even_add_mul_2.
  pose proof (Nat.mod_upper_bound n 2 ltac:(lia)).
  destruct (n mod 2) as [|[|k]]; [reflexivity|reflexivity|lia].
Qed.

Lemma length_filter_map {A B} (p : B -> bool) (f : A -> B) (l : list A) :
  length (List.filter p (map f l)) = length (List.filter (fun x => p (f x)) l).
Proof. induction l as [|a l IH]; simpl; [reflexivity|]. destruct (p (f a)); simpl; auto. Qed.

(** ** Tactics shared by the components *)

(** Split the boolean tests that the translated code uses for its guards. *)
Ltac bool_cases :=
  repeat match goal with
  | |- context [if ?b then _ else _] =>
      lazymatch b with
      | context [if _ then _ else _] => fail
      | _ => let E := fresh "E" in destruct b eqn:E
      end
  | H : (_ =? _) = true |- _ => apply Nat.eqb_eq in H
  | H : (_ =? _) = false |- _ => apply Nat.eqb_neq in H
  | H : (_ <=? _) = true |- _ => apply Nat.leb_le in H
  | H : (_ <=? _) = false |- _ => apply Nat.leb_gt in H
  | H : (_ <? _) = true |- _ => apply Nat.ltb_lt in H
  | H : (_ <? _) = false |- _ => apply Nat.ltb_ge in H
  end.

Lemma nth_map_seq0 {A} (f : nat -> A) n i d :
  i < n -> nth i (map f (seq 0 n)) d = f i.
Proof.
  intros Hi. rewrite nth_indep with (d' := f 0) by (rewrite length_map, length_seq; exact Hi).
  rewrite map_nth, seq_nth by exact Hi. reflexivity.
Qed.

(** [xs.map((x, i) => f(x))] written by index is [map f]. *)
Lemma map_nth_seq0 {A B} (f : A -> B) (l : list A) d :
  map (fun i => f (nth i l d)) (seq 0 (length l)) = map f l.
Proof.
  induction l as [|a l IH]; [reflexivity|]. cbn [length seq map nth]. f_equal.
  rewrite <- seq_shift, map_map. exact IH.
Qed.

(** A property of every element of [[...Array(n)].map((_, i) => f(i))]. *)
Lemma Forall_map_seq0 {A} (P : A -> Prop) (f : nat -> A) n :
  (forall i, i < n -> P (f i)) -> Forall P (map f (seq 0 n)).
Proof.
  intros H. apply Forall_map, Forall_forall. intros i Hi. apply in_seq in Hi. apply H. lia.
Qed.

Lemma filter_nil_of_false {A} (p : A -> bool) (l : list A) :
  (forall x, In x l -> p x = false) -> List.filter p l = [].
Proof.
  induction l as [|a l IH]; simpl; intros H; [reflexivity|].
  rewrite (H a (or_introl eq_refl)). apply IH. intros x Hx. apply H. right. exact Hx.
Qed.

Lemma filter_map_comm {A B} (p : B -> bool) (f : A -> B) (l : list A) :
  List.filter p (map f l) = map f (List.filter (fun x => p (f x)) l).
Proof. induction l as [|a l IH]; simpl; [reflexivity|]. destruct (p (f a)); simpl; rewrite IH; reflexivity. Qed.

Lemma skipn_seq_gen k a n : skipn k (seq a n) = seq (a + k) (n - k).
Proof.
  revert a n; induction k as [|k IH]; intros a n; simpl; [rewrite Nat.add_0_r, Nat.sub_0_r; reflexivity|].
  destruct n as [|n]; simpl; [reflexivity|]. rewrite IH. f_equal. lia.
Qed.

Lemma existsb_map_comm {A B} (p : B -> bool) (f : A -> B) (l : list A) :
  existsb p (map f l) = existsb (fun x => p (f x)) l.
Proof. induction l as [|a l IH]; simpl; [reflexivity|]. rewrite IH. reflexivity. Qed.

Lemma filter_id_of_true {A} (p : A -> bool) (l : list A) :
  (forall x, In x l -> p x = true) -> List.filter p l = l.
Proof.
  induction l as [|a l IH]; simpl; intros H; [reflexivity|].
  rewrite (H a (or_introl eq_refl)), IH; [reflexivity|]. intros x Hx. apply H. right. exact Hx.
Qed.
