(* ===== verification/Text.v ===== *)
(** * Text as the browser receives it: code points, UTF-8 and Mac Roman

    The JSX text of the sources is a sequence of Unicode code points
    (here [list Z]).  [Array.from] on a string iterates them (Scene1Intro's
    title, in Intro).  This file also holds the two encodings that explain
    the Finale's footer: the UTF-8 encoding of code points into bytes
    (RFC 3629, written with the shifts and masks of the standard) and the
    Mac Roman reading of bytes as characters.  The footer literal of
    Scene6Finale.tsx (line 274) holds, where the heart emoji should be,
    the six characters that the UTF-8 bytes of the emoji give when read
    as Mac Roman: the file was once decoded with the wrong encoding. *)

From Stdlib Require Import List Bool ZArith String Ascii.
From S2P Require Import Prelude.
Import ListNotations.
Local Open Scope Z_scope.

(** The code points of an ASCII string literal. *)
Definition ascii_cps (s : string) : list Z :=
  map (fun a => Z.of_nat (nat_of_ascii a)) (list_ascii_of_string s).

(** ** JavaScript strings

    A JavaScript string is a sequence of UTF-16 code units.  [Array.from]
    iterates it by code point: a high surrogate (D800-DBFF) followed by a
    low one (DC00-DFFF) is one element, the code point the pair encodes;
    any other unit is an element on its own. *)
Definition is_high (u : Z) : bool := (55296 <=? u) && (u <=? 56319).

Definition is_low (u : Z) : bool := (56320 <=? u) && (u <=? 57343).

Fixpoint array_from (us : list Z) : list Z :=
  match us with
  | [] => []
  | u :: tl =>
      match tl with
      | v :: rest =>
          if (is_high u && is_low v)%bool
          then (65536 + Z.shiftl (u - 55296) 10 + (v - 56320)) :: array_from rest
          else u :: array_from tl
      | [] => [u]
      end
  end.

(** ** UTF-8 *)

(** The bytes of one code point: one byte below U+0080, then two, three
    or four, the lead byte carrying the length and the high bits, each
    continuation byte [10xxxxxx] six more bits. *)
Definition utf8_encode_cp (cp : Z) : list Z :=
  if cp <? 128 then [cp]
  else if cp <? 2048 then
    [Z.lor 192 (Z.shiftr cp 6); Z.lor 128 (Z.land cp 63)]
  else if cp <? 65536 then
    [Z.lor 224 (Z.shiftr cp 12); Z.lor 128 (Z.land (Z.shiftr cp 6) 63); Z.lor 128 (Z.land cp 63)]
  else
    [Z.lor 240 (Z.shiftr cp 18); Z.lor 128 (Z.land (Z.shiftr cp 12) 63);
     Z.lor 128 (Z.land (Z.shiftr cp 6) 63); Z.lor 128 (Z.land cp 63)].

Definition utf8_encode (cps : list Z) : list Z := flat_map utf8_encode_cp cps.

(** ** Mac Roman *)

(** The characters of the bytes 0x80 to 0xFF in Mac Roman (the bytes
    below 0x80 are ASCII). *)
Definition mac_roman_high : list Z :=
  [196; 197; 199; 201; 209; 214; 220; 225; 224; 226; 228; 227; 229; 231; 233; 232;
   234; 235; 237; 236; 238; 239; 241; 243; 242; 244; 246; 245; 250; 249; 251; 252;
   8224; 176; 162; 163; 167; 8226; 182; 223; 174; 169; 8482; 180; 168; 8800; 198; 216;
   8734; 177; 8804; 8805; 165; 181; 8706; 8721; 8719; 960; 8747; 170; 186; 937; 230; 248;
   191; 161; 172; 8730; 402; 8776; 8710; 171; 187; 8230; 160; 192; 195; 213; 338; 339;
   8211; 8212; 8220; 8221; 8216; 8217; 247; 9674; 255; 376; 8260; 8364; 8249; 8250; 64257; 64258;
   8225; 183; 8218; 8222; 8240; 194; 202; 193; 203; 200; 205; 206; 207; 204; 211; 212;
   63743; 210; 218; 219; 217; 305; 710; 732; 175; 728; 729; 730; 184; 733; 731; 711].

(** Bytes read as Mac Roman text. *)
Definition mac_roman_decode (bs : list Z) : list Z :=
  map (fun b => if b <? 128 then b else nth (Z.to_nat (b - 128)) mac_roman_high 65533) bs.

(** ** The Finale's footer *)

(** U+2764 HEAVY BLACK HEART and U+FE0F VARIATION SELECTOR-16: the heart
    emoji, as the intro title writes it. *)
Definition heart_emoji : list Z := [10084; 65039].

(** Lines 270-275 of Scene6Finale.tsx: the footer under the replay button,
    with the code points of its literal as the file holds them. *)
Definition finale_footer : list Z :=
  ascii_cps "Made with " ++ [8218; 249; 167; 212; 8719; 232] ++ ascii_cps " for an amazing couple".

(** ** Theorems *)

(** A string without high surrogates, that is of code points of the
    Basic Multilingual Plane only, is iterated unit by unit. *)
Lemma array_from_bmp us : forallb (fun u => negb (is_high u)) us = true -> array_from us = us.
Proof.
  induction us as [|u us IH]; [reflexivity|]. cbn [forallb]. intros H.
  apply andb_true_iff in H as [Hu Hus]. apply negb_true_iff in Hu.
  cbn [array_from]. destruct us as [|v rest]; [reflexivity|].
  rewrite Hu. cbn [andb]. rewrite IH by exact Hus. reflexivity.
Qed.

(** The Finale's footer shows mojibake instead of a heart: between
    "Made with " and " for an amazing couple" its literal holds exactly
    the Mac Roman reading of the six UTF-8 bytes of the heart emoji
    (E2 9D A4 EF B8 8F), U+201A U+00F9 U+00A7 U+00D4 U+220F U+00E8, and
    neither code point of the emoji
    occurs in it. *)
Theorem finale_footer_mojibake :
  finale_footer = ascii_cps "Made with " ++ mac_roman_decode (utf8_encode heart_emoji) ++
                  ascii_cps " for an amazing couple" /\
  utf8_encode heart_emoji = [226; 157; 164; 239; 184; 143] /\
  existsb (fun c => existsb (Z.eqb c) finale_footer) heart_emoji = false.
Proof. split; [|split]; vm_compute; reflexivity. Qed.
