(* ===== verification/Timers.v ===== *)
(** * The browser timer queue

    Every scene of the presentation schedules work with [setTimeout],
    [setInterval], [clearTimeout] and [clearInterval] (Scene1Intro's 5 s
    button timer, Scene2PhotoJourney's 3 s interval, Scene3GiftBox's chained
    2 s timeouts, Scene6Finale's lantern timer, App.tsx's 3 s long press and
    HiddenEasterEgg's 5 s dismissal).  This file models the queue these
    calls share, as the HTML timer algorithm specifies it: ids are handed out
    in increasing order, [clearTimeout] and [clearInterval] share one id
    pool, an expired timer runs at its due time, earlier due times first and
    ties in the order the timers were started (here: by id), and an interval
    is re-armed with the same id unless its own callback clears it.

    The queue is generic in the callback type [Cb]: the App model
    instantiates it with the callbacks of the source. *)

From Stdlib Require Import List Lia Arith.
From S2P Require Import Prelude.
Import ListNotations.

Section Scheduler.
Context {Cb : Type}.

Record timer := Timer {
  t_id : nat;               (* the handle returned to the caller *)
  t_due : nat;              (* absolute due time, in ms *)
  t_period : option nat;    (* [Some p] for setInterval(cb, p) *)
  t_cb : Cb                 (* the callback closure *)
}.

Record sched := Sched {
  now : nat;                (* current time, in ms *)
  next_id : nat;            (* the next handle to hand out *)
  pending : list timer      (* the map of active timers *)
}.

Definition sched_init : sched := Sched 0 1 [].

(** Arm a timer: the common part of setTimeout and setInterval. *)
Definition schedule (period : option nat) (cb : Cb) (delay : nat) (s : sched)
    : nat * sched :=
  let id := next_id s in
  (id, Sched (now s) (S id) (pending s ++ [Timer id (now s + delay) period cb])).

Definition setTimeout (cb : Cb) (delay : nat) (s : sched) : nat * sched :=
  schedule None cb delay s.

Definition setInterval (cb : Cb) (period : nat) (s : sched) : nat * sched :=
  schedule (Some period) cb period s.

(** clearTimeout and clearInterval remove the timer with that handle, if
    any; an unknown handle is ignored. *)
Definition clearTimer (id : nat) (s : sched) : sched :=
  Sched (now s) (next_id s) (List.filter (fun t => negb (t_id t =? id)) (pending s)).

(** [a] runs before [b]: earlier due time, ties by start order. *)
Definition runs_before (a b : timer) : bool :=
  (t_due a <? t_due b) || ((t_due a =? t_due b) && (t_id a <? t_id b)).

Fixpoint earliest (t : timer) (l : list timer) : timer :=
  match l with
  | [] => t
  | u :: l' => earliest (if runs_before u t then u else t) l'
  end.

Definition next_timer (s : sched) : option timer :=
  match pending s with
  | [] => None
  | t :: l => Some (earliest t l)
  end.

(** The event loop takes the next expired timer: the clock moves to its
    due time, a timeout is removed, an interval is re-armed one period
    later with the same handle.  The callback itself is run by the
    caller, which may clear the re-armed interval. *)
Definition fire (s : sched) : option (timer * sched) :=
  match next_timer s with
  | None => None
  | Some t =>
      let now' := Nat.max (now s) (t_due t) in
      let rest := List.filter (fun u => negb (t_id u =? t_id t)) (pending s) in
      let rearm := match t_period t with
                   | None => []
                   | Some p => [Timer (t_id t) (now' + p) (Some p) (t_cb t)]
                   end in
      Some (t, Sched now' (next_id s) (rest ++ rearm))
  end.

(** Time passes without a timer expiring (user input arrives meanwhile). *)
Definition can_elapse (d : nat) (s : sched) : bool :=
  forallb (fun t => now s + d <=? t_due t) (pending s).

Definition elapse (d : nat) (s : sched) : sched :=
  Sched (now s + d) (next_id s) (pending s).

Definition ids (s : sched) : list nat := map t_id (pending s).

(** Well-formedness: handles are distinct and below [next_id], and no
    pending timer is overdue. *)
Definition sched_wf (s : sched) : Prop :=
  List.NoDup (ids s) /\
  Forall (fun t => t_id t < next_id s /\ now s <= t_due t) (pending s).

(** The operations of the queue, as a labelled step (label: the timer
    that fired, if any). *)
Inductive sched_step : sched -> option timer -> sched -> Prop :=
| ss_schedule p cb d s : sched_step s None (snd (schedule p cb d s))
| ss_clear id s : sched_step s None (clearTimer id s)
| ss_fire s t s' : fire s = Some (t, s') -> sched_step s (Some t) s'
| ss_elapse d s : can_elapse d s = true -> sched_step s None (elapse d s).

Definition sched_step_any (s s' : sched) : Prop := exists l, sched_step s l s'.
End Scheduler.

Arguments timer : clear implicits.
Arguments sched : clear implicits.

Section SchedulerFacts.
Context {Cb : Type}.
Implicit Types (s : sched Cb) (t u : timer Cb).

Lemma earliest_in t l : In (earliest t l) (t :: l).
Proof.
  revert t; induction l as [|u l IH]; intros t; simpl; [auto|].
  specialize (IH (if runs_before u t then u else t)).
  destruct (runs_before u t); simpl in IH; destruct IH as [H|H]; auto.
Qed.

Lemma runs_before_due u t :
  if runs_before u t then t_due u <= t_due t else t_due t <= t_due u.
Proof.
  unfold runs_before.
  destruct (Nat.ltb_spec (t_due u) (t_due t)), (Nat.eqb_spec (t_due u) (t_due t)),
    (Nat.ltb_spec (t_id u) (t_id t)); simpl; lia.
Qed.

Lemma earliest_min t l :
  forall u, In u (t :: l) -> t_due (earliest t l) <= t_due u.
Proof.
  revert t; induction l as [|v l IH]; intros t u Hu; simpl in *.
  - destruct Hu as [<-|[]]; lia.
  - pose proof (runs_before_due v t) as Hvt.
    set (m := if runs_before v t then v else t) in *.
    assert (Hm : t_due m <= t_due t /\ t_due m <= t_due v)
      by (unfold m; destruct (runs_before v t); lia).
    specialize (IH m). pose proof (IH m (or_introl eq_refl)).
    destruct Hu as [<-|[<-|Hu]]; [lia|lia|apply IH; right; exact Hu].
Qed.

Lemma fire_none s : fire s = None <-> pending s = [].
Proof. unfold fire, next_timer. destruct (pending s); split; congruence. Qed.

(** The timer that fires is pending and has the least due time. *)
Lemma fire_earliest s t s' :
  fire s = Some (t, s') ->
  In t (pending s) /\ forall u, In u (pending s) -> t_due t <= t_due u.
Proof.
  unfold fire, next_timer. destruct (pending s) as [|t0 l] eqn:Hp; [discriminate|].
  intros H; injection H as <- _. split; [apply earliest_in|apply earliest_min].
Qed.

Lemma fire_now s t s' :
  sched_wf s -> fire s = Some (t, s') -> now s' = t_due t.
Proof.
  intros [_ Hf] Hfire. pose proof (fire_earliest _ _ _ Hfire) as [Hin _].
  rewrite Forall_forall in Hf. specialize (Hf _ Hin).
  unfold fire in Hfire. destruct (next_timer s); [|discriminate].
  injection Hfire as <- <-. simpl. lia.
Qed.

Lemma fire_pending s t s' u :
  fire s = Some (t, s') ->
  In u (pending s') <->
    (In u (pending s) /\ t_id u <> t_id t) \/
    (exists p, t_period t = Some p /\ u = Timer (t_id t) (now s' + p) (Some p) (t_cb t)).
Proof.
  unfold fire. destruct (next_timer s) as [t0|]; [|discriminate].
  intros H; injection H as <- <-; simpl.
  rewrite in_app_iff, filter_In, Bool.negb_true_iff, Nat.eqb_neq.
  destruct (t_period t0) as [p|]; simpl; split.
  - intros [H|[H|[]]]; [left; exact H| right; eauto].
  - intros [H|(p' & Hp & ->)]; [left; exact H|injection Hp as ->; right; left; reflexivity].
  - intros [H|[]]; left; exact H.
  - intros [H|(p' & Hp & _)]; [left; exact H|discriminate].
Qed.

(** An interval alone in the queue fires at its due time and is re-armed
    one period later. *)
Lemma fire_single now0 nxt id due per (cb : Cb) :
  now0 <= due ->
  fire (Sched now0 nxt [Timer id due (Some per) cb]) =
  Some (Timer id due (Some per) cb, Sched due nxt [Timer id (due + per) (Some per) cb]).
Proof.
  intros H. unfold fire, next_timer; simpl.
  rewrite Nat.eqb_refl, Nat.max_r by exact H. reflexivity.
Qed.

Lemma in_schedule u per cb d s :
  In u (pending (snd (schedule per cb d s))) <->
  In u (pending s) \/ u = Timer (next_id s) (now s + d) per cb.
Proof.
  unfold schedule; simpl. rewrite in_app_iff. simpl.
  split; intros [H|H]; auto; destruct H as [H|[]]; auto.
Qed.

Lemma in_clearTimer u id s :
  In u (pending (clearTimer id s)) <-> In u (pending s) /\ t_id u <> id.
Proof.
  unfold clearTimer; simpl. rewrite filter_In, Bool.negb_true_iff, Nat.eqb_neq. reflexivity.
Qed.

Lemma fresh_next_id s u : sched_wf s -> In u (pending s) -> t_id u <> next_id s.
Proof.
  intros [_ Hf] Hu. rewrite Forall_forall in Hf. specialize (Hf u Hu). lia.
Qed.

Lemma fire_next_id s t s' : fire s = Some (t, s') -> next_id s' = next_id s.
Proof.
  unfold fire. destruct (next_timer s); [|discriminate]. intros H; injection H as _ <-. reflexivity.
Qed.

Lemma fire_id_lt s t s' : sched_wf s -> fire s = Some (t, s') -> t_id t < next_id s.
Proof.
  intros [_ Hf] H. pose proof (fire_earliest _ _ _ H) as [Hin _].
  rewrite Forall_forall in Hf. apply (Hf _ Hin).
Qed.

(** Time may pass up to the due time of a lone timer. *)
Lemma can_elapse_single d now0 nxt id due per (cb : Cb) :
  now0 + d <= due -> can_elapse d (Sched now0 nxt [Timer id due per cb]) = true.
Proof. intros H. unfold can_elapse; simpl. rewrite Bool.andb_true_r. apply Nat.leb_le, H. Qed.

(** A timeout alone in the queue fires at its due time and is removed. *)
Lemma fire_single_timeout now0 nxt id due (cb : Cb) :
  now0 <= due ->
  fire (Sched now0 nxt [Timer id due None cb]) =
  Some (Timer id due None cb, Sched due nxt []).
Proof.
  intros H. unfold fire, next_timer; simpl.
  rewrite Nat.eqb_refl, Nat.max_r by exact H. reflexivity.
Qed.

(** Counting pending timers by a predicate: arming one adds it. *)
Lemma schedule_count p per cb d s :
  length (List.filter p (pending (snd (schedule per cb d s)))) =
  length (List.filter p (pending s)) +
  (if p (Timer (next_id s) (now s + d) per cb) then 1 else 0).
Proof.
  unfold schedule; simpl. rewrite filter_app, length_app. simpl.
  destruct (p _); reflexivity.
Qed.

Lemma filter_remove_id_count p (l : list (timer Cb)) t :
  List.NoDup (map t_id l) -> In t l ->
  length (List.filter p (List.filter (fun u => negb (t_id u =? t_id t)) l)) +
  (if p t then 1 else 0) = length (List.filter p l).
Proof.
  induction l as [|u l IH]; simpl; [intros _ []|].
  intros Hnd Hin. apply NoDup_cons_iff in Hnd as [Hn Hnd].
  destruct Hin as [<-|Hin].
  - rewrite Nat.eqb_refl. simpl.
    rewrite (filter_ext_in (fun u0 => negb (t_id u0 =? t_id u)) (fun _ => true)).
    + rewrite filter_true. destruct (p u); simpl; lia.
    + intros v Hv. destruct (Nat.eqb_spec (t_id v) (t_id u)); [|reflexivity].
      exfalso. apply Hn. rewrite <- e. apply in_map; exact Hv.
  - destruct (Nat.eqb_spec (t_id u) (t_id t)) as [E|E].
    + exfalso. apply Hn. rewrite E. apply in_map; exact Hin.
    + simpl. destruct (p u); simpl; rewrite <- IH by assumption; lia.
Qed.

(** Firing a timeout removes exactly that timer. *)
Lemma fire_timeout_count p s t s' :
  sched_wf s -> fire s = Some (t, s') -> t_period t = None ->
  length (List.filter p (pending s')) + (if p t then 1 else 0) =
  length (List.filter p (pending s)).
Proof.
  intros [Hnd _] Hfire Hper. pose proof (fire_earliest _ _ _ Hfire) as [Hin _].
  unfold fire in Hfire. destruct (next_timer s) as [t0|]; [|discriminate].
  injection Hfire as <- <-. simpl. rewrite Hper, app_nil_r.
  apply filter_remove_id_count; assumption.
Qed.

Lemma in_ids s x : In x (ids s) <-> exists t, In t (pending s) /\ t_id t = x.
Proof. unfold ids. rewrite in_map_iff. firstorder. Qed.

Lemma schedule_wf p cb d s : sched_wf s -> sched_wf (snd (schedule p cb d s)).
Proof.
  intros [Hnd Hf]. unfold sched_wf, schedule, ids in *; simpl. split.
  - rewrite map_app. apply NoDup_app; [exact Hnd|simpl; constructor; [intros []|constructor]|].
    intros x Hx [Hx'|[]]. simpl in Hx'. subst x.
    apply in_map_iff in Hx as (t & Ht' & Ht).
    rewrite Forall_forall in Hf. specialize (Hf t Ht). lia.
  - apply Forall_app; split; [|repeat constructor; simpl; lia].
    eapply Forall_impl; [|exact Hf]. simpl; intros; lia.
Qed.

Lemma clearTimer_wf id s : sched_wf s -> sched_wf (clearTimer id s).
Proof.
  intros [Hnd Hf]. unfold sched_wf, clearTimer, ids in *; simpl.
  split; [apply NoDup_filter_map; exact Hnd|apply Forall_filter_gen; exact Hf].
Qed.

Lemma fire_wf s t s' : sched_wf s -> fire s = Some (t, s') -> sched_wf s'.
Proof.
  intros Hwf Hfire. pose proof (fire_now _ _ _ Hwf Hfire) as Hnow.
  pose proof (fire_earliest _ _ _ Hfire) as [Hin Hmin].
  destruct Hwf as [Hnd Hf]. rewrite Forall_forall in Hf.
  pose proof (Hf _ Hin) as [Hlt _].
  assert (Hnext : next_id s' = next_id s)
    by (unfold fire in Hfire; destruct (next_timer s); [|discriminate];
        injection Hfire as _ <-; reflexivity).
  split.
  - unfold fire in Hfire; destruct (next_timer s) as [t0|]; [|discriminate].
    injection Hfire as <- <-. unfold ids; simpl. rewrite map_app.
    apply NoDup_app; [apply NoDup_filter_map; exact Hnd| |].
    + destruct (t_period t0); simpl; repeat constructor; auto.
    + intros x Hx Hx'. apply in_map_iff in Hx as (u & <- & Hu).
      apply filter_In in Hu as [_ Hu]. apply Bool.negb_true_iff, Nat.eqb_neq in Hu.
      destruct (t_period t0); simpl in Hx'; [destruct Hx' as [Hx'|[]]|destruct Hx']; auto.
  - rewrite Forall_forall. intros u Hu. rewrite Hnext.
    apply (fire_pending _ _ _ _ Hfire) in Hu as [[Hu _]|(p & _ & ->)]; simpl.
    + specialize (Hf _ Hu). specialize (Hmin _ Hu). lia.
    + lia.
Qed.

Lemma elapse_wf d s : sched_wf s -> can_elapse d s = true -> sched_wf (elapse d s).
Proof.
  intros [Hnd Hf] Hc. unfold can_elapse in Hc. rewrite forallb_forall in Hc.
  split; [exact Hnd|]. rewrite Forall_forall in *. intros t Ht; simpl.
  specialize (Hf t Ht). specialize (Hc t Ht). apply Nat.leb_le in Hc. lia.
Qed.

Lemma sched_step_wf s l s' : sched_wf s -> sched_step s l s' -> sched_wf s'.
Proof.
  intros Hwf H; destruct H;
    eauto using schedule_wf, clearTimer_wf, fire_wf, elapse_wf.
Qed.

Lemma sched_wf_init : sched_wf (@sched_init Cb).
Proof. split; constructor. Qed.

(** A handle that is not pending and was handed out before never becomes
    pending again: new timers get fresh handles, and an interval is only
    re-armed under its own handle while it is pending. *)
Lemma sched_step_stays_cleared id s l s' :
  id < next_id s /\ ~ In id (ids s) -> sched_step s l s' ->
  id < next_id s' /\ ~ In id (ids s').
Proof.
  intros [Hlt Hni] H; destruct H as [p cb d s|id' s|s t s' Hfire|d s Hc].
  - unfold schedule, ids in *; simpl. rewrite map_app, in_app_iff. simpl.
    split; [lia|]. intros [H|[H|[]]]; [exact (Hni H)|lia].
  - unfold clearTimer, ids in *; simpl. split; [exact Hlt|].
    intros H. apply in_map_iff in H as (u & Hu & Hin).
    apply filter_In in Hin as [Hin _]. apply Hni, in_map_iff; eauto.
  - assert (next_id s' = next_id s) as ->
      by (unfold fire in Hfire; destruct (next_timer s); [|discriminate];
          injection Hfire as _ <-; reflexivity).
    split; [exact Hlt|]. intros H. apply in_ids in H as (u & Hu & <-).
    apply (fire_pending _ _ _ _ Hfire) in Hu as [[Hu _]|(p & _ & ->)].
    + apply Hni, in_ids; eauto.
    + apply Hni, in_ids. exists t. split; [apply (fire_earliest _ _ _ Hfire)|reflexivity].
  - unfold elapse, ids in *; simpl. auto.
Qed.
End SchedulerFacts.

#[export] Hint Resolve schedule_wf clearTimer_wf fire_wf elapse_wf sched_step_wf
  sched_wf_init : anniv.

Section Cancellation.
Context {Cb : Type}.
Implicit Types (s : sched Cb) (t : timer Cb).

Lemma clearTimer_not_pending id s : ~ In id (ids (clearTimer id s)).
Proof.
  unfold clearTimer, ids; simpl. intros H.
  apply in_map_iff in H as (u & Hu & Hin). apply filter_In in Hin as [_ Hin].
  apply Bool.negb_true_iff, Nat.eqb_neq in Hin. exact (Hin Hu).
Qed.

Lemma fire_pending_id s t s' : fire s = Some (t, s') -> In (t_id t) (ids s).
Proof. intros H. apply in_ids. exists t. split; [apply (fire_earliest _ _ _ H)|reflexivity]. Qed.

(** Cancellation is final: once clearTimeout/clearInterval has been
    called on a handle the queue handed out, no later sequence of queue
    operations (new timers, other clears, firings, time passing) ever runs
    a timer with that handle. *)
Theorem cleared_timer_never_fires id s s' s'' t :
  id < next_id s ->
  star sched_step_any (clearTimer id s) s' ->
  sched_step s' (Some t) s'' ->
  t_id t <> id.
Proof.
  intros Hlt Hreach Hstep.
  assert (Hinv : id < next_id s' /\ ~ In id (ids s')).
  { eapply (star_invariant sched_step_any (fun x => id < next_id x /\ ~ In id (ids x)));
      [|exact Hreach|split; [exact Hlt|apply clearTimer_not_pending]].
    intros a b Ha [l Hab]. exact (sched_step_stays_cleared _ _ _ _ Ha Hab). }
  inversion Hstep as [| |s0 t0 s0' Hfire| ]; subst.
  intros <-. apply (proj2 Hinv). exact (fire_pending_id _ _ _ Hfire).
Qed.
End Cancellation.

(** Witness: a 3 s timeout (handle 1) is cleared at once; a 1 s timeout
    armed afterwards (handle 2) is the one that fires. *)
Lemma cleared_timer_never_fires_witness :
  let s0 := snd (setTimeout tt 3000 (@sched_init unit)) in
  let s1 := clearTimer 1 s0 in
  let s2 := snd (setTimeout tt 1000 s1) in
  exists s3 t, sched_step s2 (Some t) s3 /\ t_id t = 2 /\ t_id t <> 1.
Proof.
  cbv zeta.
  eexists _, _. split; [apply ss_fire; vm_compute; reflexivity|]. split; [reflexivity|].
  eapply (cleared_timer_never_fires 1 (snd (setTimeout tt 3000 (@sched_init unit)))).
  - vm_compute. lia.
  - apply star_one. exists None. apply ss_schedule.
  - apply ss_fire. vm_compute. reflexivity.
Defined.
