(* ===== verification/Sequencer.v ===== *)
(** * Scene sequencing (App.tsx)

    App keeps [currentScene] in a [useState(0)]; the five first scenes get
    [onComplete = handleSceneComplete] ([setCurrentScene(prev => prev + 1)])
    and Scene6Finale gets [onReplay = handleReplay] ([setCurrentScene(0)]).
    The scenes are rendered by the chain [{currentScene === k && <Scene .../>}]
    inside [<AnimatePresence mode="wait">]: when the key changes, the
    outgoing scene stays mounted, and clickable, while its exit animation
    plays (scenes 2 to 5 declare [exit]; Scene1Intro's root is a plain
    [div] and Scene6Finale's root has no [exit], so they leave at once),
    and only then is the scene for the current [currentScene] mounted.

    This file holds
    - [Spec]: the sequencer of the specification (six states, [advance]
      a no-op at the last one, [reset] bumping an epoch, and idempotent
      completion);
    - the source's counter, its mount chain and the presence machine;
    - [seq_step]: the sequencer as a step relation in which a mounted scene
      may call its callback at any time (the completion contract), and
      [seq_step_guarded], the same machine when each scene instance calls
      [onComplete] at most once. *)

From Stdlib Require Import List Lia Arith.
From stdpp Require Import base decidable option.
From S2P Require Import Prelude.
Import ListNotations.

(** ** The specification's sequencer *)

Module Spec.
Record state := State { active : nat; epoch : nat }.

Definition init : state := State 0 0.

Definition last : nat := 5.

(** advance(): valid from 0..4, a no-op from the terminal state. *)
Definition advance (st : state) : state :=
  if active st <? last then State (S (active st)) (epoch st) else st.

(** reset(): back to 0 and a new epoch. *)
Definition reset (st : state) : state := State 0 (S (epoch st)).

(** onComplete() of the scene [from] of epoch [ep]: only the first call,
    made while that scene is still active, advances. *)
Definition complete (from ep : nat) (st : state) : state :=
  if (from =? active st) && (ep =? epoch st) then advance st else st.
End Spec.

(** ** The source: scenes, the counter and the mount chain *)

Inductive scene :=
| Scene1Intro
| Scene2PhotoJourney
| Scene3GiftBox
| Scene4MemoryUniverse
| Scene5Timeline
| Scene6Finale.

#[export] Instance scene_eq_dec : EqDecision scene.
Proof. solve_decision. Defined.

(** [{currentScene === 0 && <Scene1Intro key="scene1" .../>} ...]: which
    scene the chain renders; none for a value outside 0..5. *)
Definition scene_at (currentScene : nat) : option scene :=
  match currentScene with
  | 0 => Some Scene1Intro
  | 1 => Some Scene2PhotoJourney
  | 2 => Some Scene3GiftBox
  | 3 => Some Scene4MemoryUniverse
  | 4 => Some Scene5Timeline
  | 5 => Some Scene6Finale
  | _ => None
  end.

Definition scene_index (sc : scene) : nat :=
  match sc with
  | Scene1Intro => 0
  | Scene2PhotoJourney => 1
  | Scene3GiftBox => 2
  | Scene4MemoryUniverse => 3
  | Scene5Timeline => 4
  | Scene6Finale => 5
  end.

(** [handleSceneComplete]: [setCurrentScene((prev) => prev + 1)]. *)
Definition handleSceneComplete (prev : nat) : nat := prev + 1.

(** [handleReplay]: [setCurrentScene(0)]. *)
Definition handleReplay (prev : nat) : nat := 0.

(** The callback prop each scene element receives. *)
Inductive scene_callback := OnComplete | OnReplay.

Definition callback_of (sc : scene) : scene_callback :=
  match sc with
  | Scene6Finale => OnReplay
  | _ => OnComplete
  end.

(** Whether the scene's tree declares an [exit] animation on its root, so
    that AnimatePresence keeps it mounted while it plays. *)
Definition has_exit (sc : scene) : bool :=
  match sc with
  | Scene1Intro | Scene6Finale => false
  | _ => true
  end.

(** ** AnimatePresence mode="wait" *)

(** Mount and unmount of a scene element; [inst] identifies the component
    instance (a React fiber), fresh at every mount. *)
Inductive lifecycle :=
| Mount (sc : scene) (inst : nat)
| Unmount (sc : scene) (inst : nat).

Record presence := Presence {
  currentScene : nat;             (* App's state *)
  shown : option (scene * nat);   (* the scene element in the tree *)
  exiting : bool;                 (* [shown] plays its exit animation *)
  next_inst : nat                 (* instance counter *)
}.

(** Mount the element the chain renders for [currentScene], if any. *)
Definition mount_wanted (p : presence) : presence * list lifecycle :=
  match scene_at (currentScene p) with
  | Some sc =>
      (Presence (currentScene p) (Some (sc, next_inst p)) false (S (next_inst p)),
       [Mount sc (next_inst p)])
  | None => (Presence (currentScene p) None false (next_inst p), [])
  end.

(** Re-render after [currentScene] changed. *)
Definition reconcile (p : presence) : presence * list lifecycle :=
  match shown p with
  | None => mount_wanted p
  | Some (sc, i) =>
      if exiting p then (p, [])
      else if decide (scene_at (currentScene p) = Some sc) then (p, [])
      else if has_exit sc
      then (Presence (currentScene p) (Some (sc, i)) true (next_inst p), [])
      else
        let '(p', acts) :=
          mount_wanted (Presence (currentScene p) None false (next_inst p)) in
        (p', Unmount sc i :: acts)
  end.

(** The exit animation of the outgoing scene finished. *)
Definition exit_complete (p : presence) : presence * list lifecycle :=
  match shown p with
  | Some (sc, i) =>
      if exiting p then
        let '(p', acts) :=
          mount_wanted (Presence (currentScene p) None false (next_inst p)) in
        (p', Unmount sc i :: acts)
      else (p, [])
  | None => (p, [])
  end.

(** Setting App's [currentScene] and re-rendering. *)
Definition set_scene (n : nat) (p : presence) : presence * list lifecycle :=
  reconcile (Presence n (shown p) (exiting p) (next_inst p)).

(** First render of App. *)
Definition presence_init : presence * list lifecycle :=
  mount_wanted (Presence 0 None false 0).

(** ** The sequencer as a step relation

    A scene element in the tree, exiting or not, may call the callback it
    was given: the completion contract leaves to the scene when it does. *)
Inductive seq_event :=
| EvComplete (sc : scene) (inst : nat)
| EvReplay (inst : nat)
| EvExitDone.

Inductive seq_step : presence -> seq_event -> presence -> Prop :=
| seq_complete p sc i :
    shown p = Some (sc, i) -> callback_of sc = OnComplete ->
    seq_step p (EvComplete sc i) (fst (set_scene (handleSceneComplete (currentScene p)) p))
| seq_replay p i :
    shown p = Some (Scene6Finale, i) ->
    seq_step p (EvReplay i) (fst (set_scene (handleReplay (currentScene p)) p))
| seq_exit p :
    exiting p = true ->
    seq_step p EvExitDone (fst (exit_complete p)).

(** The same machine when every scene instance completes at most once: a
    scene that already called [onComplete] is the exiting one. *)
Inductive seq_step_guarded : presence -> seq_event -> presence -> Prop :=
| seqg_step p e p' :
    seq_step p e p' ->
    (forall sc i, e = EvComplete sc i -> exiting p = false) ->
    seq_step_guarded p e p'.

Definition seq_reach (p p' : presence) : Prop :=
  star (fun a b => exists e, seq_step a e b) p p'.

Definition seq_reach_guarded (p p' : presence) : Prop :=
  star (fun a b => exists e, seq_step_guarded a e b) p p'.

(** No event is possible: nothing is mounted, and no exit is pending. *)
Definition seq_stuck (p : presence) : Prop := forall e p', ~ seq_step p e p'.

(** The specification's operation each event stands for. *)
Definition spec_of_event (e : seq_event) (st : Spec.state) : Spec.state :=
  match e with
  | EvComplete sc _ => Spec.complete (scene_index sc) (Spec.epoch st) st
  | EvReplay _ => Spec.reset st
  | EvExitDone => st
  end.

(** The specification's run on the events of a run of App. *)
Definition spec_run (es : list seq_event) (st : Spec.state) : Spec.state :=
  fold_left (fun st e => spec_of_event e st) es st.

(** A measure for the progress of the guarded machine. *)
Definition seq_measure (p : presence) : nat :=
  2 * (5 - currentScene p) + (if exiting p then 2 else 1).

(** ** Theorems *)

(** The invariant of the guarded machine: the counter stays in 0..5, a
    scene is always in the tree, a non-exiting scene is the one the counter
    names, and an exiting one is the scene just before it. *)
Definition seq_inv (p : presence) : Prop :=
  currentScene p <= 5 /\
  match shown p with
  | Some (sc, i) =>
      i < next_inst p /\
      (if exiting p then has_exit sc = true /\ currentScene p = S (scene_index sc)
       else currentScene p = scene_index sc)
  | None => False
  end.

Lemma scene_at_index sc : scene_at (scene_index sc) = Some sc.
Proof. destruct sc; reflexivity. Qed.

Lemma scene_at_Some n sc : scene_at n = Some sc -> n = scene_index sc.
Proof.
  destruct n as [|[|[|[|[|[|n]]]]]]; simpl; intros H; try discriminate;
    injection H as <-; reflexivity.
Qed.

Lemma scene_at_le n : n <= 5 -> exists sc, scene_at n = Some sc.
Proof. intros H. destruct n as [|[|[|[|[|[|n]]]]]]; simpl; eauto; lia. Qed.

#[export] Hint Resolve scene_at_index : anniv.

(** Case analysis on a state of the presence machine satisfying the
    invariant: the counter is pinned by the shown scene. *)
Ltac presence_cases p :=
  let cur := fresh "cur" in let sc := fresh "sc" in let i := fresh "i" in
  let ex := fresh "ex" in let ni := fresh "ni" in
  destruct p as [cur [[sc i]|] ex ni];
  unfold seq_inv in *; simpl in *;
  repeat match goal with
         | H : _ /\ _ |- _ => destruct H
         | H : False |- _ => destruct H
         end;
  destruct ex; [destruct sc|destruct sc]; simpl in *;
  repeat match goal with
         | H : _ /\ _ |- _ => destruct H
         | H : ?x = ?x |- _ => clear H
         end;
  try discriminate; subst.

Ltac seq_close :=
  unfold seq_inv, handleSceneComplete, handleReplay; simpl;
  repeat split; first [reflexivity | lia].

Lemma seq_inv_init : seq_inv (fst presence_init).
Proof. seq_close. Qed.

Lemma seq_step_guarded_inv p e p' :
  seq_inv p -> seq_step_guarded p e p' -> seq_inv p'.
Proof.
  intros Hinv Hg. destruct Hg as [q e0 q' Hs Hg].
  destruct Hs as [q sc' i' Hsh Hcb|q i' Hsh|q Hex].
  - specialize (Hg sc' i' eq_refl). presence_cases q; injection Hsh as <- <-;
      simpl in *; try discriminate; seq_close.
  - presence_cases q; injection Hsh as <-; seq_close.
  - presence_cases q; try discriminate; seq_close.
Qed.

#[export] Hint Resolve seq_inv_init seq_step_guarded_inv : anniv.

Lemma set_scene_current n p : currentScene (fst (set_scene n p)) = n.
Proof.
  unfold set_scene, reconcile, mount_wanted; simpl.
  repeat case_match; simplify_eq/=; reflexivity.
Qed.

Lemma exit_complete_current p : currentScene (fst (exit_complete p)) = currentScene p.
Proof.
  unfold exit_complete, mount_wanted.
  repeat case_match; simplify_eq/=; reflexivity.
Qed.

(** One guarded step is one step of the specification's sequencer. *)
Lemma guarded_step_refines p e p' st :
  seq_inv p -> currentScene p = Spec.active st ->
  seq_step_guarded p e p' ->
  currentScene p' = Spec.active (spec_of_event e st).
Proof.
  intros Hinv Hrel Hg. destruct Hg as [q e0 q' Hs Hg].
  destruct Hs as [r sc i Hsh Hcb|r i Hsh|r Hex]; simpl.
  - rewrite set_scene_current. specialize (Hg sc i eq_refl).
    destruct st as [a ep]; simpl in *. subst a.
    presence_cases r; injection Hsh as <- <-; try discriminate;
      unfold Spec.complete, Spec.advance, handleSceneComplete; simpl;
      rewrite ?Nat.eqb_refl; reflexivity.
  - rewrite set_scene_current. reflexivity.
  - rewrite exit_complete_current. exact Hrel.
Qed.

(** The simulation diagram extended to runs: from matching states, a run
    of the guarded machine and the specification's run on the same events
    end in matching states. *)
Lemma guarded_steps_refine p es p' st :
  seq_inv p -> currentScene p = Spec.active st ->
  steps seq_step_guarded p es p' ->
  currentScene p' = Spec.active (spec_run es st) /\ seq_inv p'.
Proof.
  intros Hinv Hrel H. revert st Hinv Hrel.
  induction H as [q|q e q' es q'' Hs _ IH]; intros st Hinv Hrel; [auto|].
  apply IH; [eapply seq_step_guarded_inv; eauto|eapply guarded_step_refines; eauto].
Qed.

(** C1. Refinement: in every run of App's sequencer in which each scene
    instance calls [onComplete] at most once, [currentScene] is, after
    every event, the active scene of the specification's sequencer run on
    the same events ([complete] of the calling scene for an [onComplete],
    [reset] for the Finale's [onReplay], nothing for the end of an exit
    animation), and the presence invariant holds. *)
Theorem guarded_run_refines_spec es p :
  steps seq_step_guarded (fst presence_init) es p ->
  currentScene p = Spec.active (spec_run es Spec.init) /\ seq_inv p.
Proof. intros H. exact (guarded_steps_refine _ es p Spec.init seq_inv_init eq_refl H). Qed.

(** C3. No skipping, no revisiting: in the guarded machine, whenever the
    scene element in the tree is replaced by a new instance, the new scene
    is the next one in the order Intro, PhotoJourney, GiftBox,
    MemoryUniverse, Timeline, Finale, or the Intro after the Finale. *)
Theorem guarded_scene_order p e p' sc i sc' i' :
  seq_inv p -> seq_step_guarded p e p' ->
  shown p = Some (sc, i) -> shown p' = Some (sc', i') -> i' <> i ->
  scene_index sc' = S (scene_index sc) \/ (sc = Scene6Finale /\ sc' = Scene1Intro).
Proof.
  intros Hinv Hg. destruct Hg as [q e0 q' Hs Hg].
  destruct Hs as [r sc0 i0 Hsh Hcb|r i0 Hsh|r Hex].
  - specialize (Hg sc0 i0 eq_refl).
    presence_cases r; injection Hsh as <- <-; try discriminate;
      intros [= <- <-] [= <- <-] Hne; simpl; auto; congruence.
  - presence_cases r; injection Hsh as <-;
      intros [= <- <-] [= <- <-] Hne; simpl; auto.
  - presence_cases r; try discriminate;
      intros [= <- <-] [= <- <-] Hne; simpl; auto.
Qed.

(** From a state of the guarded machine that is not the Finale, some
    guarded event decreases the measure. *)
Lemma guarded_progress p :
  seq_inv p ->
  (exists i, shown p = Some (Scene6Finale, i) /\ exiting p = false) \/
  exists e p', seq_step_guarded p e p' /\ seq_measure p' < seq_measure p.
Proof.
  intros Hinv. presence_cases p;
    first [ left; eexists; split; reflexivity
          | right; eexists _, _; split;
            [ apply seqg_step;
              [ first [apply seq_exit; reflexivity
                      | apply seq_complete; reflexivity]
              | intros ? ? Heq; first [reflexivity | discriminate Heq] ]
            | unfold seq_measure; simpl; lia ] ].
Qed.

Lemma seq_measure_pos p : 1 <= seq_measure p.
Proof. unfold seq_measure. destruct (exiting p); lia. Qed.

(** Every state of the guarded machine is at most eleven units of
    measure away from the end. *)
Lemma seq_measure_bound p : seq_inv p -> seq_measure p <= 11.
Proof. intros Hinv. presence_cases p; unfold seq_measure; simpl; lia. Qed.

(** From every state of the guarded machine, a run shorter than the
    state's measure mounts the Finale. *)
Lemma guarded_finale_within p :
  seq_inv p ->
  exists es p' i, steps seq_step_guarded p es p' /\ length es < seq_measure p /\
                  shown p' = Some (Scene6Finale, i).
Proof.
  remember (seq_measure p) as m eqn:Hm. revert p Hm.
  induction m as [m IH] using lt_wf_ind; intros p Hm Hinv.
  destruct (guarded_progress p Hinv) as [(i & Hsh & _)|(e & p' & Hs & Hlt)].
  - exists [], p, i. pose proof (seq_measure_pos p). split; [constructor|split; [simpl; lia|exact Hsh]].
  - destruct (IH (seq_measure p') ltac:(lia) p' eq_refl (seq_step_guarded_inv _ _ _ Hinv Hs))
      as (es & p'' & i & Hr & Hlen & Hsh).
    exists (e :: es), p'', i. split; [econstructor; eauto|split; [simpl; lia|exact Hsh]].
Qed.

(** C5. Progress: from every state of the guarded machine the Finale is
    mounted after at most ten events, by letting the tree's scene
    complete (or finish its exit animation) once per step. *)
Theorem guarded_reaches_finale p :
  seq_inv p ->
  exists es p' i, steps seq_step_guarded p es p' /\ length es <= 10 /\
                  shown p' = Some (Scene6Finale, i).
Proof.
  intros Hinv. destruct (guarded_finale_within p Hinv) as (es & p' & i & Hr & Hlen & Hsh).
  pose proof (seq_measure_bound p Hinv). exists es, p', i. split; [exact Hr|split; [lia|exact Hsh]].
Qed.

(** C8. A second [onComplete] from the same scene instance while its exit
    animation plays (a double click on "Continue Your Journey" or
    "Continue →") advances [currentScene] twice: when the exit finishes,
    AnimatePresence mounts the scene two places ahead, and the scene in
    between is never mounted. *)
Theorem double_complete_skips_scene p sc i p1 p2 p3 :
  seq_inv p -> shown p = Some (sc, i) -> exiting p = false ->
  seq_step p (EvComplete sc i) p1 ->
  seq_step p1 (EvComplete sc i) p2 ->
  seq_step p2 EvExitDone p3 ->
  currentScene p3 = scene_index sc + 2 /\
  option_map fst (shown p3) = scene_at (scene_index sc + 2).
Proof.
  intros Hinv Hsh Hex H1 H2 H3.
  inversion H1 as [r sc0 i0 Hsh1 Hcb1 E1 E2 E3| |]; subst; clear H1.
  inversion H2 as [r sc0 i0 Hsh2 Hcb2 E1 E2 E3| |]; subst; clear H2.
  inversion H3 as [| |r Hex3 E1 E2]; subst; clear H3.
  presence_cases p; injection Hsh as <- <-; try discriminate;
    vm_compute in Hsh2; try discriminate; split; reflexivity.
Qed.

Lemma stuck_when_blank p : shown p = None -> exiting p = false -> seq_stuck p.
Proof.
  intros Hsh Hex e p' Hs.
  destruct Hs as [r sc i Hsh'|r i Hsh'|r Hex']; congruence.
Qed.

(** C9. The double click on Scene5Timeline's "Continue →" leaves App with
    [currentScene = 6]: no element of the mount chain matches, the tree is
    empty once the exit animation ends, and no event can change it again
    (the only way back, [onReplay], belongs to the Finale, which is never
    mounted). *)
Theorem timeline_double_complete_blank p i p1 p2 p3 :
  seq_inv p -> shown p = Some (Scene5Timeline, i) -> exiting p = false ->
  seq_step p (EvComplete Scene5Timeline i) p1 ->
  seq_step p1 (EvComplete Scene5Timeline i) p2 ->
  seq_step p2 EvExitDone p3 ->
  currentScene p3 = 6 /\ shown p3 = None /\ seq_stuck p3.
Proof.
  intros Hinv Hsh Hex H1 H2 H3.
  inversion H1 as [r sc0 i0 Hsh1 Hcb1 E1 E2 E3| |]; subst; clear H1.
  inversion H2 as [r sc0 i0 Hsh2 Hcb2 E1 E2 E3| |]; subst; clear H2.
  inversion H3 as [| |r Hex3 E1 E2]; subst; clear H3.
  presence_cases p; injection Hsh as <-; try discriminate.
  split; [reflexivity|split; [reflexivity|apply stuck_when_blank; reflexivity]].
Qed.

(** ** Concrete runs *)

(** Drive the guarded machine: end the exit animation if one plays,
    otherwise let the scene in the tree complete once. *)
Ltac guarded_run :=
  repeat first
    [ apply star_refl
    | eapply star_step;
      [ eexists; apply seqg_step;
        [ first [ apply seq_exit; reflexivity | apply seq_complete; reflexivity ]
        | intros ? ? Heq; first [ reflexivity | discriminate Heq ] ]
      | ] ].

(** The same, recording the events: the next event of the goal's list is
    taken when the state allows it. *)
Ltac guarded_trace :=
  repeat first
    [ apply steps_refl
    | eapply steps_cons;
      [ apply seqg_step;
        [ first [ apply seq_exit; reflexivity | apply seq_complete; reflexivity
                | apply seq_replay; reflexivity ]
        | intros ? ? Heq; first [ reflexivity | discriminate Heq ] ]
      | ] ].

(** Completing Intro, PhotoJourney, GiftBox and MemoryUniverse once each
    (with their exit animations) mounts Timeline as instance 4. *)
Lemma timeline_reachable :
  seq_reach_guarded (fst presence_init) (Presence 4 (Some (Scene5Timeline, 4)) false 5).
Proof. unfold seq_reach_guarded. guarded_run. Qed.

(** Intro, PhotoJourney and the end of its exit animation: GiftBox is
    mounted, and the specification has advanced twice. *)
Lemma guarded_run_refines_spec_witness :
  steps seq_step_guarded (fst presence_init)
        [EvComplete Scene1Intro 0; EvComplete Scene2PhotoJourney 1; EvExitDone]
        (Presence 2 (Some (Scene3GiftBox, 2)) false 3) /\
  currentScene (Presence 2 (Some (Scene3GiftBox, 2)) false 3) =
    Spec.active (spec_run [EvComplete Scene1Intro 0; EvComplete Scene2PhotoJourney 1; EvExitDone]
                          Spec.init) /\
  seq_inv (Presence 2 (Some (Scene3GiftBox, 2)) false 3).
Proof.
  assert (H : steps seq_step_guarded (fst presence_init)
                [EvComplete Scene1Intro 0; EvComplete Scene2PhotoJourney 1; EvExitDone]
                (Presence 2 (Some (Scene3GiftBox, 2)) false 3)) by guarded_trace.
  split; [exact H|exact (guarded_run_refines_spec _ _ H)].
Defined.

Lemma guarded_scene_order_witness :
  let p := Presence 2 (Some (Scene2PhotoJourney, 1)) true 2 in
  seq_inv p /\ seq_step_guarded p EvExitDone (fst (exit_complete p)) /\
  scene_index Scene3GiftBox = S (scene_index Scene2PhotoJourney).
Proof.
  cbv zeta.
  assert (Hi : seq_inv (Presence 2 (Some (Scene2PhotoJourney, 1)) true 2))
    by seq_close.
  assert (Hs : seq_step_guarded (Presence 2 (Some (Scene2PhotoJourney, 1)) true 2)
                 EvExitDone (fst (exit_complete (Presence 2 (Some (Scene2PhotoJourney, 1)) true 2))))
    by (apply seqg_step; [apply seq_exit; reflexivity|intros ? ? Heq; discriminate Heq]).
  split; [exact Hi|split; [exact Hs|]].
  assert (Hne : 2 <> 1) by lia.
  destruct (guarded_scene_order _ _ _ Scene2PhotoJourney 1 Scene3GiftBox 2 Hi Hs
              eq_refl eq_refl Hne) as [H|[H _]]; [exact H|discriminate H].
Defined.

Lemma guarded_reaches_finale_witness :
  seq_inv (fst presence_init) /\
  exists es p' i, steps seq_step_guarded (fst presence_init) es p' /\ length es <= 10 /\
                  shown p' = Some (Scene6Finale, i).
Proof. split; [exact seq_inv_init|exact (guarded_reaches_finale _ seq_inv_init)]. Defined.

(** A double click on PhotoJourney's continue button mounts MemoryUniverse:
    GiftBox is skipped. *)
Lemma double_complete_skips_scene_witness :
  let p := Presence 1 (Some (Scene2PhotoJourney, 1)) false 2 in
  let p1 := fst (set_scene 2 p) in
  let p2 := fst (set_scene 3 p1) in
  let p3 := fst (exit_complete p2) in
  seq_step p (EvComplete Scene2PhotoJourney 1) p1 /\
  seq_step p1 (EvComplete Scene2PhotoJourney 1) p2 /\
  seq_step p2 EvExitDone p3 /\
  currentScene p3 = 3 /\ option_map fst (shown p3) = Some Scene4MemoryUniverse.
Proof.
  cbv zeta.
  assert (H1 : seq_step (Presence 1 (Some (Scene2PhotoJourney, 1)) false 2)
                 (EvComplete Scene2PhotoJourney 1)
                 (fst (set_scene 2 (Presence 1 (Some (Scene2PhotoJourney, 1)) false 2))))
    by (apply (seq_complete (Presence 1 (Some (Scene2PhotoJourney, 1)) false 2)); reflexivity).
  assert (H2 : seq_step (fst (set_scene 2 (Presence 1 (Some (Scene2PhotoJourney, 1)) false 2)))
                 (EvComplete Scene2PhotoJourney 1)
                 (fst (set_scene 3 (fst (set_scene 2 (Presence 1 (Some (Scene2PhotoJourney, 1)) false 2))))))
    by exact (seq_complete (fst (set_scene 2 (Presence 1 (Some (Scene2PhotoJourney, 1)) false 2)))
                Scene2PhotoJourney 1 eq_refl eq_refl).
  assert (H3 : seq_step (fst (set_scene 3 (fst (set_scene 2 (Presence 1 (Some (Scene2PhotoJourney, 1)) false 2)))))
                 EvExitDone
                 (fst (exit_complete (fst (set_scene 3 (fst (set_scene 2 (Presence 1 (Some (Scene2PhotoJourney, 1)) false 2))))))))
    by (apply seq_exit; reflexivity).
  assert (Hi : seq_inv (Presence 1 (Some (Scene2PhotoJourney, 1)) false 2)) by seq_close.
  split; [exact H1|split; [exact H2|split; [exact H3|]]].
  exact (double_complete_skips_scene _ Scene2PhotoJourney 1 _ _ _
           Hi eq_refl eq_refl H1 H2 H3).
Defined.

(** Reached from the start by completing each scene once, then a double
    click on Timeline's continue button: blank and stuck. *)
Lemma timeline_double_complete_blank_witness :
  let p := Presence 4 (Some (Scene5Timeline, 4)) false 5 in
  let p1 := fst (set_scene 5 p) in
  let p2 := fst (set_scene 6 p1) in
  let p3 := fst (exit_complete p2) in
  seq_reach_guarded (fst presence_init) p /\
  currentScene p3 = 6 /\ shown p3 = None /\ seq_stuck p3.
Proof.
  cbv zeta. split; [exact timeline_reachable|].
  apply (timeline_double_complete_blank (Presence 4 (Some (Scene5Timeline, 4)) false 5) 4
           (fst (set_scene 5 (Presence 4 (Some (Scene5Timeline, 4)) false 5)))
           (fst (set_scene 6 (fst (set_scene 5 (Presence 4 (Some (Scene5Timeline, 4)) false 5)))))).
  - seq_close.
  - reflexivity.
  - reflexivity.
  - apply (seq_complete (Presence 4 (Some (Scene5Timeline, 4)) false 5)); reflexivity.
  - exact (seq_complete (fst (set_scene 5 (Presence 4 (Some (Scene5Timeline, 4)) false 5)))
             Scene5Timeline 4 eq_refl eq_refl).
  - apply seq_exit; reflexivity.
Defined.
