(* ===== verification/Data.v ===== *)
(** * The presentation's data (App.tsx)

    The [Photo] and [Milestone] shapes the scenes receive as props
    (Scene2PhotoJourney.tsx's [interface Photo], Scene5Timeline.tsx's
    [interface Milestone]) and the literal lists App passes them:
    [coupleImage], the thirteen [photos] and the six [milestones].  The
    milestone icon, a React element, is kept as the name of its
    lucide-react component. *)

From Stdlib Require Import List String Arith Lia.
From S2P Require Import Prelude.
Import ListNotations.
Open Scope string_scope.

Record photo := Photo { url : string; caption : string; date : string }.

Inductive icon := Heart | Calendar | Home | PartyPopper | Laugh.

Record milestone := Milestone {
  m_icon : icon;
  title : string;
  m_date : string;
  description : string;
  m_photos : option (list string)   (* [photos?: string[]] *)
}.

Definition coupleImage : string := "/src/asset/one.jpeg".

Definition photos : list photo := [
  Photo "/src/asset/two.jpeg" "The moment we said yes" "December 4, 2024";
  Photo "/src/asset/three.jpeg" "Our special day" "February 17, 2025";
  Photo "/src/asset/four.jpeg" "Adventures together" "April 2025";
  Photo "/src/asset/five.jpeg" "Festival of lights" "October 2025";
  Photo "/src/asset/six.jpeg" "Laughter & joy" "December 2025";
  Photo "/src/asset/seven.jpeg" "Forever moments" "January 2026";
  Photo "/src/asset/eight.jpeg" "Moments of joy" "January 2026";
  Photo "/src/asset/nine.jpeg" "Together forever" "February 2026";
  Photo "/src/asset/ten.jpeg" "Creating memories" "February 2026";
  Photo "/src/asset/eleven.jpeg" "Our journey" "March 2026";
  Photo "/src/asset/twelve.jpeg" "Spring together" "April 2026";
  Photo "/src/asset/thirteen.jpeg" "Love grows" "May 2026";
  Photo "/src/asset/fifteen.jpeg" "Summer dreams" "July 2026"
].

Definition milestones : list milestone := [
  Milestone Heart "💍 Engagement Day" "December 4, 2024"
    "The day we promised forever to each other. A moment that changed our lives."
    (Some ["/src/asset/twelve.jpeg"; "/src/asset/fifteen.jpeg"]);
  Milestone Calendar "💒 Wedding Day" "February 17, 2025"
    "Surrounded by love, we became one. The most beautiful day of our lives."
    (Some ["/src/asset/seven.jpeg"; "/src/asset/nine.jpeg"]);
  Milestone Home "🏡 First Home Together" "June 2025"
    "Building our nest, creating our sanctuary. Where our love grows every day."
    None;
  Milestone PartyPopper "🎉 First Festival" "October 2025"
    "Celebrating traditions together. Lights, love, and laughter filled our home."
    (Some ["/src/asset/five.jpeg"; "/src/asset/six.jpeg"]);
  Milestone Laugh "😂 Funniest Moment" "November 2025"
    "That time we got lost on a road trip and found the best sunset spot!"
    None;
  Milestone Heart "❤️ One Year Together" "February 17, 2026"
    "365 days of love, laughter, and endless memories. Here's to forever!"
    (Some ["/src/asset/eight.jpeg"; "/src/asset/ten.jpeg"])
].

(** [photos.map((p) => p.url)], what Scene6Finale receives. *)
Definition photo_urls (ps : list photo) : list string := map url ps.
