(* ===== verification/Carousel.v ===== *)
(** * Scene2PhotoJourney: the auto-advancing polaroid carousel

    State: [currentIndex] and [showContinue] ([useState] at lines 20-21).
    On mount an effect arms [setInterval(..., 3000)]; each tick runs the
    updater passed to [setCurrentIndex]: it moves to [prev + 1], or, when
    that would leave the photo list, clears the interval, sets
    [showContinue] and keeps [prev].  The effect's cleanup clears the
    interval at unmount.  The render maps every photo to a card whose
    frame depends on [offset = index - currentIndex]: past photos and those
    more than two ahead are not rendered; a row of progress dots and, once
    [showContinue] holds, the "Continue Your Journey" button that calls
    [onComplete].

    Numbers of the frame ([scale], [opacity]) are rationals, the offsets
    integers, as the code computes them exactly. *)

From Stdlib Require Import List Lia Arith ZArith QArith.
From S2P Require Import Prelude Timers Data.
Import ListNotations.
Local Open Scope nat_scope.

Record carousel := Carousel { currentIndex : nat; showContinue : bool }.

Definition carousel_init : carousel := Carousel 0 false.

Definition interval_ms : nat := 3000.

Section Behaviour.
Context {Cb : Type}.

(** The effect at mount: [const timer = setInterval(..., 3000)]; [cb] is the
    tick closure, which captures [timer]. *)
Definition carousel_mount (cb : Cb) (s : sched Cb) : nat * sched Cb :=
  setInterval cb interval_ms s.

(** One tick: the updater [(prev) => { const next = prev + 1; ... }]. *)
Definition carousel_tick (len timer : nat) (c : carousel) (s : sched Cb)
    : carousel * sched Cb :=
  let next := currentIndex c + 1 in
  if len <=? next
  then (Carousel (currentIndex c) true, clearTimer timer s)
  else (Carousel next (showContinue c), s).

(** The effect's cleanup: [return () => clearInterval(timer)]. *)
Definition carousel_unmount (timer : nat) (s : sched Cb) : sched Cb :=
  clearTimer timer s.

(** The scene on its own: the event loop fires the next timer, and the
    carousel's tick runs when it is the interval. *)
Definition carousel_step (len timer : nat) (st : carousel * sched Cb)
    : option (carousel * sched Cb) :=
  let '(c, s) := st in
  match fire s with
  | Some (t, s') =>
      if t_id t =? timer then Some (carousel_tick len timer c s') else Some (c, s')
  | None => None
  end.

Fixpoint carousel_run (n len timer : nat) (st : carousel * sched Cb)
    : option (carousel * sched Cb) :=
  match n with
  | 0 => Some st
  | S n' => match carousel_step len timer st with
            | Some st' => carousel_run n' len timer st'
            | None => None
            end
  end.
End Behaviour.

(** ** The render *)

(** The [animate] values and [zIndex] of a card. *)
Record frame := Frame {
  f_scale : Q; f_rotateY : Z; f_z : Z; f_x : Z; f_opacity : Q; f_y : Z; f_zIndex : Z
}.

(** Lines 152-188: the card of photo [index], if it is rendered. *)
Definition carousel_frame (currentIndex index : nat) : option frame :=
  let isActive := index =? currentIndex in
  let isPast := index <? currentIndex in
  let offset := (Z.of_nat index - Z.of_nat currentIndex)%Z in
  if negb isPast && (Z.abs offset <=? 2)%Z then
    Some (Frame
      (if isActive then 1 else (85 # 100) - inject_Z (Z.abs offset) * (1 # 10))%Q
      (if isActive then 0 else offset * 15)%Z
      (if isActive then 0 else - Z.abs offset * 100)%Z
      (offset * 30)%Z
      (if isActive then 1 else 4 # 10)%Q
      (if isActive then 0 else Z.abs offset * 20)%Z
      (if isActive then 10 else 10 - Z.abs offset)%Z)
  else None.

(** [photos.map((photo, index) => ... )], keeping the rendered cards. *)
Definition carousel_cards (ps : list photo) (currentIndex : nat)
    : list (nat * photo * frame) :=
  flat_map (fun '(i, ph) => match carousel_frame currentIndex i with
                            | Some f => [(i, ph, f)]
                            | None => []
                            end)
           (combine (seq 0 (List.length ps)) ps).

(** Lines 316-345: a progress dot is 24 wide for the current photo and 8
    otherwise, filled for the photos up to the current one, glowing for the
    current one. *)
Record dot := Dot { d_width : nat; d_filled : bool; d_glow : bool }.

Definition progress_dots (len currentIndex : nat) : list dot :=
  map (fun index => Dot (if index =? currentIndex then 24 else 8)
                        (index <=? currentIndex) (index =? currentIndex))
      (seq 0 len).

(** Lines 348-388: the continue button, present once [showContinue] holds. *)
Definition continue_button (c : carousel) : bool := showContinue c.

(** The interval alone in the queue, [j] ticks after a mount at [t0]. *)
Definition interval_sched {Cb} (t0 nxt timer : nat) (cb : Cb) (j : nat) : sched Cb :=
  Sched (t0 + interval_ms * j) nxt [Timer timer (t0 + interval_ms * S j) (Some interval_ms) cb].

(** The carousel's invariant: the index names a photo (index 0 when there
    is none), and the continue button only shows at the last photo. *)
Definition carousel_inv (len : nat) (c : carousel) : Prop :=
  currentIndex c < Nat.max 1 len /\ (showContinue c = true -> currentIndex c = len - 1).

(** The scene's own queue while it runs: its interval, due no earlier
    than now, or nothing once the interval is cleared. *)
Definition interval_state {Cb} (h : nat) (s : sched Cb) : Prop :=
  pending s = [] \/
  exists due (cb : Cb), now s <= due /\ pending s = [Timer h due (Some interval_ms) cb].

(** What the interval has left to do: nothing once it is cleared,
    otherwise one tick per photo still ahead and the clearing tick. *)
Definition carousel_measure {Cb} (len : nat) (st : carousel * sched Cb) : nat :=
  match pending (snd st) with [] => 0 | _ => S (len - currentIndex (fst st)) end.

(** ** The auto-advance run *)

Section Run.
Context {Cb : Type}.
Implicit Types (cb : Cb).

Lemma carousel_mount_empty cb t0 h :
  carousel_mount cb (Sched t0 h []) = (h, interval_sched t0 (S h) h cb 0).
Proof.
  unfold carousel_mount, setInterval, schedule, interval_sched.
  cbn [now next_id pending app].
  rewrite Nat.mul_0_r, Nat.add_0_r, Nat.mul_1_r. reflexivity.
Qed.

Lemma fire_interval_sched t0 nxt timer cb j :
  fire (interval_sched t0 nxt timer cb j) =
  Some (Timer timer (t0 + interval_ms * S j) (Some interval_ms) cb,
        interval_sched t0 nxt timer cb (S j)).
Proof.
  unfold interval_sched. rewrite fire_single by lia.
  rewrite (Nat.mul_succ_r interval_ms (S j)), Nat.add_assoc. reflexivity.
Qed.

Lemma carousel_step_advance len t0 timer cb j :
  S j < len ->
  carousel_step len timer (Carousel j false, interval_sched t0 (S timer) timer cb j) =
  Some (Carousel (S j) false, interval_sched t0 (S timer) timer cb (S j)).
Proof.
  intros H. unfold carousel_step. rewrite fire_interval_sched. simpl t_id.
  rewrite Nat.eqb_refl. unfold carousel_tick; simpl.
  destruct (Nat.leb_spec len (j + 1)); [lia|]. rewrite Nat.add_1_r. reflexivity.
Qed.

Lemma carousel_step_exhaust len t0 timer cb j :
  len <= S j ->
  carousel_step len timer (Carousel j false, interval_sched t0 (S timer) timer cb j) =
  Some (Carousel j true, Sched (t0 + interval_ms * S j) (S timer) []).
Proof.
  intros H. unfold carousel_step. rewrite fire_interval_sched. simpl t_id.
  rewrite Nat.eqb_refl. unfold carousel_tick; simpl.
  destruct (Nat.leb_spec len (j + 1)); [|lia].
  unfold clearTimer, interval_sched; simpl. rewrite Nat.eqb_refl. reflexivity.
Qed.

Lemma carousel_run_add m n len timer (st : carousel * sched Cb) :
  carousel_run (m + n) len timer st =
  match carousel_run m len timer st with
  | Some st' => carousel_run n len timer st'
  | None => None
  end.
Proof.
  revert st; induction m as [|m IH]; intros st; simpl; [reflexivity|].
  destruct (carousel_step len timer st); [apply IH|reflexivity].
Qed.

Lemma carousel_run_advance len t0 timer cb k j :
  k + j < Nat.max 1 len ->
  carousel_run j len timer (Carousel k false, interval_sched t0 (S timer) timer cb k) =
  Some (Carousel (k + j) false, interval_sched t0 (S timer) timer cb (k + j)).
Proof.
  revert k; induction j as [|j IH]; intros k H; cbn [carousel_run].
  - rewrite Nat.add_0_r. reflexivity.
  - rewrite carousel_step_advance by lia. rewrite IH by lia.
    rewrite Nat.add_succ_r. reflexivity.
Qed.

(** C10. Auto-advance: mounted at time [t0] on an empty timer queue, the
    carousel shows photo [j] from [t0 + 3000 j] on, for every photo but the
    last; the tick at [t0 + 3000 max(1, N)] (N photos) finds no next photo,
    keeps the last index, shows the continue button and clears the
    interval, after which the scene's event loop has nothing left to run:
    exactly [N - 1] advances, then one terminal tick. *)
Theorem carousel_auto_advance len t0 h cb :
  carousel_mount cb (Sched t0 h []) = (h, interval_sched t0 (S h) h cb 0) /\
  (forall j, j < Nat.max 1 len ->
     carousel_run j len h (carousel_init, interval_sched t0 (S h) h cb 0) =
     Some (Carousel j false, interval_sched t0 (S h) h cb j)) /\
  carousel_run (Nat.max 1 len) len h (carousel_init, interval_sched t0 (S h) h cb 0) =
     Some (Carousel (len - 1) true, Sched (t0 + interval_ms * Nat.max 1 len) (S h) []) /\
  carousel_step len h (Carousel (len - 1) true,
                       (Sched (t0 + interval_ms * Nat.max 1 len) (S h) [] : sched Cb))
     = None.
Proof.
  split; [apply carousel_mount_empty|]. split; [|split].
  - intros j Hj. exact (carousel_run_advance len t0 h cb 0 j Hj).
  - unfold carousel_init.
    replace (Nat.max 1 len) with (Nat.max 1 len - 1 + 1) at 1 by lia.
    rewrite carousel_run_add, carousel_run_advance by lia.
    cbn [carousel_run]. rewrite Nat.add_0_l.
    rewrite carousel_step_exhaust by lia. cbn [carousel_run].
    replace (Nat.max 1 len - 1) with (len - 1) by lia.
    replace (S (len - 1)) with (Nat.max 1 len) by lia. reflexivity.
  - reflexivity.
Qed.
End Run.

(** ** The render *)

(** A card's frame depends only on its offset from the current photo. *)
Lemma carousel_frame_ahead ci k : carousel_frame ci (ci + k) = carousel_frame 0 k.
Proof.
  unfold carousel_frame.
  replace (ci + k =? ci) with (k =? 0) by (destruct (Nat.eqb_spec k 0), (Nat.eqb_spec (ci + k) ci); lia).
  replace (ci + k <? ci) with (k <? 0) by (destruct (Nat.ltb_spec k 0), (Nat.ltb_spec (ci + k) ci); lia).
  replace (Z.of_nat (ci + k) - Z.of_nat ci)%Z with (Z.of_nat k - Z.of_nat 0)%Z by lia.
  reflexivity.
Qed.

Lemma carousel_frame_past ci i : i < ci -> carousel_frame ci i = None.
Proof. intros H. unfold carousel_frame. destruct (Nat.ltb_spec i ci); [reflexivity|lia]. Qed.

Lemma carousel_frame_rendered ci i :
  carousel_frame ci i <> None <-> ci <= i < ci + 3.
Proof.
  unfold carousel_frame. destruct (Nat.ltb_spec i ci); simpl; [split; [congruence|lia]|].
  destruct (Z.leb_spec (Z.abs (Z.of_nat i - Z.of_nat ci)) 2); split;
    solve [congruence | lia].
Qed.

Lemma carousel_cards_indices (ps : list photo) ci k :
  map (fun '(i, _, _) => i)
      (flat_map (fun '(i, ph) => match carousel_frame ci i with
                                 | Some f => [(i, ph, f)] | None => [] end)
                (combine (seq k (List.length ps)) ps) : list (nat * photo * frame)) =
  List.filter (fun i => match carousel_frame ci i with Some _ => true | None => false end)
              (seq k (List.length ps)).
Proof.
  revert k; induction ps as [|ph ps IH]; intros k; simpl; [reflexivity|].
  destruct (carousel_frame ci k); simpl; rewrite IH; reflexivity.
Qed.

(** C12. The render window: with the current photo at [ci], the carousel
    renders exactly the photos [ci], [ci + 1], [ci + 2] that exist, in
    order: never a photo before the current one, never more than three
    cards, however many photos there are. *)
Theorem carousel_cards_window ps ci :
  ci <= List.length ps ->
  map (fun '(i, _, _) => i) (carousel_cards ps ci) = seq ci (Nat.min 3 (List.length ps - ci)).
Proof.
  intros Hle. unfold carousel_cards. rewrite carousel_cards_indices.
  replace (Nat.min 3 (List.length ps - ci))
    with (Nat.min (ci + 3 - ci) (List.length ps - ci)) by (f_equal; lia).
  rewrite <- (filter_seq_window ci (ci + 3) (List.length ps) Hle).
  apply filter_ext. intros i.
  pose proof (carousel_frame_rendered ci i) as Hr.
  destruct (carousel_frame ci i) as [f|].
  - assert (H : ci <= i < ci + 3) by (apply Hr; discriminate).
    destruct (Nat.leb_spec ci i), (Nat.ltb_spec i (ci + 3)); simpl; (reflexivity || lia).
  - assert (H : ~ (ci <= i < ci + 3)) by (intros H; apply Hr in H; apply H; reflexivity).
    destruct (Nat.leb_spec ci i), (Nat.ltb_spec i (ci + 3)); simpl; (reflexivity || lia).
Qed.

(** C13. Cards further from the current photo are drawn smaller, further
    back and below it: along the window, [scale] strictly decreases
    (1, 0.75, 0.65), so do [zIndex] and the depth [z], the opacity never
    increases, and every rendered card has a positive scale. *)
Theorem carousel_depth_order ci i j fi fj :
  i < j -> carousel_frame ci i = Some fi -> carousel_frame ci j = Some fj ->
  (f_scale fj < f_scale fi)%Q /\ (f_zIndex fj < f_zIndex fi)%Z /\ (f_z fj < f_z fi)%Z /\
  (f_opacity fj <= f_opacity fi)%Q /\ (0 < f_scale fj)%Q.
Proof.
  intros Hij Hi Hj.
  assert (Ri : ci <= i < ci + 3) by (apply carousel_frame_rendered; congruence).
  assert (Rj : ci <= j < ci + 3) by (apply carousel_frame_rendered; congruence).
  replace i with (ci + (i - ci)) in Hi by lia. replace j with (ci + (j - ci)) in Hj by lia.
  rewrite carousel_frame_ahead in Hi, Hj.
  destruct (i - ci) as [|[|[|a]]] eqn:Ea; destruct (j - ci) as [|[|[|b]]] eqn:Eb;
    try lia; vm_compute in Hi, Hj; injection Hi as <-; injection Hj as <-;
    vm_compute; repeat split; first [reflexivity | discriminate].
Qed.

(** C14. The progress dots: one dot per photo, exactly one of them wide
    (24 instead of 8) and glowing, the current one, and exactly the
    [ci + 1] dots up to the current photo filled. *)
Theorem progress_dots_spec len ci :
  ci < len ->
  List.length (progress_dots len ci) = len /\
  List.length (List.filter d_glow (progress_dots len ci)) = 1 /\
  List.length (List.filter d_filled (progress_dots len ci)) = S ci /\
  (forall d, In d (progress_dots len ci) -> d_width d = if d_glow d then 24 else 8).
Proof.
  intros H. unfold progress_dots. split; [|split; [|split]].
  - rewrite length_map, length_seq. reflexivity.
  - rewrite length_filter_map. simpl.
    rewrite (filter_ext (fun i => i =? ci) (fun i => (ci <=? i) && (i <? ci + 1))).
    + rewrite filter_seq_window by lia. rewrite length_seq. lia.
    + intros i. destruct (Nat.eqb_spec i ci), (Nat.leb_spec ci i), (Nat.ltb_spec i (ci + 1));
        simpl; (reflexivity || lia).
  - rewrite length_filter_map. simpl.
    rewrite (filter_ext (fun i => i <=? ci) (fun i => (0 <=? i) && (i <? S ci))).
    + rewrite filter_seq_window by lia. rewrite length_seq. lia.
    + intros i. destruct (Nat.leb_spec i ci), (Nat.ltb_spec i (S ci)); simpl; (reflexivity || lia).
  - intros d Hd. apply in_map_iff in Hd as (i & <- & _). simpl.
    destruct (i =? ci); reflexivity.
Qed.

(** The carousel's invariant holds at mount and after every tick; a
    tick never moves back, and once the continue button shows it stays. *)
Theorem carousel_tick_inv {Cb} len timer c (s : sched Cb) :
  carousel_inv len carousel_init /\
  (carousel_inv len c ->
   let c' := fst (carousel_tick len timer c s) in
   carousel_inv len c' /\ currentIndex c <= currentIndex c' /\
   (showContinue c = true -> showContinue c' = true)).
Proof.
  split; [unfold carousel_inv, carousel_init; cbn [currentIndex showContinue];
          split; [lia|discriminate]|].
  intros [Hlt Hsc]. unfold carousel_tick, carousel_inv.
  destruct (Nat.leb_spec len (currentIndex c + 1)); cbn [currentIndex showContinue fst].
  - repeat split; auto; lia.
  - destruct (showContinue c) eqn:E; [specialize (Hsc eq_refl); lia|].
    repeat split; try lia; discriminate.
Qed.

(** ** Termination of the interval *)

(** A turn of the event loop keeps the queue an [interval_state] and
    decreases the measure: each tick moves to the next photo or clears
    the interval. *)
Lemma carousel_step_measure {Cb} len h (st st' : carousel * sched Cb) :
  interval_state h (snd st) -> carousel_step len h st = Some st' ->
  interval_state h (snd st') /\ carousel_measure len st' < carousel_measure len st.
Proof.
  destruct st as [c [now0 nxt pend]]; cbn [snd].
  intros [Hp|(due & cb & Hle & Hp)]; cbn [pending now] in *; subst pend.
  - unfold carousel_step. rewrite (proj2 (fire_none (Sched now0 nxt [])) eq_refl). discriminate.
  - unfold carousel_step. rewrite fire_single by exact Hle. cbn [t_id]. rewrite Nat.eqb_refl.
    unfold carousel_tick, carousel_measure; cbn [fst snd pending].
    destruct (Nat.leb_spec len (currentIndex c + 1)) as [Hend|Hnext];
      intros H; injection H as <-; cbn [fst snd pending currentIndex].
    + unfold clearTimer; cbn [pending List.filter t_id]. rewrite Nat.eqb_refl; cbn [negb].
      split; [left; reflexivity|lia].
    + split; [right; exists (due + interval_ms), cb; cbn [now]; split; [lia|reflexivity]|lia].
Qed.

(** C11. The interval stops: from any state of the scene whose queue
    holds its interval (due no earlier than now) or nothing, whatever
    the index, the event loop can only turn finitely many times: there
    is no infinite run of ticks, since every tick either advances to the
    next photo or, at the last one, clears the interval. *)
Theorem carousel_interval_terminates {Cb} len h (st : carousel * sched Cb) :
  interval_state h (snd st) -> Acc (fun y x => carousel_step len h x = Some y) st.
Proof.
  remember (carousel_measure len st) as n eqn:En. revert st En.
  induction n as [n IH] using (well_founded_induction lt_wf).
  intros st En Hst. constructor. intros st' Hstep.
  destruct (carousel_step_measure len h st st' Hst Hstep) as [Hst' Hlt].
  apply (IH (carousel_measure len st')); [lia|reflexivity|exact Hst'].
Qed.

(** ** Cancellation at unmount *)

Lemma carousel_step_next_id {Cb} len timer (st st' : carousel * sched Cb) :
  carousel_step len timer st = Some st' -> next_id (snd st') = next_id (snd st).
Proof.
  destruct st as [c s]. unfold carousel_step.
  destruct (fire s) as [[t s1]|] eqn:Hf; [|discriminate].
  pose proof (fire_next_id _ _ _ Hf) as Hn.
  unfold carousel_tick. bool_cases; intros H; injection H as <-; exact Hn.
Qed.

Lemma carousel_run_next_id {Cb} n len timer (st st' : carousel * sched Cb) :
  carousel_run n len timer st = Some st' -> next_id (snd st') = next_id (snd st).
Proof.
  revert st; induction n as [|n IH]; intros st; cbn [carousel_run].
  - intros H; injection H as <-; reflexivity.
  - destruct (carousel_step len timer st) as [st1|] eqn:E; [|discriminate].
    intros H. rewrite (IH _ H). exact (carousel_step_next_id _ _ _ _ E).
Qed.

(** C4. Cancellation is final: however long the carousel has run since
    its mount, once its cleanup has cleared the interval, no later step of
    the event loop (timers armed, cleared or fired, time passing) ever
    fires the carousel's tick again. *)
Theorem carousel_unmount_silences {Cb} len t0 h (cb : Cb) n c s s' s'' t :
  carousel_run n len h (carousel_init, interval_sched t0 (S h) h cb 0) = Some (c, s) ->
  star sched_step_any (carousel_unmount h s) s' ->
  sched_step s' (Some t) s'' ->
  t_id t <> h.
Proof.
  intros Hrun. apply cleared_timer_never_fires.
  pose proof (carousel_run_next_id _ _ _ _ _ Hrun) as Hn. simpl in Hn. rewrite Hn. lia.
Qed.

(** ** Witnesses on App's thirteen photos *)

(** Two ticks, then the unmount; another component arms a 100 ms
    timeout, and the event loop fires it: that timer is not the carousel's
    interval. *)
Lemma carousel_unmount_silences_witness :
  let s := interval_sched 0 2 1 tt 2 in
  let s' := snd (schedule None tt 100 (carousel_unmount 1 s)) in
  carousel_run 2 13 1 (carousel_init, interval_sched 0 2 1 tt 0) = Some (Carousel 2 false, s) /\
  star sched_step_any (carousel_unmount 1 s) s' /\
  sched_step s' (Some (Timer 2 (interval_ms * 2 + 100) None tt)) (Sched (interval_ms * 2 + 100) 3 []) /\
  t_id (Timer 2 (interval_ms * 2 + 100) None tt) <> 1.
Proof.
  cbv zeta.
  assert (Hrun : carousel_run 2 13 1 (carousel_init, interval_sched 0 2 1 tt 0) =
                   Some (Carousel 2 false, interval_sched 0 2 1 tt 2)) by (vm_compute; reflexivity).
  assert (Hstar : star sched_step_any (carousel_unmount 1 (interval_sched 0 2 1 tt 2))
                    (snd (schedule None tt 100 (carousel_unmount 1 (interval_sched 0 2 1 tt 2)))))
    by (apply star_one; exists None; apply ss_schedule).
  assert (Hfire : sched_step (snd (schedule None tt 100 (carousel_unmount 1 (interval_sched 0 2 1 tt 2))))
                    (Some (Timer 2 (interval_ms * 2 + 100) None tt)) (Sched (interval_ms * 2 + 100) 3 []))
    by (apply ss_fire; vm_compute; reflexivity).
  split; [exact Hrun|split; [exact Hstar|split; [exact Hfire|]]].
  exact (carousel_unmount_silences 13 0 1 tt 2 _ _ _ _ _ Hrun Hstar Hfire).
Defined.

Lemma carousel_auto_advance_witness :
  carousel_run (Nat.max 1 13) 13 1 (carousel_init, interval_sched 0 2 1 tt 0) =
  Some (Carousel 12 true, Sched (0 + interval_ms * 13) 2 []).
Proof. exact (proj1 (proj2 (proj2 (carousel_auto_advance 13 0 1 tt)))). Defined.

Lemma carousel_cards_window_witness :
  11 <= List.length photos /\
  map (fun '(i, _, _) => i) (carousel_cards photos 11) = [11; 12].
Proof.
  split; [simpl; lia|].
  rewrite (carousel_cards_window photos 11) by (simpl; lia). reflexivity.
Defined.

Lemma carousel_depth_order_witness :
  exists fi fj, carousel_frame 4 4 = Some fi /\ carousel_frame 4 6 = Some fj /\
    (f_scale fj < f_scale fi)%Q /\ (f_zIndex fj < f_zIndex fi)%Z /\ (f_z fj < f_z fi)%Z /\
    (f_opacity fj <= f_opacity fi)%Q /\ (0 < f_scale fj)%Q.
Proof.
  eexists; eexists; split; [reflexivity|split; [reflexivity|]].
  apply (carousel_depth_order 4 4 6); [lia|reflexivity|reflexivity].
Defined.

Lemma progress_dots_spec_witness :
  5 < 13 /\ List.length (List.filter d_filled (progress_dots 13 5)) = 6.
Proof. split; [lia|exact (proj1 (proj2 (proj2 (progress_dots_spec 13 5 ltac:(lia)))))]. Defined.

Lemma carousel_tick_inv_witness :
  carousel_inv 13 (Carousel 11 false) /\
  carousel_inv 13 (fst (carousel_tick 13 1 (Carousel 11 false) (@sched_init unit))).
Proof.
  assert (H : carousel_inv 13 (Carousel 11 false))
    by (unfold carousel_inv; cbn [currentIndex showContinue]; split; [lia|discriminate]).
  split; [exact H|].
  exact (proj1 (proj2 (carousel_tick_inv 13 1 (Carousel 11 false) (@sched_init unit)) H)).
Defined.

Lemma carousel_interval_terminates_witness :
  interval_state 1 (snd (carousel_init, interval_sched 0 2 1 tt 0)) /\
  Acc (fun y x => carousel_step 13 1 x = Some y) (carousel_init, interval_sched 0 2 1 tt 0).
Proof.
  assert (H : interval_state 1 (snd (carousel_init, interval_sched 0 2 1 tt 0))).
  { right. exists (0 + interval_ms * 1), tt. split; [cbn; lia|reflexivity]. }
  split; [exact H|exact (carousel_interval_terminates 13 1 _ H)].
Defined.
