(* ===== verification/GiftBox.v ===== *)
(** * Scene3GiftBox: the tap-to-open gift

    State: [isOpening] and [isOpened] (lines 10-11).  [handleTap] (lines
    13-25) returns at once when the box is opening or opened; otherwise it
    sets [isOpening] and arms a 2 s timeout whose closure sets [isOpened]
    and arms a second 2 s timeout that calls [onComplete].  Neither timeout
    is cleared at unmount.  The render (lines 27-299) shows the "Tap the
    gift" text while the box is closed, plays the ribbon, bow and lid
    animations once it is opening, and the light burst, a ring of 30
    particles (gold and orange in turn) and 50 sparkles once it is opened.

    The scene on its own is the system [gift_sys]: the gift's state, the
    timer queue (holding only the gift's two closures) and the number of
    [onComplete] calls so far, driven by taps and timer firings. *)

From Stdlib Require Import List Lia Arith.
From S2P Require Import Prelude Timers.
Import ListNotations.
Local Open Scope bool_scope.

Record gift := Gift { isOpening : bool; isOpened : bool }.

Definition gift_init : gift := Gift false false.

(** The two timeout closures of [handleTap]. *)
Inductive gift_cb := GiftOpened | GiftDone.

Definition gift_cb_eqb (a b : gift_cb) : bool :=
  match a, b with
  | GiftOpened, GiftOpened | GiftDone, GiftDone => true
  | _, _ => false
  end.

Definition ribbon_ms : nat := 2000.
Definition explosion_ms : nat := 2000.

Section Handlers.
Context {Cb : Type} (inj : gift_cb -> Cb).

(** [handleTap]. *)
Definition handleTap (g : gift) (s : sched Cb) : gift * sched Cb :=
  if isOpening g || isOpened g then (g, s)
  else (Gift true (isOpened g), snd (setTimeout (inj GiftOpened) ribbon_ms s)).

(** The timeout closures; the boolean is [true] when [onComplete()] is
    called. *)
Definition gift_timer (c : gift_cb) (g : gift) (s : sched Cb) : gift * sched Cb * bool :=
  match c with
  | GiftOpened => (Gift (isOpening g) true, snd (setTimeout (inj GiftDone) explosion_ms s), false)
  | GiftDone => (g, s, true)
  end.
End Handlers.

(** ** The render *)

Inductive particle_color := Gold | Orange.

Record gift_view := GiftView {
  v_instruction : bool;      (* "Tap the gift" (lines 73-89) *)
  v_unwrapping : bool;       (* ribbon, bow and lid animations (lines 150-230) *)
  v_explosion : bool;        (* light burst, particles, sparkles (lines 233-285) *)
  v_particles : list (nat * particle_color)   (* index and colour of each particle *)
}.

(** The particle ring: [[...Array(30)].map((_, i) => ...)], [i % 2 === 0 ?
    "#FFD700" : "#FFA500"]; their directions [(i / 30) * 2 pi] are in
    Layout. *)
Definition gift_particles : list (nat * particle_color) :=
  map (fun i => (i, if i mod 2 =? 0 then Gold else Orange)) (seq 0 30).

Definition render_gift (g : gift) : gift_view :=
  GiftView (negb (isOpening g)) (isOpening g) (isOpened g)
           (if isOpened g then gift_particles else []).

(** ** The scene on its own *)

Inductive gift_event := GTap | GFire.

(** gift state, timer queue, number of [onComplete] calls *)
Definition gift_sys : Type := (gift * sched gift_cb * nat)%type.

Definition gift_sys_init (t0 : nat) : gift_sys := (gift_init, Sched t0 1 [], 0).

Definition gift_sys_step (e : gift_event) (st : gift_sys) : gift_sys :=
  let '(g, s, k) := st in
  match e with
  | GTap => let '(g', s') := handleTap id g s in (g', s', k)
  | GFire =>
      match fire s with
      | Some (t, s') =>
          let '(g', s'', c) := gift_timer id (t_cb t) g s' in
          (g', s'', if c then S k else k)
      | None => st
      end
  end.

Definition gift_run (es : list gift_event) (st : gift_sys) : gift_sys :=
  fold_left (fun st e => gift_sys_step e st) es st.

(** The number of pending closures of each kind. *)
Definition n_pending (c : gift_cb) (s : sched gift_cb) : nat :=
  length (List.filter (fun t => gift_cb_eqb (t_cb t) c) (pending s)).

(** The invariant: before the first tap nothing is pending; after it,
    exactly one of "ribbon timeout pending", "explosion timeout pending",
    "onComplete called" holds. *)
Definition gift_inv (st : gift_sys) : Prop :=
  let '(g, s, k) := st in
  sched_wf s /\ Forall (fun t => t_period t = None) (pending s) /\
  if isOpening g
  then n_pending GiftOpened s + n_pending GiftDone s + k = 1 /\
       (isOpened g = true -> n_pending GiftOpened s = 0) /\
       (isOpened g = false -> n_pending GiftDone s = 0 /\ k = 0)
  else isOpened g = false /\ n_pending GiftOpened s + n_pending GiftDone s + k = 0.

(** ** Theorems *)

Lemma handleTap_guard {Cb} (inj : gift_cb -> Cb) g s :
  isOpening g || isOpened g = true -> handleTap inj g s = (g, s).
Proof. intros H. unfold handleTap. rewrite H. reflexivity. Qed.

Lemma gift_inv_init t0 : gift_inv (gift_sys_init t0).
Proof.
  unfold gift_inv, gift_sys_init, gift_init; simpl.
  split; [split; constructor|split; [constructor|]]. split; reflexivity.
Qed.

Lemma n_pending_schedule c c' d (s : sched gift_cb) :
  n_pending c (snd (setTimeout c' d s)) =
  n_pending c s + (if gift_cb_eqb c' c then 1 else 0).
Proof. unfold n_pending, setTimeout. rewrite schedule_count. reflexivity. Qed.

Lemma n_pending_fire c s t s' :
  sched_wf s -> fire s = Some (t, s') -> t_period t = None ->
  n_pending c s' + (if gift_cb_eqb (t_cb t) c then 1 else 0) = n_pending c s.
Proof. intros. unfold n_pending. apply (fire_timeout_count (fun u => gift_cb_eqb (t_cb u) c)); assumption. Qed.

Lemma timeouts_schedule c d (s : sched gift_cb) :
  Forall (fun t => t_period t = None) (pending s) ->
  Forall (fun t => t_period t = None) (pending (snd (setTimeout c d s))).
Proof. intros H. simpl. apply Forall_app; split; [exact H|repeat constructor]. Qed.

Lemma timeouts_fire (s : sched gift_cb) t s' :
  Forall (fun t => t_period t = None) (pending s) -> fire s = Some (t, s') ->
  t_period t = None /\ Forall (fun t => t_period t = None) (pending s').
Proof.
  intros H Hf. pose proof (fire_earliest _ _ _ Hf) as [Hin _].
  rewrite Forall_forall in H. split; [exact (H _ Hin)|].
  rewrite Forall_forall. intros u Hu.
  apply (fire_pending _ _ _ _ Hf) in Hu as [[Hu _]|(p & Hp & _)]; [exact (H _ Hu)|].
  rewrite (H _ Hin) in Hp. discriminate.
Qed.

Lemma gift_inv_step e st : gift_inv st -> gift_inv (gift_sys_step e st).
Proof.
  destruct st as [[[op od] s] k]. unfold gift_inv. intros (Hwf & Hto & Hc).
  destruct e; cbn [gift_sys_step].
  - unfold handleTap; cbn [isOpening isOpened].
    destruct op, od; cbn [orb isOpening isOpened]; try (split; [|split]; assumption).
    destruct Hc as [_ Hc].
    split; [apply schedule_wf; exact Hwf|split; [apply timeouts_schedule; exact Hto|]].
    rewrite !n_pending_schedule. simpl. repeat split; intros; try discriminate; lia.
  - destruct (fire s) as [[t s']|] eqn:Hf; [|split; [exact Hwf|split; assumption]].
    destruct (timeouts_fire _ _ _ Hto Hf) as [Hper Hto'].
    pose proof (n_pending_fire GiftOpened _ _ _ Hwf Hf Hper) as Ho.
    pose proof (n_pending_fire GiftDone _ _ _ Hwf Hf Hper) as Hd.
    pose proof (fire_wf _ _ _ Hwf Hf) as Hwf'.
    destruct (t_cb t); cbn [gift_timer gift_cb_eqb isOpening isOpened id] in Ho, Hd |- *.
    + split; [apply schedule_wf; exact Hwf'|split; [apply timeouts_schedule; exact Hto'|]].
      rewrite !n_pending_schedule; simpl.
      destruct op; [|destruct Hc; lia].
      destruct Hc as (Hsum & Hopd & Hnopd). destruct od.
      * specialize (Hopd eq_refl). lia.
      * destruct (Hnopd eq_refl). repeat split; intros; try discriminate; lia.
    + split; [exact Hwf'|split; [exact Hto'|]].
      destruct op; [|destruct Hc; lia].
      destruct Hc as (Hsum & Hopd & Hnopd). destruct od.
      * specialize (Hopd eq_refl). repeat split; intros; try discriminate; lia.
      * destruct (Hnopd eq_refl). lia.
Qed.

Lemma gift_run_inv es st : gift_inv st -> gift_inv (gift_run es st).
Proof.
  revert st; induction es as [|e es IH]; intros st H; simpl; [exact H|].
  apply IH, gift_inv_step, H.
Qed.

(** The invariant bounds the number of [onComplete] calls by one. *)
Lemma gift_inv_count st : gift_inv st -> let '(_, _, k) := st in k <= 1.
Proof.
  destruct st as [[[op od] s] k]. intros (_ & _ & Hc). cbn [isOpening] in Hc.
  destruct op; destruct Hc as [Hc1 Hc2]; lia.
Qed.

(** Idempotent completion: whatever sequence of taps (double taps
    included) and timer firings the gift receives, it calls [onComplete]
    at most once. *)
Theorem gift_completes_at_most_once es t0 :
  let '(_, _, k) := gift_run es (gift_sys_init t0) in k <= 1.
Proof. apply gift_inv_count, gift_run_inv, gift_inv_init. Qed.

Lemma gift_run_app es1 es2 st : gift_run (es1 ++ es2) st = gift_run es2 (gift_run es1 st).
Proof. apply fold_left_app. Qed.

Lemma gift_run_single e st : gift_run [e] st = gift_sys_step e st.
Proof. reflexivity. Qed.

Lemma gift_run_taps n g s k :
  isOpening g = true -> gift_run (repeat GTap n) (g, s, k) = (g, s, k).
Proof.
  intros H. induction n as [|n IH]; [reflexivity|]. simpl.
  rewrite handleTap_guard by (rewrite H; reflexivity). exact IH.
Qed.

(** C15. The gift's sequence: the first tap at [t0] starts the unwrapping,
    the box is opened at [t0 + 2000] and [onComplete] is called at
    [t0 + 4000], once, whatever taps arrive in between; afterwards nothing
    is pending and further firings change nothing. *)
Theorem gift_sequence t0 a b :
  gift_run ([GTap] ++ repeat GTap a ++ [GFire] ++ repeat GTap b ++ [GFire]) (gift_sys_init t0) =
  (Gift true true, Sched (t0 + ribbon_ms + explosion_ms) 3 [], 1) /\
  gift_sys_step GFire (Gift true true, Sched (t0 + ribbon_ms + explosion_ms) 3 [], 1) =
  (Gift true true, Sched (t0 + ribbon_ms + explosion_ms) 3 [], 1).
Proof.
  split; [|reflexivity].
  assert (H1 : gift_run [GTap] (gift_sys_init t0) =
               (Gift true false, Sched t0 2 [Timer 1 (t0 + ribbon_ms) None GiftOpened], 0))
    by reflexivity.
  assert (H2 : gift_sys_step GFire
                 (Gift true false, Sched t0 2 [Timer 1 (t0 + ribbon_ms) None GiftOpened], 0) =
               (Gift true true,
                Sched (t0 + ribbon_ms) 3 [Timer 2 (t0 + ribbon_ms + explosion_ms) None GiftDone], 0))
    by (cbn [gift_sys_step]; rewrite fire_single_timeout by lia; reflexivity).
  assert (H3 : gift_sys_step GFire
                 (Gift true true,
                  Sched (t0 + ribbon_ms) 3 [Timer 2 (t0 + ribbon_ms + explosion_ms) None GiftDone], 0) =
               (Gift true true, Sched (t0 + ribbon_ms + explosion_ms) 3 [], 1))
    by (cbn [gift_sys_step]; rewrite fire_single_timeout by lia; reflexivity).
  rewrite !gift_run_app, H1, gift_run_taps by reflexivity.
  rewrite !gift_run_single, H2, gift_run_taps by reflexivity. exact H3.
Qed.

(** A double tap, then both timeouts: one [onComplete]. *)
Lemma gift_double_tap_once :
  let '(_, _, k) := gift_run [GTap; GTap; GFire; GFire] (gift_sys_init 0) in k = 1.
Proof. vm_compute. reflexivity. Qed.
