(* ===== verification/Shell.v ===== *)
(** * The presentation shell: long press and the hidden easter egg

    App.tsx keeps [showEasterEgg] and [longPressTimer] in state.
    [handleTouchStart] (touch start and mouse down) arms a 3 s timeout that
    sets [showEasterEgg] and stores its handle; [handleTouchEnd] (touch end,
    mouse up, mouse leave) clears the stored handle, if any, and resets it.
    An effect on [[longPressTimer]] clears the previous handle whenever the
    state changes.  HiddenEasterEgg receives [isActive = showEasterEgg] and
    [onDismiss = () => setShowEasterEgg(false)]; its effect on
    [[isActive, onDismiss]] arms a 5 s timeout calling [onDismiss] while
    active and clears it in its cleanup.

    React re-renders App after a state change (a [setState] with the same
    value bails out), and after every render of App, HiddenEasterEgg's
    effect runs again: [onDismiss] is a new arrow function at each render.
    [shell_commit] models that commit: cleanups with the previous values,
    then the effects with the new ones.  [rerender] is the same commit when
    App re-renders for another reason (a scene change). *)

From Stdlib Require Import List Lia Arith.
From S2P Require Import Prelude Timers.
Import ListNotations.
Local Open Scope bool_scope.

Record shell := Shell {
  showEasterEgg : bool;
  longPressTimer : option nat;
  eggTimer : option nat      (* the handle HiddenEasterEgg's effect armed *)
}.

Definition shell_init : shell := Shell false None None.

(** The two timeout closures. *)
Inductive shell_cb := LongPressFired | EggDismiss.

Definition shell_cb_eqb (a b : shell_cb) : bool :=
  match a, b with
  | LongPressFired, LongPressFired | EggDismiss, EggDismiss => true
  | _, _ => false
  end.

Definition long_press_ms : nat := 3000.
Definition egg_ms : nat := 5000.

Definition opt_eqb (a b : option nat) : bool :=
  match a, b with
  | Some x, Some y => x =? y
  | None, None => true
  | _, _ => false
  end.

Section Handlers.
Context {Cb : Type} (inj : shell_cb -> Cb).

Definition clear_opt (o : option nat) (s : sched Cb) : sched Cb :=
  match o with Some t => clearTimer t s | None => s end.

(** The commit after App rendered with [(show, lpt)], the previous commit
    having left [old]. *)
Definition shell_commit (old : shell) (show : bool) (lpt : option nat) (s : sched Cb)
    : shell * sched Cb :=
  (* cleanups: HiddenEasterEgg's (its deps changed: onDismiss is new), then
     App's when [longPressTimer] changed *)
  let s1 := clear_opt (eggTimer old) s in
  let s2 := if opt_eqb (longPressTimer old) lpt then s1 else clear_opt (longPressTimer old) s1 in
  (* effects: HiddenEasterEgg arms its timeout while active *)
  if show
  then let '(t, s3) := setTimeout (inj EggDismiss) egg_ms s2 in (Shell show lpt (Some t), s3)
  else (Shell show lpt None, s2).

(** A state update of App: re-render and commit unless React bails out. *)
Definition set_app (old : shell) (show : bool) (lpt : option nat) (s : sched Cb)
    : shell * sched Cb :=
  if Bool.eqb show (showEasterEgg old) && opt_eqb lpt (longPressTimer old)
  then (old, s)
  else shell_commit old show lpt s.

(** App re-rendered because another part of its state changed. *)
Definition rerender (old : shell) (s : sched Cb) : shell * sched Cb :=
  shell_commit old (showEasterEgg old) (longPressTimer old) s.

(** [handleTouchStart]. *)
Definition handleTouchStart (sh : shell) (s : sched Cb) : shell * sched Cb :=
  let '(timer, s1) := setTimeout (inj LongPressFired) long_press_ms s in
  set_app sh (showEasterEgg sh) (Some timer) s1.

(** [handleTouchEnd]. *)
Definition handleTouchEnd (sh : shell) (s : sched Cb) : shell * sched Cb :=
  match longPressTimer sh with
  | Some t => set_app sh (showEasterEgg sh) None (clearTimer t s)
  | None => (sh, s)
  end.

(** The timeout closures: [setShowEasterEgg(true)] and [onDismiss()]. *)
Definition shell_timer (c : shell_cb) (sh : shell) (s : sched Cb) : shell * sched Cb :=
  match c with
  | LongPressFired => set_app sh true (longPressTimer sh) s
  | EggDismiss => set_app sh false (longPressTimer sh) s
  end.
End Handlers.

(** ** The shell on its own *)

Inductive shell_event :=
| ETouchStart
| ETouchEnd
| EFire
| EWait (d : nat)
| ERender.            (* App re-renders for a scene change *)

Definition shell_sys : Type := (shell * sched shell_cb)%type.

Definition shell_step (e : shell_event) (st : shell_sys) : shell_sys :=
  let '(sh, s) := st in
  match e with
  | ETouchStart => handleTouchStart id sh s
  | ETouchEnd => handleTouchEnd id sh s
  | EFire => match fire s with
             | Some (t, s') => shell_timer id (t_cb t) sh s'
             | None => st
             end
  | EWait d => if can_elapse d s then (sh, elapse d s) else st
  | ERender => rerender id sh s
  end.

Definition shell_run (es : list shell_event) (st : shell_sys) : shell_sys :=
  fold_left (fun st e => shell_step e st) es st.

(** The number of pending timeouts of one kind. *)
Definition n_shell (c : shell_cb) (s : sched shell_cb) : nat :=
  length (List.filter (fun t => shell_cb_eqb (t_cb t) c) (pending s)).

Definition timeouts_only (s : sched shell_cb) : Prop :=
  Forall (fun t => t_period t = None) (pending s).

Definition handle_lt (o : option nat) (n : nat) : Prop :=
  match o with Some x => x < n | None => True end.

(** The shell's invariant: every pending long-press timeout is the one
    [longPressTimer] names, every pending dismissal is the one
    HiddenEasterEgg's effect armed, and that dismissal is armed, and
    pending, exactly while the egg shows. *)
Definition shell_inv (st : shell_sys) : Prop :=
  let '(sh, s) := st in
  sched_wf s /\ timeouts_only s /\
  handle_lt (longPressTimer sh) (next_id s) /\ handle_lt (eggTimer sh) (next_id s) /\
  (forall u, In u (pending s) -> t_cb u = LongPressFired -> longPressTimer sh = Some (t_id u)) /\
  (forall u, In u (pending s) -> t_cb u = EggDismiss -> eggTimer sh = Some (t_id u)) /\
  (forall id, eggTimer sh = Some id ->
     exists u, In u (pending s) /\ t_id u = id /\ t_cb u = EggDismiss) /\
  (showEasterEgg sh = true <-> eggTimer sh <> None).

(** ** Theorems *)

Lemma in_clear_opt u o (s : sched shell_cb) :
  In u (pending (clear_opt o s)) <-> In u (pending s) /\ o <> Some (t_id u).
Proof.
  destruct o as [x|]; cbn [clear_opt]; [rewrite in_clearTimer|].
  - split; intros [H1 H2]; split; auto; congruence.
  - split; [intros H; split; [exact H|discriminate]|intros [H _]; exact H].
Qed.

Lemma clear_opt_next_id o (s : sched shell_cb) : next_id (clear_opt o s) = next_id s.
Proof. destruct o; reflexivity. Qed.

Lemma clear_opt_wf o (s : sched shell_cb) : sched_wf s -> sched_wf (clear_opt o s).
Proof. destruct o; cbn [clear_opt]; auto using clearTimer_wf. Qed.

Lemma clear_opt_timeouts o (s : sched shell_cb) : timeouts_only s -> timeouts_only (clear_opt o s).
Proof.
  unfold timeouts_only. rewrite !Forall_forall. intros H u Hu.
  apply in_clear_opt in Hu as [Hu _]. exact (H u Hu).
Qed.

Lemma timeouts_setTimeout c d (s : sched shell_cb) :
  timeouts_only s -> timeouts_only (snd (setTimeout c d s)).
Proof. unfold timeouts_only. intros H. simpl. apply Forall_app; split; [exact H|repeat constructor]. Qed.

Lemma handle_lt_mono o n m : handle_lt o n -> n <= m -> handle_lt o m.
Proof. destruct o; simpl; lia. Qed.

Lemma opt_eqb_refl o : opt_eqb o o = true.
Proof. destruct o; simpl; [apply Nat.eqb_refl|reflexivity]. Qed.

Lemma opt_eqb_true a b : opt_eqb a b = true -> a = b.
Proof. destruct a, b; simpl; try discriminate; [intros H; apply Nat.eqb_eq in H; congruence|auto]. Qed.

Lemma same_id_same_timer (l : list (timer shell_cb)) u v :
  List.NoDup (map t_id l) -> In u l -> In v l -> t_id u = t_id v -> u = v.
Proof.
  induction l as [|w l IH]; simpl; [intros _ []|].
  intros Hnd Hu Hv E. apply NoDup_cons_iff in Hnd as [Hn Hnd].
  destruct Hu as [<-|Hu], Hv as [<-|Hv]; auto.
  - exfalso. apply Hn. rewrite E. apply in_map. exact Hv.
  - exfalso. apply Hn. rewrite <- E. apply in_map. exact Hu.
Qed.

(** The cleanups of a commit: what is left pending is well formed, holds
    only timeouts, no dismissal, and no long-press timeout but the new
    handle's, given that the pending long-press timeouts are the new
    handle or the old one it replaces and the pending dismissals the one
    the previous effect armed. *)
Lemma shell_cleanup_inv old lpt (s : sched shell_cb) :
  sched_wf s -> timeouts_only s ->
  (forall u, In u (pending s) -> t_cb u = LongPressFired ->
     lpt = Some (t_id u) \/
     (opt_eqb (longPressTimer old) lpt = false /\ longPressTimer old = Some (t_id u))) ->
  (forall u, In u (pending s) -> t_cb u = EggDismiss -> eggTimer old = Some (t_id u)) ->
  let s2 := if opt_eqb (longPressTimer old) lpt then clear_opt (eggTimer old) s
            else clear_opt (longPressTimer old) (clear_opt (eggTimer old) s) in
  sched_wf s2 /\ timeouts_only s2 /\ next_id s2 = next_id s /\
  (forall u, In u (pending s2) -> t_cb u = LongPressFired -> lpt = Some (t_id u)) /\
  (forall u, In u (pending s2) -> t_cb u = EggDismiss -> False).
Proof.
  intros Hwf Hto Hlp Hegg s2.
  assert (Hin2 : forall u, In u (pending s2) ->
            In u (pending s) /\ eggTimer old <> Some (t_id u) /\
            (opt_eqb (longPressTimer old) lpt = false -> longPressTimer old <> Some (t_id u))).
  { intros u Hu. unfold s2 in Hu. destruct (opt_eqb _ _) eqn:E.
    - apply in_clear_opt in Hu as [Hu H1]. repeat split; auto; discriminate.
    - apply in_clear_opt in Hu as [Hu H2]. apply in_clear_opt in Hu as [Hu H1]. auto. }
  split; [unfold s2; destruct (opt_eqb _ _); auto using clear_opt_wf|].
  split; [unfold s2; destruct (opt_eqb _ _); auto using clear_opt_timeouts|].
  split; [unfold s2; destruct (opt_eqb _ _); rewrite ?clear_opt_next_id; reflexivity|].
  split.
  - intros u Hu Hc. destruct (Hin2 u Hu) as (Hu' & _ & H3).
    destruct (Hlp u Hu' Hc) as [H|[H4 H5]]; [exact H|]. exfalso. exact (H3 H4 H5).
  - intros u Hu Hc. destruct (Hin2 u Hu) as (Hu' & H2 & _). exact (H2 (Hegg u Hu' Hc)).
Qed.

(** The commit establishes the invariant under the hypotheses of
    [shell_cleanup_inv]. *)
Lemma shell_commit_inv old show lpt (s : sched shell_cb) :
  sched_wf s -> timeouts_only s ->
  handle_lt lpt (next_id s) -> handle_lt (longPressTimer old) (next_id s) ->
  (forall u, In u (pending s) -> t_cb u = LongPressFired ->
     lpt = Some (t_id u) \/
     (opt_eqb (longPressTimer old) lpt = false /\ longPressTimer old = Some (t_id u))) ->
  (forall u, In u (pending s) -> t_cb u = EggDismiss -> eggTimer old = Some (t_id u)) ->
  shell_inv (shell_commit id old show lpt s) /\
  showEasterEgg (fst (shell_commit id old show lpt s)) = show /\
  longPressTimer (fst (shell_commit id old show lpt s)) = lpt.
Proof.
  intros Hwf Hto Hlpt Hold Hlp Hegg.
  destruct (shell_cleanup_inv old lpt s Hwf Hto Hlp Hegg) as (Hwf2 & Hto2 & Hn2 & Hlp2 & Hegg2).
  unfold shell_commit. cbv zeta in *.
  set (s2 := if opt_eqb (longPressTimer old) lpt then _ else _) in *.
  destruct show; cbn [fst showEasterEgg longPressTimer].
  - unfold setTimeout. destruct (schedule None (id EggDismiss) egg_ms s2) as [t s3] eqn:E3.
    assert (Ht : t = next_id s2) by (unfold schedule in E3; injection E3 as <- _; reflexivity).
    assert (Hs3 : s3 = snd (schedule None (id EggDismiss) egg_ms s2)) by (rewrite E3; reflexivity).
    cbn [shell_inv fst showEasterEgg longPressTimer eggTimer].
    split; [|split; reflexivity]. subst s3.
    assert (Hn3 : next_id (snd (schedule None (id EggDismiss) egg_ms s2)) = S (next_id s2)) by reflexivity.
    split; [apply schedule_wf; exact Hwf2|].
    split; [apply timeouts_setTimeout; exact Hto2|].
    rewrite Hn3, Hn2. split; [eapply handle_lt_mono; [exact Hlpt|lia]|].
    split; [rewrite Ht, Hn2; simpl; lia|].
    split; [intros u Hu Hc; apply in_schedule in Hu as [Hu| ->]; [exact (Hlp2 u Hu Hc)|discriminate]|].
    split; [intros u Hu Hc; apply in_schedule in Hu as [Hu| ->];
            [exfalso; exact (Hegg2 u Hu Hc)|rewrite Ht; reflexivity]|].
    split; [|split; [intros _; discriminate|reflexivity]].
    intros x Hx. injection Hx as <-. eexists. split; [apply in_schedule; right; reflexivity|].
    split; [simpl; rewrite Ht; reflexivity|reflexivity].
  - cbn [shell_inv fst showEasterEgg longPressTimer eggTimer].
    split; [|split; reflexivity].
    split; [exact Hwf2|]. split; [exact Hto2|]. rewrite Hn2.
    split; [exact Hlpt|]. split; [exact I|].
    split; [exact Hlp2|]. split; [intros u Hu Hc; exfalso; exact (Hegg2 u Hu Hc)|].
    split; [intros x Hx; discriminate|]. split; [discriminate|intros H; exfalso; apply H; reflexivity].
Qed.

Lemma opt_eqb_fresh_l o n : handle_lt o n -> opt_eqb (Some n) o = false.
Proof. destruct o; simpl; [intros H; apply Nat.eqb_neq; lia|reflexivity]. Qed.

Lemma opt_eqb_fresh_r o n : handle_lt o n -> opt_eqb o (Some n) = false.
Proof. destruct o; simpl; [intros H; apply Nat.eqb_neq; lia|reflexivity]. Qed.

Lemma set_app_commit {Cb} (f : shell_cb -> Cb) old show lpt s :
  Bool.eqb show (showEasterEgg old) && opt_eqb lpt (longPressTimer old) = false ->
  set_app f old show lpt s = shell_commit f old show lpt s.
Proof. unfold set_app. intros ->. reflexivity. Qed.

Lemma schedule_pair {Cb} per (cb : Cb) d s :
  schedule per cb d s = (next_id s, snd (schedule per cb d s)).
Proof. reflexivity. Qed.

Lemma fire_timeouts s u s' :
  timeouts_only s -> fire s = Some (u, s') ->
  timeouts_only s' /\ forall v, In v (pending s') <-> In v (pending s) /\ t_id v <> t_id u.
Proof.
  intros Hto Hf. unfold timeouts_only in *. rewrite Forall_forall in Hto.
  assert (Hu : t_period u = None) by (apply Hto, (fire_earliest _ _ _ Hf)).
  assert (Hin : forall v, In v (pending s') <-> In v (pending s) /\ t_id v <> t_id u).
  { intros v. rewrite (fire_pending _ _ _ _ Hf). split; [|auto].
    intros [H|(p & Hp & _)]; [exact H|congruence]. }
  split; [|exact Hin]. rewrite Forall_forall. intros v Hv. apply Hin in Hv as [Hv _]. auto.
Qed.

Section ShellInvariant.
Context (sh : shell) (s : sched shell_cb) (Hinv : shell_inv (sh, s)).

Lemma shell_inv_touchStart :
  shell_inv (handleTouchStart id sh s) /\
  showEasterEgg (fst (handleTouchStart id sh s)) = showEasterEgg sh /\
  longPressTimer (fst (handleTouchStart id sh s)) = Some (next_id s).
Proof.
  destruct Hinv as (Hwf & Hto & Hl1 & Hl2 & Hlp & Hegg & _ & _).
  unfold handleTouchStart, setTimeout. rewrite schedule_pair. cbv beta iota.
  rewrite set_app_commit by (rewrite opt_eqb_fresh_l by exact Hl1; apply Bool.andb_false_r).
  apply shell_commit_inv.
  - apply schedule_wf, Hwf.
  - apply timeouts_setTimeout, Hto.
  - simpl; lia.
  - eapply handle_lt_mono; [exact Hl1|simpl; lia].
  - intros u Hu Hc. apply in_schedule in Hu as [Hu| ->]; [right|left; reflexivity].
    split; [apply opt_eqb_fresh_r, Hl1|exact (Hlp u Hu Hc)].
  - intros u Hu Hc. apply in_schedule in Hu as [Hu| ->]; [exact (Hegg u Hu Hc)|discriminate].
Qed.

Lemma shell_inv_touchEnd :
  shell_inv (handleTouchEnd id sh s) /\
  showEasterEgg (fst (handleTouchEnd id sh s)) = showEasterEgg sh /\
  longPressTimer (fst (handleTouchEnd id sh s)) = None.
Proof.
  pose proof Hinv as (Hwf & Hto & Hl1 & Hl2 & Hlp & Hegg & _ & _).
  unfold handleTouchEnd. destruct (longPressTimer sh) as [t|] eqn:Et; [|auto].
  rewrite set_app_commit by (rewrite Et; apply Bool.andb_false_r).
  apply shell_commit_inv.
  - apply clearTimer_wf, Hwf.
  - apply (clear_opt_timeouts (Some t)), Hto.
  - exact I.
  - rewrite Et. exact Hl1.
  - intros u Hu Hc. apply in_clearTimer in Hu as [Hu Hne].
    exfalso. apply Hne. specialize (Hlp u Hu Hc). congruence.
  - intros u Hu Hc. apply in_clearTimer in Hu as [Hu _]. exact (Hegg u Hu Hc).
Qed.

Lemma shell_inv_render : shell_inv (rerender id sh s).
Proof.
  destruct Hinv as (Hwf & Hto & Hl1 & Hl2 & Hlp & Hegg & _ & _).
  apply shell_commit_inv; auto.
Qed.

Lemma shell_inv_wait d : can_elapse d s = true -> shell_inv (sh, elapse d s).
Proof.
  intros Hc. destruct Hinv as (Hwf & Hto & Hrest).
  split; [apply elapse_wf; assumption|]. split; [exact Hto|exact Hrest].
Qed.

Lemma shell_inv_fire u s' :
  fire s = Some (u, s') -> shell_inv (shell_timer id (t_cb u) sh s').
Proof.
  intros Hf. pose proof Hinv as (Hwf & Hto & Hl1 & Hl2 & Hlp & Hegg & Hpend & Hshow).
  pose proof (fire_earliest _ _ _ Hf) as [Hu _].
  destruct (fire_timeouts _ _ _ Hto Hf) as [Hto' Hin'].
  pose proof (fire_wf _ _ _ Hwf Hf) as Hwf'.
  pose proof (fire_next_id _ _ _ Hf) as Hn.
  assert (Hlp' : forall v, In v (pending s') -> t_cb v = LongPressFired ->
                  longPressTimer sh = Some (t_id v))
    by (intros v Hv Hc; apply Hin' in Hv as [Hv _]; exact (Hlp v Hv Hc)).
  assert (Hegg' : forall v, In v (pending s') -> t_cb v = EggDismiss -> eggTimer sh = Some (t_id v))
    by (intros v Hv Hc; apply Hin' in Hv as [Hv _]; exact (Hegg v Hv Hc)).
  destruct (t_cb u) eqn:Ecb; unfold shell_timer, set_app.
  - destruct (Bool.eqb true (showEasterEgg sh) && opt_eqb (longPressTimer sh) (longPressTimer sh)) eqn:E.
    + (* the egg already shows: React bails out *)
      cbn [shell_inv]. rewrite Hn.
      split; [exact Hwf'|]. split; [exact Hto'|]. split; [exact Hl1|]. split; [exact Hl2|].
      split; [exact Hlp'|]. split; [exact Hegg'|]. split; [|exact Hshow].
      intros id Hid. destruct (Hpend id Hid) as (v & Hv & Hvid & Hvc). exists v.
      repeat split; auto. apply Hin'. split; [exact Hv|]. intros Heq.
      assert (v = u) by (apply (same_id_same_timer (pending s)); auto; apply Hwf). congruence.
    + apply shell_commit_inv; rewrite ?Hn; auto.
  - (* a pending dismissal means the egg shows, so the update is not a no-op *)
    assert (Hsh : showEasterEgg sh = true) by (apply Hshow; rewrite (Hegg u Hu Ecb); discriminate).
    rewrite Hsh. apply shell_commit_inv; rewrite ?Hn; auto.
Qed.
End ShellInvariant.

(** The invariant holds initially and after every event. *)
Lemma shell_inv_init t0 : shell_inv (shell_init, Sched t0 1 []).
Proof.
  repeat split; simpl; try constructor; try (intros; contradiction); try discriminate.
Qed.

Lemma shell_step_inv e st : shell_inv st -> shell_inv (shell_step e st).
Proof.
  destruct st as [sh s]. intros Hinv. destruct e; cbn [shell_step].
  - apply shell_inv_touchStart, Hinv.
  - apply shell_inv_touchEnd, Hinv.
  - destruct (fire s) as [[u s']|] eqn:Hf; [exact (shell_inv_fire _ _ Hinv _ _ Hf)|exact Hinv].
  - destruct (can_elapse d s) eqn:Hc; [apply shell_inv_wait; assumption|exact Hinv].
  - apply shell_inv_render, Hinv.
Qed.

Lemma shell_run_inv es st : shell_inv st -> shell_inv (shell_run es st).
Proof.
  unfold shell_run. revert st; induction es as [|e es IH]; intros st H; simpl; auto using shell_step_inv.
Qed.

Lemma shell_cb_eqb_eq a b : shell_cb_eqb a b = true <-> a = b.
Proof. destruct a, b; simpl; split; congruence. Qed.

(** Timers of one kind that all carry the same handle number at most one. *)
Lemma filter_same_id_le1 (l : list (timer shell_cb)) (p : timer shell_cb -> bool) x :
  List.NoDup (map t_id l) -> (forall u, In u l -> p u = true -> t_id u = x) ->
  length (List.filter p l) <= 1.
Proof.
  induction l as [|a l IH]; simpl; [lia|]. intros Hnd H.
  apply NoDup_cons_iff in Hnd as [Hn Hnd].
  destruct (p a) eqn:Ea; simpl; [|auto].
  assert (Hnil : List.filter p l = []); [|rewrite Hnil; simpl; lia].
  destruct (List.filter p l) as [|v r] eqn:Ef; [reflexivity|exfalso].
  assert (Hv : In v (List.filter p l)) by (rewrite Ef; left; reflexivity).
  apply filter_In in Hv as [Hv Hpv]. apply Hn. apply in_map_iff. exists v.
  split; [rewrite (H v (or_intror Hv) Hpv); symmetry; apply H; auto|exact Hv].
Qed.

Lemma filter_In_length {A} (p : A -> bool) l u :
  In u l -> p u = true -> 1 <= length (List.filter p l).
Proof.
  intros Hu Hp. destruct (List.filter p l) eqn:E; simpl; [|lia].
  assert (In u (List.filter p l)) by (apply filter_In; auto). rewrite E in H. contradiction.
Qed.

Lemma n_shell_le1 c sh s :
  shell_inv (sh, s) -> n_shell c s <= 1.
Proof.
  intros (Hwf & _ & _ & _ & Hlp & Hegg & _). unfold n_shell.
  destruct c.
  - apply (filter_same_id_le1 _ _ (match longPressTimer sh with Some x => x | None => 0 end));
      [apply Hwf|]. intros u Hu Hc. apply shell_cb_eqb_eq in Hc. rewrite (Hlp u Hu Hc). reflexivity.
  - apply (filter_same_id_le1 _ _ (match eggTimer sh with Some x => x | None => 0 end));
      [apply Hwf|]. intros u Hu Hc. apply shell_cb_eqb_eq in Hc. rewrite (Hegg u Hu Hc). reflexivity.
Qed.

(** Evaluate a run of the shell from a concrete state with a symbolic clock. *)
Ltac shell_eval :=
  unfold shell_run; cbn -[can_elapse long_press_ms egg_ms];
  repeat (rewrite can_elapse_single by (unfold long_press_ms, egg_ms in *; lia);
          cbn -[can_elapse long_press_ms egg_ms]);
  repeat rewrite Nat.max_r by lia.

(** The bounds the invariant gives: at most one long-press timeout, and
    the egg shows exactly when one dismissal timeout is pending. *)
Lemma shell_bounds sh s :
  shell_inv (sh, s) ->
  n_shell LongPressFired s <= 1 /\ (showEasterEgg sh = true <-> n_shell EggDismiss s = 1).
Proof.
  intros Hinv.
  split; [exact (n_shell_le1 _ _ _ Hinv)|].
  pose proof (n_shell_le1 EggDismiss _ _ Hinv) as Hle.
  destruct Hinv as (_ & _ & _ & _ & _ & Hegg & Hpend & Hshow). split.
  - intros Hs. apply Hshow in Hs. destruct (eggTimer sh) as [x|]; [|congruence].
    destruct (Hpend x eq_refl) as (u & Hu & _ & Hc).
    pose proof (filter_In_length (fun t => shell_cb_eqb (t_cb t) EggDismiss) _ u Hu
                  (proj2 (shell_cb_eqb_eq _ _) Hc)). unfold n_shell in *. lia.
  - intros Hn. apply Hshow. unfold n_shell in Hn.
    destruct (List.filter _ (pending s)) as [|u r] eqn:E; [discriminate|].
    assert (Hu : In u (List.filter (fun t => shell_cb_eqb (t_cb t) EggDismiss) (pending s)))
      by (rewrite E; left; reflexivity).
    apply filter_In in Hu as [Hu Hc]. apply shell_cb_eqb_eq in Hc.
    rewrite (Hegg u Hu Hc). discriminate.
Qed.

(** C16. At every reachable state of the shell at most one long-press
    timeout is outstanding, and the easter egg shows exactly when one
    dismissal timeout is pending. *)
Theorem shell_timers_bounded es t0 :
  let '(sh, s) := shell_run es (shell_init, Sched t0 1 []) in
  n_shell LongPressFired s <= 1 /\ (showEasterEgg sh = true <-> n_shell EggDismiss s = 1).
Proof.
  pose proof (shell_run_inv es _ (shell_inv_init t0)) as Hinv.
  destruct (shell_run es _) as [sh s]. exact (shell_bounds sh s Hinv).
Qed.

(** A long press shows the easter egg: pressed at [t0] and held, the
    long-press timeout fires at [t0 + 3000], the egg shows, and its
    dismissal is due 5000 ms later. *)
Theorem long_press_shows_egg t0 :
  shell_run [ETouchStart; EFire] (shell_init, Sched t0 1 []) =
  (Shell true (Some 1) (Some 2),
   Sched (t0 + long_press_ms) 3 [Timer 2 (t0 + long_press_ms + egg_ms) None EggDismiss]).
Proof. shell_eval. reflexivity. Qed.

(** C17. A short press is cancelled: released after [d <= 3000] ms, the
    shell is back in its initial state with an empty timer queue, so no
    timeout can show the egg afterwards. *)
Theorem short_press_cancels t0 d :
  d <= long_press_ms ->
  shell_run [ETouchStart; EWait d; ETouchEnd] (shell_init, Sched t0 1 []) =
  (shell_init, Sched (t0 + d) 2 []).
Proof. intros Hd. shell_eval. reflexivity. Qed.

(** C18. A press-start while a long-press timeout is pending cancels it
    and restarts the 3000 ms: the first timeout is gone and the only one
    outstanding is due 3000 ms after the second press. *)
Theorem press_restarts_timer t0 d :
  d <= long_press_ms ->
  shell_run [ETouchStart; EWait d; ETouchStart] (shell_init, Sched t0 1 []) =
  (Shell false (Some 2) None, Sched (t0 + d) 3 [Timer 2 (t0 + d + long_press_ms) None LongPressFired]).
Proof. intros Hd. shell_eval. reflexivity. Qed.

(** C19. The dismissal restarts when App re-renders: releasing the finger
    [d] ms after the egg appeared re-renders App, whose inline [onDismiss]
    is a new function, so HiddenEasterEgg clears its timeout and arms a new
    one; the egg stays up until [5000] ms after the release, [d + 5000] ms
    in all. *)
Theorem egg_dismiss_restarts t0 d :
  d <= egg_ms ->
  shell_run [ETouchStart; EFire; EWait d; ETouchEnd] (shell_init, Sched t0 1 []) =
  (Shell true None (Some 3),
   Sched (t0 + long_press_ms + d) 4 [Timer 3 (t0 + long_press_ms + d + egg_ms) None EggDismiss]).
Proof. intros Hd. shell_eval. reflexivity. Qed.

Lemma short_press_cancels_witness :
  2000 <= long_press_ms /\
  shell_run [ETouchStart; EWait 2000; ETouchEnd] (shell_init, Sched 7 1 []) = (shell_init, Sched (7 + 2000) 2 []).
Proof. split; [unfold long_press_ms; lia|apply (short_press_cancels 7 2000); unfold long_press_ms; lia]. Defined.

Lemma press_restarts_timer_witness :
  1000 <= long_press_ms /\
  shell_run [ETouchStart; EWait 1000; ETouchStart] (shell_init, Sched 0 1 []) =
  (Shell false (Some 2) None, Sched (0 + 1000) 3 [Timer 2 (0 + 1000 + long_press_ms) None LongPressFired]).
Proof. split; [unfold long_press_ms; lia|apply (press_restarts_timer 0 1000); unfold long_press_ms; lia]. Defined.

Lemma egg_dismiss_restarts_witness :
  4000 <= egg_ms /\
  shell_run [ETouchStart; EFire; EWait 4000; ETouchEnd] (shell_init, Sched 0 1 []) =
  (Shell true None (Some 3),
   Sched (0 + long_press_ms + 4000) 4 [Timer 3 (0 + long_press_ms + 4000 + egg_ms) None EggDismiss]).
Proof. split; [unfold egg_ms; lia|apply (egg_dismiss_restarts 0 4000); unfold egg_ms; lia]. Defined.
