(* ===== verification/Layout.v ===== *)
(** * Layout: the placement math of the scenes, over the reals

    [getHeartPositions] of Scene6Finale.tsx (the lanterns' heart curve),
    the radial burst of Scene4MemoryUniverse.tsx ([photosWithPosition] and
    the orbit render) and the particle burst of Scene3GiftBox.tsx.  The
    JavaScript numbers are modelled as real numbers ([R]): the theorems
    are about the formulas, not about IEEE rounding.  [Math.random] is
    injected as a function from the loop index to [0,1). *)

From Stdlib Require Import List Reals Lra Lia.
From S2P Require Import Prelude.
Import ListNotations.
Local Open Scope R_scope.

(** ** The heart curve (Scene6Finale.tsx, [getHeartPositions]) *)

Record heart_pos := HeartPos { hx : R; hy : R; rotation : R }.

(** [x = 16 * Math.pow(Math.sin(t), 3)] *)
Definition heart_x (t : R) : R := 16 * sin t ^ 3.

(** [y = -(13 cos t - 5 cos 2t - 2 cos 3t - cos 4t)] *)
Definition heart_y (t : R) : R :=
  - (13 * cos t - 5 * cos (2 * t) - 2 * cos (3 * t) - cos (4 * t)).

(** [t = (i / count) * Math.PI * 2] *)
Definition heart_param (count i : nat) : R := INR i / INR count * PI * 2.

(** One iteration of the loop; [rnd] is the value [Math.random()] returned. *)
Definition heart_point (rnd : R) (count i : nat) : heart_pos :=
  let t := heart_param count i in
  HeartPos (50 + heart_x t / 20 * 40) (50 + heart_y t / 20 * 35) (rnd * 30 - 15).

(** The loop [for (let i = 0; i < count; i++) positions.push(...)]. *)
Definition getHeartPositions (random : nat -> R) (count : nat) : list heart_pos :=
  map (fun i => heart_point (random i) count i) (seq 0 count).

(** ** The radial layouts (Scene4MemoryUniverse.tsx, Scene3GiftBox.tsx) *)

(** [angle = (i / n) * Math.PI * 2] *)
Definition orbit_angle (n i : nat) : R := INR i / INR n * PI * 2.

(** [x = Math.cos(angle) * distance], [y = Math.sin(angle) * distance] *)
Definition orbit_point (distance : R) (n i : nat) : R * R :=
  (cos (orbit_angle n i) * distance, sin (orbit_angle n i) * distance).

(** The memory-universe orbit: every photo at [distance = 150]. *)
Definition orbit_distance : R := 150.

(** A positioned photo of [photosWithPosition]: [{...photo, id, angle, distance}]. *)
Record positioned (A : Type) := Positioned { p_photo : A; p_id : nat; p_angle : R; p_distance : R }.
Arguments Positioned {A}.
Arguments p_photo {A}.
Arguments p_id {A}.
Arguments p_angle {A}.
Arguments p_distance {A}.

Definition photosWithPosition {A} (photos : list A) : list (positioned A) :=
  map (fun '(i, ph) => Positioned ph i (orbit_angle (length photos) i) orbit_distance)
      (combine (seq 0 (length photos)) photos).

(** The render position of a positioned photo (lines 163-164). *)
Definition photo_xy {A} (p : positioned A) : R * R :=
  (cos (p_angle p) * p_distance p, sin (p_angle p) * p_distance p).

(** The gift-box explosion: 30 particles at [distance = 200]. *)
Definition burst_particles : nat := 30.
Definition burst_distance : R := 200.
Definition burst_point (i : nat) : R * R := orbit_point burst_distance burst_particles i.

(** ** Lemmas *)

Lemma heart_param_complement count i :
  (0 < count)%nat -> (i <= count)%nat ->
  heart_param count (count - i) = 2 * PI - heart_param count i.
Proof.
  intros Hc Hi. unfold heart_param. rewrite minus_INR by exact Hi.
  assert (0 < INR count) by (apply lt_0_INR; exact Hc). field. lra.
Qed.

Lemma sin_2PI_minus t : sin (2 * PI - t) = - sin t.
Proof.
  replace (2 * PI - t) with (- t + 2 * INR 1 * PI) by (simpl; ring).
  rewrite sin_period, sin_neg. reflexivity.
Qed.

Lemma cos_mul_2PI_minus k t : cos (INR k * (2 * PI - t)) = cos (INR k * t).
Proof.
  replace (INR k * (2 * PI - t)) with (- (INR k * t) + 2 * INR k * PI) by ring.
  rewrite cos_period, cos_neg. reflexivity.
Qed.

Lemma heart_x_mirror t : heart_x (2 * PI - t) = - heart_x t.
Proof. unfold heart_x. rewrite sin_2PI_minus. ring. Qed.

Lemma heart_y_mirror t : heart_y (2 * PI - t) = heart_y t.
Proof.
  unfold heart_y.
  pose proof (cos_mul_2PI_minus 1 t) as H1. pose proof (cos_mul_2PI_minus 2 t) as H2.
  pose proof (cos_mul_2PI_minus 3 t) as H3. pose proof (cos_mul_2PI_minus 4 t) as H4.
  simpl INR in H1, H2, H3, H4.
  replace (1 * (2 * PI - t)) with (2 * PI - t) in H1 by ring. replace (1 * t) with t in H1 by ring.
  replace (1 + 1) with 2 in H2 by ring. replace (1 + 1 + 1) with 3 in H3 by ring.
  replace (1 + 1 + 1 + 1) with 4 in H4 by ring.
  rewrite H1, H2, H3, H4. reflexivity.
Qed.

Lemma heart_x_bound t : -16 <= heart_x t <= 16.
Proof.
  unfold heart_x. pose proof (SIN_bound t) as [Hl Hh].
  assert (Hsq : 0 <= sin t ^ 2 <= 1) by (split; nra).
  split; nra.
Qed.

Lemma heart_y_bound t : -21 <= heart_y t <= 21.
Proof.
  unfold heart_y.
  pose proof (COS_bound t). pose proof (COS_bound (2 * t)).
  pose proof (COS_bound (3 * t)). pose proof (COS_bound (4 * t)). lra.
Qed.

Lemma nth_getHeartPositions random count i d :
  (i < count)%nat -> nth i (getHeartPositions random count) d = heart_point (random i) count i.
Proof.
  intros Hi. unfold getHeartPositions. apply (nth_map_seq0 (fun i => heart_point (random i) count i)), Hi.
Qed.

Lemma orbit_point_on_circle distance n i :
  let '(x, y) := orbit_point distance n i in x ^ 2 + y ^ 2 = distance ^ 2.
Proof.
  unfold orbit_point. pose proof (sin2_cos2 (orbit_angle n i)) as H. unfold Rsqr in H.
  replace ((cos (orbit_angle n i) * distance) ^ 2 + (sin (orbit_angle n i) * distance) ^ 2)
    with ((sin (orbit_angle n i) * sin (orbit_angle n i) +
           cos (orbit_angle n i) * cos (orbit_angle n i)) * distance ^ 2) by ring.
  rewrite H. ring.
Qed.

Lemma orbit_positions_from {A} n (l : list A) k :
  map p_id (map (fun '(i, ph) => Positioned ph i (orbit_angle n i) orbit_distance)
                (combine (seq k (length l)) l)) = seq k (length l) /\
  Forall (fun p => p_angle p = orbit_angle n (p_id p) /\
                   let '(x, y) := photo_xy p in x ^ 2 + y ^ 2 = 150 ^ 2)
         (map (fun '(i, ph) => Positioned ph i (orbit_angle n i) orbit_distance)
              (combine (seq k (length l)) l)).
Proof.
  revert k; induction l as [|ph ps IH]; intros k; simpl; [split; [reflexivity|constructor]|].
  destruct (IH (S k)) as [H1 H2]. split; [f_equal; exact H1|constructor; [|exact H2]].
  split; [reflexivity|]. exact (orbit_point_on_circle orbit_distance n k).
Qed.

(** C22. The heart of lanterns is the curve: [getHeartPositions] yields
    [count] points, the first at the top notch (50%, 41.25%), every point
    inside the box [18, 82] x [13.25, 86.75] (percent), and each rotation
    in [-15, 15) when [Math.random] is in [0, 1). *)
Theorem heart_positions_shape random count :
  (forall i, 0 <= random i < 1) ->
  length (getHeartPositions random count) = count /\
  (forall d, (0 < count)%nat -> hx (nth 0 (getHeartPositions random count) d) = 50 /\
                                hy (nth 0 (getHeartPositions random count) d) = 41.25) /\
  Forall (fun p => 18 <= hx p <= 82 /\ 13.25 <= hy p <= 86.75 /\ -15 <= rotation p < 15)
         (getHeartPositions random count).
Proof.
  intros Hr. split; [unfold getHeartPositions; rewrite length_map, length_seq; reflexivity|].
  split.
  - intros d Hc. rewrite nth_getHeartPositions by exact Hc.
    unfold heart_point, heart_param, heart_x, heart_y; simpl.
    replace (0 / INR count * PI * 2) with 0 by (unfold Rdiv; ring).
    rewrite ?Rmult_0_r, sin_0, cos_0. split; lra.
  - unfold getHeartPositions. apply Forall_map, Forall_forall. intros i _.
    unfold heart_point; simpl.
    pose proof (heart_x_bound (heart_param count i)). pose proof (heart_y_bound (heart_param count i)).
    pose proof (Hr i). lra.
Qed.

(** C23. The heart is symmetric about its vertical axis: the point
    [count - i] is the mirror image of the point [i]. *)
Theorem heart_positions_symmetric random count i d :
  (0 < i < count)%nat ->
  hx (nth (count - i) (getHeartPositions random count) d) =
    100 - hx (nth i (getHeartPositions random count) d) /\
  hy (nth (count - i) (getHeartPositions random count) d) =
    hy (nth i (getHeartPositions random count) d).
Proof.
  intros Hi. rewrite !nth_getHeartPositions by lia.
  unfold heart_point; simpl. rewrite heart_param_complement by lia.
  rewrite heart_x_mirror, heart_y_mirror. split; [lra|reflexivity].
Qed.

(** The orbit layout puts every photo of the memory universe on the
    circle of radius 150 around the centre, at the angle
    [2 pi i / n] for the photo of index [i]. *)
Theorem photosWithPosition_on_orbit {A} (photos : list A) :
  map p_id (photosWithPosition photos) = seq 0 (length photos) /\
  Forall (fun p => p_angle p = orbit_angle (length photos) (p_id p) /\
                   let '(x, y) := photo_xy p in x ^ 2 + y ^ 2 = 150 ^ 2)
         (photosWithPosition photos).
Proof. apply orbit_positions_from. Qed.

(** The orbit layout at four items and radius 150 puts item 1 at
    angle pi/2, that is at (0, 150). *)
Theorem orbit_point_quarter : orbit_point 150 4 1 = (0, 150).
Proof.
  unfold orbit_point, orbit_angle. simpl INR.
  replace (1 / (1 + 1 + 1 + 1) * PI * 2) with (PI / 2) by field.
  rewrite cos_PI2, sin_PI2. f_equal; ring.
Qed.

Lemma heart_positions_shape_witness :
  (forall i, 0 <= (fun _ : nat => 1 / 2) i < 1) /\
  length (getHeartPositions (fun _ => 1 / 2) 5) = 5%nat.
Proof.
  assert (H : forall i, 0 <= (fun _ : nat => 1 / 2) i < 1) by (intros; simpl; lra).
  split; [exact H|apply (heart_positions_shape (fun _ => 1 / 2) 5 H)].
Defined.

Lemma heart_positions_symmetric_witness :
  (0 < 1 < 4)%nat /\
  hx (nth 3 (getHeartPositions (fun _ => 0) 4) (HeartPos 0 0 0)) =
    100 - hx (nth 1 (getHeartPositions (fun _ => 0) 4) (HeartPos 0 0 0)).
Proof.
  split; [lia|apply (heart_positions_symmetric (fun _ => 0) 4 1 (HeartPos 0 0 0)); lia].
Defined.
