(* ===== verification/Timeline.v ===== *)
(** * Scene5Timeline: the milestone accordion

    State: [expandedMilestone], a milestone index or [null] (lines 22-24).
    Both the icon circle (lines 160-162) and the content card (lines
    174-176) of milestone [i] run [setExpandedMilestone(expandedMilestone
    === i ? null : i)].  The render (lines 136-260) lists the milestones in
    order; milestone [i] shows its photo grid when it is the expanded one
    and has a [photos] array, and a "Tap to collapse" / "Tap to see
    photos" hint whenever it has one.  The "Continue ->" button (lines
    74-90) calls [onComplete] on every click. *)

From Stdlib Require Import List String Arith Lia.
From S2P Require Import Prelude Data.
Import ListNotations.
Open Scope string_scope.

Definition timeline := option nat.

Definition timeline_init : timeline := None.

(** [expandedMilestone === i ? null : i] *)
Definition toggle (i : nat) (expandedMilestone : timeline) : timeline :=
  match expandedMilestone with
  | Some j => if Nat.eqb j i then None else Some i
  | None => Some i
  end.

(** What the render shows of milestone [i]. *)
Record milestone_view := MView {
  mv_index : nat;
  mv_title : string;
  mv_date : string;
  mv_description : string;
  mv_grid : option (list string);   (* the expanded photo grid, when rendered *)
  mv_hint : option string           (* the tap hint, when rendered *)
}.

Definition is_expanded (e : timeline) (i : nat) : bool :=
  match e with Some j => Nat.eqb j i | None => false end.

Definition milestone_card (e : timeline) (i : nat) (m : milestone) : milestone_view :=
  MView i (title m) (m_date m) (description m)
    (if is_expanded e i then m_photos m else None)
    (match m_photos m with
     | Some _ => Some (if is_expanded e i then "Tap to collapse" else "Tap to see photos")
     | None => None
     end).

(** [initialMilestones.map((milestone, i) => ...)] *)
Definition timeline_view (ms : list milestone) (e : timeline) : list milestone_view :=
  map (fun '(i, m) => milestone_card e i m) (combine (seq 0 (List.length ms)) ms).

(** The scene's events: a click on milestone [i] (icon or card), or on
    "Continue ->"; the boolean says whether [onComplete] was called. *)
Inductive timeline_event := TClick (i : nat) | TContinue.

Definition timeline_step (e : timeline_event) (st : timeline) : timeline * bool :=
  match e with
  | TClick i => (toggle i st, false)
  | TContinue => (st, true)
  end.

(** ** Theorems *)

Lemma timeline_view_from (ms : list milestone) e k :
  map mv_index (map (fun '(i, m) => milestone_card e i m) (combine (seq k (List.length ms)) ms))
    = seq k (List.length ms) /\
  forall i, k <= i < k + List.length ms ->
    nth_error (map (fun '(i, m) => milestone_card e i m) (combine (seq k (List.length ms)) ms)) (i - k)
    = option_map (milestone_card e i) (nth_error ms (i - k)).
Proof.
  revert k; induction ms as [|m ms IH]; intros k; simpl; [split; [reflexivity|intros; lia]|].
  destruct (IH (S k)) as [H1 H2]. split; [f_equal; exact H1|].
  intros i Hi. destruct (Nat.eq_dec i k) as [->|Hne]; [rewrite Nat.sub_diag; reflexivity|].
  replace (i - k) with (S (i - S k)) by lia. simpl. apply H2. lia.
Qed.

Lemma nth_error_timeline_view ms e i :
  i < List.length ms ->
  nth_error (timeline_view ms e) i = option_map (milestone_card e i) (nth_error ms i).
Proof.
  intros Hi. pose proof (proj2 (timeline_view_from ms e 0) i ltac:(lia)) as H.
  rewrite Nat.sub_0_r in H. exact H.
Qed.

Lemma is_expanded_spec e i : is_expanded e i = true <-> e = Some i.
Proof.
  destruct e as [j|]; simpl; [rewrite Nat.eqb_eq; split; congruence|split; discriminate].
Qed.

Lemma expanded_views_le1 (l : list nat) e :
  List.NoDup l -> List.length (List.filter (is_expanded e) l) <= 1.
Proof.
  induction 1 as [|i l Hn Hnd IH]; simpl; [lia|].
  destruct (is_expanded e i) eqn:Ei; simpl; [|exact IH].
  apply is_expanded_spec in Ei as ->.
  assert (Hnil : List.filter (is_expanded (Some i)) l = []); [|rewrite Hnil; simpl; lia].
  apply filter_nil_of_false. intros j Hj. destruct (is_expanded (Some i) j) eqn:Ej; [|reflexivity].
  apply is_expanded_spec in Ej. injection Ej as ->. contradiction.
Qed.

Definition has_grid (v : milestone_view) : bool :=
  match mv_grid v with Some _ => true | None => false end.

Lemma grid_count_from (ms : list milestone) e k :
  List.length (List.filter has_grid
    (map (fun '(i, m) => milestone_card e i m) (combine (seq k (List.length ms)) ms)))
  <= List.length (List.filter (is_expanded e) (seq k (List.length ms))).
Proof.
  revert k; induction ms as [|m ms IH]; intros k; simpl; [lia|].
  specialize (IH (S k)). unfold has_grid at 1, milestone_card at 1; cbn [mv_grid].
  destruct (is_expanded e k); [destruct (m_photos m)|]; simpl; lia.
Qed.

(** C24. The timeline is an accordion: at most one milestone shows its
    photo grid, and milestone [i] shows it exactly when it is the expanded
    one and has photos; its hint reads "Tap to collapse" exactly then. *)
Theorem timeline_accordion ms e :
  List.length (List.filter has_grid (timeline_view ms e)) <= 1 /\
  forall i m, nth_error ms i = Some m ->
    exists v, nth_error (timeline_view ms e) i = Some v /\ mv_index v = i /\
      (mv_grid v <> None <-> e = Some i /\ m_photos m <> None) /\
      (mv_hint v = Some "Tap to collapse" <-> e = Some i /\ m_photos m <> None).
Proof.
  split.
  - eapply Nat.le_trans; [apply grid_count_from|]. apply expanded_views_le1, seq_NoDup.
  - intros i m Hm. assert (Hi : i < List.length ms) by (apply nth_error_Some; congruence).
    rewrite nth_error_timeline_view, Hm by exact Hi. eexists. split; [reflexivity|].
    unfold milestone_card; cbn [mv_index mv_grid mv_hint]. split; [reflexivity|].
    rewrite <- is_expanded_spec.
    destruct (is_expanded e i), (m_photos m); split; split; intros H;
      try discriminate; try (destruct H; congruence); auto.
Qed.

(** A click on milestone [i] collapses it when it is the expanded
    one and otherwise expands it, collapsing any other: the toggle is
    undone by a second click exactly when no other milestone was
    expanded before the first. *)
Theorem toggle_spec i e :
  (toggle i e = None <-> e = Some i) /\
  (forall j, toggle i e = Some j <-> j = i /\ e <> Some i) /\
  (toggle i (toggle i e) = e <-> e = None \/ e = Some i).
Proof.
  destruct e as [k|]; cbn [toggle]; [destruct (Nat.eqb_spec k i) as [->|Hne]|];
    cbn [toggle]; rewrite ?Nat.eqb_refl; firstorder congruence.
Qed.

Lemma timeline_accordion_witness :
  exists v, nth_error (timeline_view milestones (Some 0)) 0 = Some v /\
    (mv_grid v <> None <-> Some 0 = Some 0 /\ m_photos (Milestone Heart "💍 Engagement Day" "December 4, 2024"
    "The day we promised forever to each other. A moment that changed our lives."
    (Some ["/src/asset/twelve.jpeg"; "/src/asset/fifteen.jpeg"])) <> None).
Proof.
  destruct (proj2 (timeline_accordion milestones (Some 0)) 0 _ eq_refl) as (v & Hv & _ & Hg & _).
  exists v. split; [exact Hv|exact Hg].
Defined.
