(* ===== verification/Finale.v ===== *)
(** * Scene6Finale: lanterns, the heart of photos and the replay button

    State: [showLanterns] (line 11), set by a 2 s timeout armed at mount
    and cleared at unmount (lines 13-16).  Every render calls
    [getHeartPositions(photos.length)] (line 19), drawing a fresh
    [Math.random()] rotation per photo, and places
    [photos.slice(0, heartPositions.length)] on the heart (lines 153-196);
    15 lanterns float once [showLanterns] holds (lines 42-44); the replay
    button (line 243) calls [onReplay].  A render is modelled with the
    random draws it makes as an argument. *)

From Stdlib Require Import List Reals Lra Lia String.
From S2P Require Import Prelude Timers Layout.
Import ListNotations.

Record finale := Finale { showLanterns : bool }.

Definition finale_init : finale := Finale false.

(** The timeout closure [() => setShowLanterns(true)]. *)
Inductive finale_cb := LanternsOn.

Definition lantern_delay_ms : nat := 2000.

(** The mount effect: [const timer = setTimeout(..., 2000)]. *)
Definition finale_mount (s : sched finale_cb) : nat * sched finale_cb :=
  setTimeout LanternsOn lantern_delay_ms s.

(** The effect's cleanup: [clearTimeout(timer)]. *)
Definition finale_unmount (timer : nat) (s : sched finale_cb) : sched finale_cb :=
  clearTimer timer s.

Definition finale_timer (c : finale_cb) (f : finale) : finale :=
  match c with LanternsOn => Finale true end.

Record finale_view := FinaleView {
  fv_lanterns : nat;                       (* [[...Array(15)]] when shown *)
  fv_photos : list (string * heart_pos);   (* each photo with its place *)
  fv_replay : bool                         (* the replay button *)
}.

(** [photos.slice(0, heartPositions.length).map((photo, i) => ... heartPositions[i] ...)] *)
Definition heart_photos (heartPositions : list heart_pos) (photos : list string)
    : list (string * heart_pos) :=
  let sliced := firstn (List.length heartPositions) photos in
  map (fun '(i, photo) => (photo, nth i heartPositions (HeartPos 0 0 0)))
      (combine (seq 0 (List.length sliced)) sliced).

(** A render, with the [Math.random()] draws of its [getHeartPositions]. *)
Definition render_finale (random : nat -> R) (photos : list string) (f : finale) : finale_view :=
  let heartPositions := getHeartPositions random (List.length photos) in
  FinaleView (if showLanterns f then 15 else 0) (heart_photos heartPositions photos) true.

(** The scene on its own: a firing of the event loop. *)
Definition finale_step (st : finale * sched finale_cb) : option (finale * sched finale_cb) :=
  let '(f, s) := st in
  match fire s with
  | Some (t, s') => Some (finale_timer (t_cb t) f, s')
  | None => None
  end.

(** ** Theorems *)

Lemma heart_photos_from (hp : list heart_pos) (ps : list string) k :
  List.length ps <= List.length hp - k ->
  map (fun '(i, photo) => (photo, nth i hp (HeartPos 0 0 0))) (combine (seq k (List.length ps)) ps) =
  combine ps (firstn (List.length ps) (skipn k hp)).
Proof.
  revert k; induction ps as [|p ps IH]; intros k Hlen; simpl in *; [reflexivity|].
  destruct (skipn k hp) as [|h rest] eqn:Hs.
  - exfalso. assert (List.length (skipn k hp) = 0) by (rewrite Hs; reflexivity).
    rewrite length_skipn in H. simpl in Hlen. lia.
  - simpl. rewrite IH by (simpl in Hlen; lia). f_equal.
    + f_equal. rewrite <- (firstn_skipn k hp) at 1. rewrite Hs, app_nth2 by (rewrite length_firstn; lia).
      rewrite length_firstn. replace (k - Nat.min k (List.length hp)) with 0 by lia. reflexivity.
    + f_equal. replace (skipn (S k) hp) with (skipn 1 (skipn k hp)) by (rewrite skipn_skipn; f_equal; lia).
      rewrite Hs. reflexivity.
Qed.

Lemma heart_photos_all hp ps :
  List.length ps = List.length hp -> heart_photos hp ps = combine ps hp.
Proof.
  intros Hl. unfold heart_photos. rewrite <- Hl, firstn_all, heart_photos_from by lia.
  rewrite Hl, skipn_O, firstn_all. reflexivity.
Qed.

Lemma map_xy_combine (ps : list string) (hs hs' : list heart_pos) :
  map (fun p => (hx p, hy p)) hs = map (fun p => (hx p, hy p)) hs' ->
  map (fun '(_, p) => (hx p, hy p)) (combine ps hs) = map (fun '(_, p) => (hx p, hy p)) (combine ps hs').
Proof.
  revert hs hs'; induction ps as [|a ps IH]; intros [|h hs] [|h' hs'] H; simpl in *;
    try reflexivity; try discriminate.
  injection H as H1 H2 H3. f_equal; [rewrite H1, H2; reflexivity|apply IH; exact H3].
Qed.

(** C25. The finale places every photo on the heart: the [i]-th photo is
    drawn at the [i]-th point of the heart curve for [photos.length]
    points, none is dropped by the slice, and the places do not depend on
    the random draws, only the tilt does. *)
Theorem finale_photos_on_heart random photos f :
  fv_photos (render_finale random photos f) =
    combine photos (getHeartPositions random (List.length photos)) /\
  List.length (fv_photos (render_finale random photos f)) = List.length photos /\
  forall random', map (fun '(_, p) => (hx p, hy p)) (fv_photos (render_finale random' photos f)) =
                  map (fun '(_, p) => (hx p, hy p)) (fv_photos (render_finale random photos f)).
Proof.
  unfold render_finale; cbn [fv_photos].
  assert (Hl : forall r, List.length photos = List.length (getHeartPositions r (List.length photos)))
    by (intros r; unfold getHeartPositions; rewrite length_map, length_seq; reflexivity).
  rewrite !heart_photos_all by apply Hl.
  split; [reflexivity|]. split; [rewrite length_combine, <- Hl; lia|].
  intros random'. rewrite !heart_photos_all by apply Hl. apply map_xy_combine.
  unfold getHeartPositions. rewrite !map_map. reflexivity.
Qed.

(** The lanterns rise two seconds after the finale mounts: the
    timeout armed at [t0] is the only timer, it fires at [t0 + 2000], and
    the render then shows the 15 lanterns; before it, none. *)
Theorem finale_lanterns t0 h photos random :
  finale_mount (Sched t0 h []) = (h, Sched t0 (S h) [Timer h (t0 + lantern_delay_ms) None LanternsOn]) /\
  fv_lanterns (render_finale random photos finale_init) = 0%nat /\
  finale_step (finale_init, Sched t0 (S h) [Timer h (t0 + lantern_delay_ms) None LanternsOn]) =
    Some (Finale true, Sched (t0 + lantern_delay_ms) (S h) []) /\
  fv_lanterns (render_finale random photos (Finale true)) = 15%nat.
Proof.
  split; [reflexivity|]. split; [reflexivity|]. split; [|reflexivity].
  unfold finale_step. rewrite fire_single_timeout by lia. reflexivity.
Qed.
