(* ===== verification/Memory.v ===== *)
(** * Scene4MemoryUniverse: the photo modal, swipe navigation and hearts

    State (lines 22-27): [expandedPhoto] (the photo in the modal, or
    [null]), [currentIndex], [photosWithPosition] (filled by the effect
    of lines 30-43, modelled in Layout) and [miniHearts].  [handlePhotoTap]
    opens the modal on a photo and sets [currentIndex] to its id;
    [handleClose] closes it; [handleSwipe] moves [currentIndex] with
    JavaScript's remainder [%] and shows [photosWithPosition[newIndex]];
    [handleDoubleTap] adds ten hearts with ids [Date.now() + i] and arms a
    1 s timeout that removes the hearts whose ids are among them.

    JavaScript numbers used as indices are integers ([Z]); [NaN], which
    [x % 0] yields, is [None]; an array read out of range or at [NaN] is
    [undefined], which closes the modal.  Heart coordinates are reals and
    the [Math.random()] draws an argument. *)

From Stdlib Require Import List ZArith Reals Lia Lra.
From S2P Require Import Prelude Timers Data Layout.
Import ListNotations.

Module MemoryUniverse.

Abbreviation mphoto := (positioned photo).

Record mini_heart := MiniHeart { h_id : Z; h_x : R; h_y : R }.

Record memory := Memory {
  expandedPhoto : option mphoto;
  currentIndex : option Z;          (* [None] is NaN *)
  photosWithPosition : list mphoto;
  miniHearts : list mini_heart
}.

Definition memory_init : memory := Memory None (Some 0%Z) [] [].

(** The radial-burst effect (lines 30-43), run at mount and whenever the
    [photos] prop changes identity. *)
Definition memory_effect (photos : list photo) (st : memory) : memory :=
  Memory (expandedPhoto st) (currentIndex st) (Layout.photosWithPosition photos) (miniHearts st).

(** [handlePhotoTap] *)
Definition handlePhotoTap (p : mphoto) (st : memory) : memory :=
  Memory (Some p) (Some (Z.of_nat (p_id p))) (photosWithPosition st) (miniHearts st).

(** [handleClose] *)
Definition handleClose (st : memory) : memory :=
  Memory None (currentIndex st) (photosWithPosition st) (miniHearts st).

Inductive direction := SwipeLeft | SwipeRight.

(** JavaScript's [a % b] on integers: the sign of the dividend, NaN for 0. *)
Definition js_rem (a b : Z) : option Z :=
  if (b =? 0)%Z then None else Some (Z.rem a b).

(** [newIndex] of [handleSwipe] (lines 55-58); NaN stays NaN. *)
Definition newIndex (d : direction) (currentIndex : option Z) (len : Z) : option Z :=
  match currentIndex with
  | None => None
  | Some c => match d with
              | SwipeRight => js_rem (c + 1) len
              | SwipeLeft => js_rem (c - 1 + len) len
              end
  end.

(** [arr[i]]: [undefined] out of range and at NaN. *)
Definition js_index {A} (l : list A) (i : option Z) : option A :=
  match i with
  | Some i => if (0 <=? i)%Z then nth_error l (Z.to_nat i) else None
  | None => None
  end.

(** [handleSwipe(direction)], [len] being [photos.length]. *)
Definition handleSwipe (d : direction) (len : nat) (st : memory) : memory :=
  let ni := newIndex d (currentIndex st) (Z.of_nat len) in
  Memory (js_index (photosWithPosition st) ni) ni (photosWithPosition st) (miniHearts st).

(** The timeout closure of [handleDoubleTap], capturing [newHearts]. *)
Inductive memory_cb := HeartsExpire (newHearts : list mini_heart).

Definition hearts_ms : nat := 1000.

(** [Array.from({ length: 10 }, (_, i) => ({ id: Date.now() + i, ... }))] *)
Definition new_hearts (now : Z) (x y : R) (rnd : nat -> R * R) : list mini_heart :=
  map (fun i => MiniHeart (now + Z.of_nat i) (x + (fst (rnd i) - 0.5) * 50)
                          (y + (snd (rnd i) - 0.5) * 50)) (seq 0 10).

(** [handleDoubleTap] at time [now], at [(x, y)] in the card. *)
Definition handleDoubleTap (now : Z) (x y : R) (rnd : nat -> R * R) (st : memory)
    (s : sched memory_cb) : memory * sched memory_cb :=
  let nh := new_hearts now x y rnd in
  (Memory (expandedPhoto st) (currentIndex st) (photosWithPosition st) (miniHearts st ++ nh),
   snd (setTimeout (HeartsExpire nh) hearts_ms s)).

(** [prev.filter((h) => !newHearts.find((n) => n.id === h.id))] *)
Definition hearts_expire (nh : list mini_heart) (st : memory) : memory :=
  Memory (expandedPhoto st) (currentIndex st) (photosWithPosition st)
    (List.filter (fun h => negb (existsb (fun n => (h_id n =? h_id h)%Z) nh)) (miniHearts st)).

(** The scene's events: a tap on the photo at position [i] of the orbit,
    the close button or backdrop, a swipe button, the effect re-running,
    a double tap, a timer firing. *)
Inductive memory_event :=
| MTap (i : nat)
| MClose
| MSwipe (d : direction)
| MEffect
| MDoubleTap (now : Z) (x y : R) (rnd : nat -> R * R)
| MFire.

Definition memory_step (photos : list photo) (e : memory_event)
    (st : memory * sched memory_cb) : memory * sched memory_cb :=
  let '(m, s) := st in
  match e with
  | MTap i => match nth_error (photosWithPosition m) i with
              | Some p => (handlePhotoTap p m, s)
              | None => st
              end
  | MClose => (handleClose m, s)
  | MSwipe d => (handleSwipe d (List.length photos) m, s)
  | MEffect => (memory_effect photos m, s)
  | MDoubleTap now x y rnd => handleDoubleTap now x y rnd m s
  | MFire => match fire s with
             | Some (t, s') => match t_cb t with HeartsExpire nh => (hearts_expire nh m, s') end
             | None => st
             end
  end.

(** ** The orbit's render (lines 159-244) *)

(** A card of the orbit: keyed by the photo's id, at its position, its
    entrance delayed by [i * 0.2] s and its shimmer by [i * 0.5] s, and,
    for every photo but the last, the "light particle" line drawn from
    the card's centre to [(x2%, y2%)] of the card's own box. *)
Record orbit_card := OrbitCard {
  oc_key : nat; oc_pos : R * R; oc_delay : R; oc_shimmer : R; oc_line : option (R * R)
}.

(** [x2 = ((photosWithPosition[i + 1].angle - photo.angle) * 180) / Math.PI],
    [y2 = photo.distance]. *)
Definition orbit_line (p q : mphoto) : R * R :=
  (((p_angle q - p_angle p) * 180 / PI)%R, p_distance p).

(** The default of an index read; every read below is in range. *)
Definition no_photo : mphoto := Positioned (Photo String.EmptyString String.EmptyString String.EmptyString) 0 0%R 0%R.

(** [photosWithPosition.map((photo, i) => ...)] *)
Definition orbit_cards (pwp : list mphoto) : list orbit_card :=
  map (fun i => let p := nth i pwp no_photo in
                OrbitCard (p_id p) (photo_xy p) (INR i * 0.2)%R (INR i * 0.5)%R
                  (if Nat.ltb i (List.length pwp - 1)
                   then Some (orbit_line p (nth (i + 1) pwp no_photo)) else None))
      (seq 0 (List.length pwp)).

(** Lines 384-401: a rising heart per entry of [miniHearts], keyed by its
    id, at [left: heart.x, top: heart.y]. *)
Record heart_el := HeartEl { he_key : Z; he_left : R; he_top : R }.

Definition hearts_view (m : memory) : list heart_el :=
  map (fun h => HeartEl (h_id h) (h_x h) (h_y h)) (miniHearts m).

(** The reference the swipe buttons implement: the modal as a cursor on
    a ring of [len] photos, moved by one with the Euclidean modulo. *)
Definition delta (d : direction) : Z := match d with SwipeLeft => (-1)%Z | SwipeRight => 1%Z end.

Definition rotate (d : direction) (c len : Z) : Z := Z.modulo (c + delta d) len.

(** The modal's invariant: the orbit is laid out from [photos], the index
    is a position of it, and the photo in the modal is the one at
    [currentIndex]. *)
Definition memory_inv (photos : list photo) (m : memory) : Prop :=
  photosWithPosition m = Layout.photosWithPosition photos /\
  (exists c, currentIndex m = Some c /\ (0 <= c < Z.of_nat (Nat.max 1 (List.length photos)))%Z) /\
  (forall p, expandedPhoto m = Some p ->
     nth_error (photosWithPosition m) (p_id p) = Some p /\
     currentIndex m = Some (Z.of_nat (p_id p))).

(** ** Swipe arithmetic *)

Local Open Scope Z_scope.
Local Open Scope bool_scope.

Lemma js_rem_nonneg a b : 0 <= a -> 0 < b -> js_rem a b = Some (a mod b).
Proof.
  intros Ha Hb. unfold js_rem. destruct (Z.eqb_spec b 0); [lia|].
  rewrite Z.rem_mod_nonneg by lia. reflexivity.
Qed.

Lemma newIndex_right c len :
  0 <= c -> 0 < len -> newIndex SwipeRight (Some c) len = Some ((c + 1) mod len).
Proof. intros Hc Hl. apply js_rem_nonneg; lia. Qed.

Lemma newIndex_left c len :
  0 <= c -> 0 < len -> newIndex SwipeLeft (Some c) len = Some ((c - 1 + len) mod len).
Proof. intros Hc Hl. apply js_rem_nonneg; lia. Qed.

Lemma mod_bound_nonneg a b : 0 < b -> 0 <= a mod b < b.
Proof. intros Hb. apply Z.mod_pos_bound. exact Hb. Qed.

Lemma iter_swipe_right len c k :
  0 <= c < len ->
  iter k (fun o => newIndex SwipeRight o len) (Some c) = Some ((c + Z.of_nat k) mod len).
Proof.
  intros Hc. induction k as [|k IH].
  - simpl. rewrite Z.add_0_r, Z.mod_small by lia. reflexivity.
  - rewrite iter_S_r, IH. pose proof (mod_bound_nonneg (c + Z.of_nat k) len ltac:(lia)).
    rewrite newIndex_right by lia. rewrite Z.add_mod_idemp_l by lia.
    rewrite Nat2Z.inj_succ, <- Z.add_1_r, Z.add_assoc. reflexivity.
Qed.

Lemma photosWithPosition_nth (photos : list photo) k (p : mphoto) :
  nth_error (Layout.photosWithPosition photos) k = Some p -> p_id p = k.
Proof.
  intros H. pose proof (proj1 (orbit_positions_from (List.length photos) photos 0)) as Hids.
  change (map (@p_id photo) (Layout.photosWithPosition photos) = seq 0 (List.length photos)) in Hids.
  assert (Hk : nth_error (map p_id (Layout.photosWithPosition photos)) k = Some (p_id p))
    by (rewrite nth_error_map, H; reflexivity).
  rewrite Hids, nth_error_seq in Hk.
  destruct (Nat.ltb_spec k (List.length photos)); [injection Hk as Hk; lia|discriminate].
Qed.

Lemma photosWithPosition_length (photos : list photo) :
  List.length (Layout.photosWithPosition photos) = List.length photos.
Proof.
  unfold Layout.photosWithPosition. rewrite length_map, length_combine, length_seq. lia.
Qed.

(** The modal shows the photo at a valid index. *)
Lemma js_index_photos (photos : list photo) c :
  0 <= c < Z.of_nat (List.length photos) ->
  exists p, js_index (Layout.photosWithPosition photos) (Some c) = Some p /\
            nth_error (Layout.photosWithPosition photos) (p_id p) = Some p /\
            Z.of_nat (p_id p) = c.
Proof.
  intros Hc. unfold js_index. destruct (Z.leb_spec 0 c); [|lia].
  destruct (nth_error (Layout.photosWithPosition photos) (Z.to_nat c)) as [p|] eqn:E.
  - exists p. pose proof (photosWithPosition_nth _ _ _ E) as Hid.
    split; [reflexivity|]. rewrite Hid. split; [exact E|lia].
  - apply nth_error_None in E. rewrite photosWithPosition_length in E. lia.
Qed.

Lemma newIndex_range d c len :
  0 <= c -> 0 < len -> exists c', newIndex d (Some c) len = Some c' /\ 0 <= c' < len.
Proof.
  intros Hc Hl. destruct d; [rewrite newIndex_left by lia|rewrite newIndex_right by lia];
    eexists; split; [reflexivity|apply mod_bound_nonneg; lia|reflexivity|apply mod_bound_nonneg; lia].
Qed.

(** A photo of the orbit at index [k] has id [k], the angle of [k] and
    the orbit's distance. *)
Lemma photosWithPosition_at (photos : list photo) k :
  (k < List.length photos)%nat ->
  let p := nth k (Layout.photosWithPosition photos) no_photo in
  p_id p = k /\ p_angle p = orbit_angle (List.length photos) k /\ p_distance p = orbit_distance.
Proof.
  intros Hk p.
  assert (Hn : nth_error (Layout.photosWithPosition photos) k = Some p)
    by (apply nth_error_nth'; rewrite photosWithPosition_length; exact Hk).
  pose proof (photosWithPosition_nth _ _ _ Hn) as Hid.
  apply nth_error_In in Hn. unfold Layout.photosWithPosition in Hn.
  apply in_map_iff in Hn as ([i ph] & Hp & _).
  rewrite <- Hp in Hid |- *. cbn [p_id p_angle p_distance] in Hid |- *. subst i. auto.
Qed.

Definition memory_run (photos : list photo) (es : list memory_event)
    (st : memory * sched memory_cb) : memory * sched memory_cb :=
  fold_left (fun st e => memory_step photos e st) es st.

Lemma memory_step_inv photos e m s :
  (0 < List.length photos)%nat -> memory_inv photos m ->
  memory_inv photos (fst (memory_step photos e (m, s))).
Proof.
  intros Hlen Hinv. pose proof Hinv as (Hpwp & (c & Hc & Hr) & Hexp).
  rewrite Nat.max_r in Hr by lia.
  destruct e as [i| |d| |now x y rnd|]; cbn [memory_step].
  - destruct (nth_error (photosWithPosition m) i) as [p|] eqn:E; [|exact Hinv].
    rewrite Hpwp in E. pose proof (photosWithPosition_nth _ _ _ E) as Hid.
    assert (Hi : (i < List.length photos)%nat)
      by (rewrite <- (photosWithPosition_length photos); apply nth_error_Some; congruence).
    split; [exact Hpwp|]. split; [exists (Z.of_nat (p_id p)); split; [reflexivity|rewrite Nat.max_r; lia]|].
    intros q Hq. cbn in Hq. injection Hq as <-. cbn. rewrite Hpwp, Hid. split; [exact E|reflexivity].
  - split; [exact Hpwp|]. split; [exists c; split; [exact Hc|rewrite Nat.max_r; lia]|]. discriminate.
  - unfold handleSwipe. rewrite Hc, Hpwp.
    destruct (newIndex_range d c (Z.of_nat (List.length photos))) as (c' & Hc' & Hr'); [lia|lia|].
    rewrite Hc'. destruct (js_index_photos photos c' Hr') as (p & Hp & Hnth & Hpid). rewrite Hp.
    split; [reflexivity|]. split; [exists c'; split; [reflexivity|rewrite Nat.max_r; lia]|].
    intros q Hq. cbn in Hq. injection Hq as <-. cbn. rewrite Hpid. split; [exact Hnth|reflexivity].
  - split; [reflexivity|]. split; [exists c; split; [exact Hc|rewrite Nat.max_r; lia]|].
    intros p Hp. destruct (Hexp p Hp) as [H1 H2]. change (nth_error (Layout.photosWithPosition photos) (p_id p) = Some p /\ currentIndex m = Some (Z.of_nat (p_id p))).
    rewrite <- Hpwp. split; [exact H1|exact H2].
  - exact Hinv.
  - destruct (fire s) as [[t s']|]; [destruct (t_cb t)|]; exact Hinv.
Qed.

Lemma existsb_seq_ids now a n k :
  existsb (fun i => (now + Z.of_nat i =? k)) (seq a n) =
  (now + Z.of_nat a <=? k) && (k <? now + Z.of_nat a + Z.of_nat n).
Proof.
  revert a; induction n as [|n IH]; intros a; simpl.
  - destruct (Z.leb_spec (now + Z.of_nat a) k), (Z.ltb_spec k (now + Z.of_nat a + 0)); simpl;
      (reflexivity || lia).
  - rewrite IH. rewrite Nat2Z.inj_succ.
    destruct (Z.eqb_spec (now + Z.of_nat a) k), (Z.leb_spec (now + Z.succ (Z.of_nat a)) k),
      (Z.ltb_spec k (now + Z.succ (Z.of_nat a) + Z.of_nat n)), (Z.leb_spec (now + Z.of_nat a) k),
      (Z.ltb_spec k (now + Z.of_nat a + Z.pos (Pos.of_succ_nat n))); simpl; (reflexivity || lia).
Qed.

Lemma existsb_new_hearts now x y rnd k :
  existsb (fun n => (h_id n =? k)) (new_hearts now x y rnd) = (now <=? k) && (k <? now + 10).
Proof. unfold new_hearts. rewrite existsb_map_comm. cbn [h_id]. rewrite existsb_seq_ids. simpl Z.of_nat. rewrite !Z.add_0_r. reflexivity. Qed.

Lemma hearts_expire_app nh st l1 l2 :
  miniHearts st = l1 ++ l2 ->
  miniHearts (hearts_expire nh st) =
  List.filter (fun h => negb (existsb (fun n => (h_id n =? h_id h)) nh)) l1 ++
  List.filter (fun h => negb (existsb (fun n => (h_id n =? h_id h)) nh)) l2.
Proof. intros H. unfold hearts_expire; cbn [miniHearts]. rewrite H, filter_app. reflexivity. Qed.

(** ** Theorems *)

(** C26. Swiping is a rotation of the photos: with [len > 0] photos and
    the index in range, "Next" then "Prev" (or "Prev" then "Next") comes
    back to the same photo, every swipe stays in [0, len), [len] swipes
    "Next" go round once; with no photos the index becomes NaN. *)
Theorem swipe_roundtrip len c :
  0 <= c < len ->
  newIndex SwipeLeft (newIndex SwipeRight (Some c) len) len = Some c /\
  newIndex SwipeRight (newIndex SwipeLeft (Some c) len) len = Some c /\
  (forall d c', newIndex d (Some c) len = Some c' -> 0 <= c' < len) /\
  iter (Z.to_nat len) (fun o => newIndex SwipeRight o len) (Some c) = Some c /\
  (forall d, newIndex d (Some c) 0 = None).
Proof.
  intros Hc.
  split; [|split; [|split; [|split]]].
  - rewrite newIndex_right by lia. pose proof (mod_bound_nonneg (c + 1) len ltac:(lia)).
    rewrite newIndex_left by lia.
    replace ((c + 1) mod len - 1 + len) with ((c + 1) mod len + (len - 1)) by ring.
    rewrite Z.add_mod_idemp_l by lia.
    replace (c + 1 + (len - 1)) with (c + 1 * len) by ring.
    rewrite Z.mod_add, Z.mod_small by lia. reflexivity.
  - rewrite newIndex_left by lia. pose proof (mod_bound_nonneg (c - 1 + len) len ltac:(lia)).
    rewrite newIndex_right by lia. rewrite Z.add_mod_idemp_l by lia.
    replace (c - 1 + len + 1) with (c + 1 * len) by ring.
    rewrite Z.mod_add, Z.mod_small by lia. reflexivity.
  - intros [] c' H; [rewrite newIndex_left in H by lia|rewrite newIndex_right in H by lia];
      injection H as <-; apply mod_bound_nonneg; lia.
  - rewrite iter_swipe_right, Z2Nat.id by lia.
    replace (c + len) with (c + 1 * len) by ring. rewrite Z.mod_add, Z.mod_small by lia. reflexivity.
  - intros []; reflexivity.
Qed.
(** C30. The "light particle" lines of the orbit do not connect the
    photos: for [n] photos, every card but the last draws its line to the
    same point [(360 / n %, 150 %)] of its own box, whatever its place on
    the orbit, and the last card draws none. *)
Theorem orbit_lines_parallel (photos : list photo) :
  map oc_line (orbit_cards (Layout.photosWithPosition photos)) =
  map (fun i => if Nat.ltb i (List.length photos - 1)
                then Some ((360 / INR (List.length photos))%R, 150%R) else None)
      (seq 0 (List.length photos)).
Proof.
  unfold orbit_cards. rewrite photosWithPosition_length, map_map.
  apply map_ext_in. intros i Hi. apply in_seq in Hi. cbn [oc_line].
  destruct (Nat.ltb_spec i (List.length photos - 1)) as [Hlt|]; [|reflexivity].
  destruct (photosWithPosition_at photos i ltac:(lia)) as (_ & Ha & Hd).
  destruct (photosWithPosition_at photos (i + 1) ltac:(lia)) as (_ & Ha' & _).
  unfold orbit_line. rewrite Ha, Ha', Hd. unfold orbit_angle, orbit_distance. f_equal. f_equal.
  rewrite plus_INR. simpl INR at 2.
  assert (0 < INR (List.length photos))%R by (apply lt_0_INR; lia).
  pose proof PI_RGT_0. field. lra.
Qed.

(** C28. The modal always shows the photo at [currentIndex]: after the
    mount effect, whatever taps, closes, swipes, effect re-runs, double
    taps and timer firings happen, [currentIndex] is a valid position and
    an open modal holds the photo of the orbit at that position. *)
Theorem memory_modal_consistent photos es s :
  (0 < List.length photos)%nat ->
  memory_inv photos (fst (memory_run photos es (memory_effect photos memory_init, s))).
Proof.
  intros Hlen. unfold memory_run.
  assert (H0 : memory_inv photos (memory_effect photos memory_init)).
  { split; [reflexivity|]. split; [exists 0; split; [reflexivity|lia]|discriminate]. }
  revert H0. generalize (memory_effect photos memory_init) as m. revert s.
  induction es as [|e es IH]; intros s m H; [exact H|]. cbn [fold_left].
  destruct (memory_step photos e (m, s)) as [m' s'] eqn:E.
  apply IH. change m' with (fst (m', s')). rewrite <- E. apply memory_step_inv; assumption.
Qed.

Lemma memory_modal_consistent_witness :
  (0 < List.length Data.photos)%nat /\
  memory_inv Data.photos (fst (memory_run Data.photos [MTap 3; MSwipe SwipeRight; MSwipe SwipeLeft; MClose]
                                 (memory_effect Data.photos memory_init, @sched_init memory_cb))).
Proof.
  assert (H : (0 < List.length Data.photos)%nat) by (simpl; lia).
  split; [exact H|apply memory_modal_consistent, H].
Defined.
(** C27. Equivalence of the swipe with the ring rotation: with photos
    and a non-negative [currentIndex] [c], [handleSwipe]'s JavaScript
    formula ([(c + 1) % len], [(c - 1 + len) % len]) is the rotation
    [(c +/- 1) mod len] of the reference, and the modal shows the orbit
    photo at that position; the rest of the state is unchanged. *)
Theorem swipe_is_rotation d len m c :
  (0 < len)%nat -> currentIndex m = Some c -> 0 <= c ->
  handleSwipe d len m =
  Memory (nth_error (photosWithPosition m) (Z.to_nat (rotate d c (Z.of_nat len))))
         (Some (rotate d c (Z.of_nat len))) (photosWithPosition m) (miniHearts m).
Proof.
  intros Hlen Hc Hc0. unfold handleSwipe. rewrite Hc.
  assert (Hni : newIndex d (Some c) (Z.of_nat len) = Some (rotate d c (Z.of_nat len))).
  { unfold rotate, delta. destruct d.
    - rewrite newIndex_left by lia. f_equal.
      replace (c - 1 + Z.of_nat len) with (c + -1 + 1 * Z.of_nat len) by ring.
      apply Z.mod_add. lia.
    - rewrite newIndex_right by lia. reflexivity. }
  rewrite Hni. unfold js_index.
  destruct (Z.leb_spec 0 (rotate d c (Z.of_nat len))) as [_|Hneg]; [reflexivity|].
  exfalso. unfold rotate in Hneg. pose proof (mod_bound_nonneg (c + delta d) (Z.of_nat len)). lia.
Qed.

(** Two double taps less than 10 ms apart render hearts with the same
    key: the [Date.now() + i] ids of the two batches overlap, and React
    sees duplicate keys. *)
Lemma double_tap_duplicate_keys now d x y rnd x' y' rnd' m s :
  (d < 10)%nat ->
  let '(m1, s1) := handleDoubleTap now x y rnd m s in
  let '(m2, _) := handleDoubleTap (now + Z.of_nat d) x' y' rnd' m1 s1 in
  ~ List.NoDup (map he_key (hearts_view m2)).
Proof.
  intros Hd. cbn [handleDoubleTap]. unfold hearts_view. cbn [miniHearts]. rewrite map_map. cbn [he_key].
  rewrite <- app_assoc, !map_app. intros Hn. apply NoDup_app_remove_l in Hn.
  unfold new_hearts at 2 in Hn. rewrite map_map in Hn. cbn [h_id seq map] in Hn.
  apply NoDup_remove_2 in Hn. apply Hn, in_or_app. left.
  unfold new_hearts. rewrite map_map. apply in_map_iff. exists d. cbn [h_id].
  split; [lia|apply in_seq; lia].
Qed.

(** C29. The hearts of a double tap disappear with their own timeout:
    a double tap at [now] while every heart shown has an older id, then a
    second one [d] ms later; when the first batch's timeout runs, the
    hearts shown before remain, the first batch is gone, and of the second
    batch exactly its last [min d 10] hearts remain: ids [Date.now() + i]
    of two double taps less than 10 ms apart collide, and the first
    timeout removes [10 - d] hearts of the second batch early. *)
Theorem double_tap_batches now d x y rnd x' y' rnd' m s :
  (forall h, In h (miniHearts m) -> h_id h < now) ->
  let '(m1, s1) := handleDoubleTap now x y rnd m s in
  let '(m2, _) := handleDoubleTap (now + Z.of_nat d) x' y' rnd' m1 s1 in
  miniHearts (hearts_expire (new_hearts now x y rnd) m2) =
  miniHearts m ++ skipn (10 - d) (new_hearts (now + Z.of_nat d) x' y' rnd').
Proof.
  intros Hold. cbn [handleDoubleTap].
  rewrite (hearts_expire_app _ _ (miniHearts m ++ new_hearts now x y rnd)
             (new_hearts (now + Z.of_nat d) x' y' rnd')) by reflexivity.
  rewrite filter_app. rewrite <- app_assoc. f_equal.
  - apply filter_id_of_true. intros h Hh. rewrite existsb_new_hearts.
    specialize (Hold h Hh). destruct (Z.leb_spec now (h_id h)); [lia|reflexivity].
  - rewrite (filter_nil_of_false _ (new_hearts now x y rnd)), app_nil_l.
    + set (nh1 := new_hearts now x y rnd). unfold new_hearts. rewrite filter_map_comm, skipn_map. f_equal. cbn [h_id].
      rewrite skipn_seq_gen, Nat.add_0_l.
      transitivity (List.filter (fun j => (10 - d <=? j)%nat && (j <? 10)%nat) (seq 0 10)).
      * apply filter_ext_in. intros j Hj. apply in_seq in Hj. unfold nh1. rewrite existsb_new_hearts.
        destruct (Z.leb_spec now (now + Z.of_nat d + Z.of_nat j)),
          (Z.ltb_spec (now + Z.of_nat d + Z.of_nat j) (now + 10)),
          (Nat.leb_spec (10 - d) j), (Nat.ltb_spec j 10); simpl; (reflexivity || lia).
      * rewrite filter_seq_window by lia. f_equal. lia.
    + intros h Hh. rewrite existsb_new_hearts. unfold new_hearts in Hh.
      apply in_map_iff in Hh as (j & <- & Hj). apply in_seq in Hj. cbn [h_id].
      destruct (Z.leb_spec now (now + Z.of_nat j)), (Z.ltb_spec (now + Z.of_nat j) (now + 10));
        simpl; (reflexivity || lia).
Qed.

Lemma double_tap_batches_witness :
  (forall h, In h (miniHearts memory_init) -> h_id h < 1000) /\
  let '(m1, s1) := handleDoubleTap 1000 0%R 0%R (fun _ => (0%R, 0%R)) memory_init (@sched_init memory_cb) in
  let '(m2, _) := handleDoubleTap (1000 + Z.of_nat 4) 0%R 0%R (fun _ => (0%R, 0%R)) m1 s1 in
  miniHearts (hearts_expire (new_hearts 1000 0%R 0%R (fun _ => (0%R, 0%R))) m2) =
  miniHearts memory_init ++ skipn (10 - 4) (new_hearts (1000 + Z.of_nat 4) 0%R 0%R (fun _ => (0%R, 0%R))).
Proof.
  assert (H : forall h, In h (miniHearts memory_init) -> h_id h < 1000) by (intros h []).
  split; [exact H|exact (double_tap_batches 1000 4 0%R 0%R _ 0%R 0%R _ memory_init (@sched_init memory_cb) H)].
Defined.
Lemma swipe_roundtrip_witness :
  0 <= 12 < 13 /\
  newIndex SwipeLeft (newIndex SwipeRight (Some 12) 13) 13 = Some 12.
Proof.
  assert (H : 0 <= 12 < 13) by lia.
  split; [exact H|exact (proj1 (swipe_roundtrip 13 12 H))].
Defined.
Lemma swipe_is_rotation_witness :
  (0 < List.length photos)%nat /\
  currentIndex (memory_effect photos memory_init) = Some 0 /\
  currentIndex (handleSwipe SwipeLeft (List.length photos) (memory_effect photos memory_init)) = Some 12.
Proof.
  assert (H1 : (0 < List.length photos)%nat) by (cbn; lia).
  assert (H2 : currentIndex (memory_effect photos memory_init) = Some 0) by reflexivity.
  split; [exact H1|split; [exact H2|]].
  rewrite (swipe_is_rotation SwipeLeft _ _ 0 H1 H2 ltac:(lia)). reflexivity.
Defined.

End MemoryUniverse.
