(* ===== verification/Intro.v ===== *)
(** * Scene1Intro: the delayed button and the gyroscope tilt

    State: [showButton] and [gyroPermission] (lines 13-14) and the two
    motion values [rotateX], [rotateY] (lines 16-17).  The mount effect
    (lines 19-39) asks iOS for the orientation permission when
    [DeviceOrientationEvent.requestPermission] exists (the promise settles
    later: "granted" sets [gyroPermission], another answer or a rejection
    changes nothing) and grants it at once otherwise; it arms a 5 s
    timeout that shows the button, cleared at unmount.  The second effect
    (lines 41-55) listens to [deviceorientation] while [gyroPermission]
    holds and sets the tilt to a tenth of [beta] and [gamma] when both are
    present.  The button (lines 236-244) calls [onComplete]. *)

From Stdlib Require Import List Reals Lra Lia ZArith String Ascii.
From S2P Require Import Prelude Text Timers.
Import ListNotations.
Local Open Scope R_scope.

Record intro := Intro { showButton : bool; gyroPermission : bool; rotateX : R; rotateY : R }.

(** Whether the browser has [DeviceOrientationEvent.requestPermission]. *)
Inductive perm_api := NoRequestPermission | RequestPermission.

(** How the permission promise settles. *)
Inductive perm_outcome := Granted | Denied | Rejected.

Inductive intro_cb := ShowButton.

Definition button_delay_ms : nat := 5000.

(** The first effect at mount: the permission request (or the grant) and
    the button timeout; the boolean says a permission promise is pending. *)
Definition intro_mount (api : perm_api) (s : sched intro_cb) : intro * sched intro_cb * bool :=
  let s' := snd (setTimeout ShowButton button_delay_ms s) in
  match api with
  | NoRequestPermission => (Intro false true 0 0, s', false)
  | RequestPermission => (Intro false false 0 0, s', true)
  end.

(** [.then((response) => { if (response === "granted") setGyroPermission(true) })]
    and [.catch(console.error)]. *)
Definition intro_permission (o : perm_outcome) (st : intro) : intro :=
  match o with
  | Granted => Intro (showButton st) true (rotateX st) (rotateY st)
  | Denied | Rejected => st
  end.

(** [handleOrientation], registered only while [gyroPermission] holds;
    [None] is a [null] angle. *)
Definition handleOrientation (beta gamma : option R) (st : intro) : intro :=
  if gyroPermission st then
    match beta, gamma with
    | Some b, Some g => Intro (showButton st) (gyroPermission st) (b * 0.1) (g * 0.1)
    | _, _ => st
    end
  else st.

(** The timeout closure [() => setShowButton(true)]. *)
Definition intro_timer (c : intro_cb) (st : intro) : intro :=
  match c with ShowButton => Intro true (gyroPermission st) (rotateX st) (rotateY st) end.

(** The scene's events: the permission promise settling, an orientation
    event, the event loop firing a timer, a click where the button is. *)
Inductive intro_event :=
| IPermission (o : perm_outcome)
| IOrientation (beta gamma : option R)
| IFire
| IClick.

(** scene state, timer queue, permission promise pending, [onComplete] calls *)
Definition intro_sys : Type := (intro * sched intro_cb * bool * nat)%type.

Definition intro_step (e : intro_event) (st : intro_sys) : intro_sys :=
  let '(i, s, p, k) := st in
  match e with
  | IPermission o => if p then (intro_permission o i, s, false, k) else st
  | IOrientation b g => (handleOrientation b g i, s, p, k)
  | IFire => match fire s with
             | Some (t, s') => (intro_timer (t_cb t) i, s', p, k)
             | None => st
             end
  | IClick => if showButton i then (i, s, p, S k) else st
  end.

Definition intro_run (es : list intro_event) (st : intro_sys) : intro_sys :=
  fold_left (fun st e => intro_step e st) es st.

Definition intro_sys_init (api : perm_api) (t0 : nat) : intro_sys :=
  let '(i, s, p) := intro_mount api (Sched t0 1 []) in (i, s, p, 0%nat).

(** A [deviceorientation] event's angles are in the ranges the
    specification of the event gives: [beta] in [-180, 180], [gamma] in
    [-90, 90]. *)
Definition angle_ok (beta gamma : option R) : Prop :=
  (forall b, beta = Some b -> -180 <= b <= 180) /\ (forall g, gamma = Some g -> -90 <= g <= 90).

Definition event_ok (e : intro_event) : Prop :=
  match e with IOrientation b g => angle_ok b g | _ => True end.

Definition tilt_ok (i : intro) : Prop := -18 <= rotateX i <= 18 /\ -9 <= rotateY i <= 9.

(** ** The render *)

(** [useTransform([rotateX, rotateY], ...)] (lines 57-60), the photo's
    [perspective(1000px) rotateX(x deg) rotateY(y deg)]. *)
Record transform := Transform { tf_perspective : R; tf_rotateX : R; tf_rotateY : R }.

Definition intro_transform (i : intro) : transform := Transform 1000 (rotateX i) (rotateY i).

(** Lines 84-101: five light rays, ray [i] turned by [-30 + i * 15]
    degrees, its pulse delayed by [i * 0.5] s. *)
Record ray := Ray { ray_rotate : Z; ray_delay : R }.

Definition light_rays : list ray :=
  map (fun i => Ray (-30 + Z.of_nat i * 15)%Z (INR i * 0.5)) (seq 0 5).

(** The UTF-16 code units of the literal of line 185, "Happy 1st Wedding
    Anniversary " and the heart emoji: U+2764 (heavy black heart) and
    U+FE0F (variation selector 16) each fit in one unit. *)
Definition title_literal : list Z :=
  ascii_cps "Happy 1st Wedding Anniversary " ++ heart_emoji.

(** Line 185: [Array.from] of the literal, iterated by code point. *)
Definition title_text : list Z := array_from title_literal.

(** One animated inline-block span per code point (lines 186-205): a
    space is written as a no-break space ([\u00A0]), and the span's
    entrance is delayed by [1.5 + i * 0.05] s. *)
Record title_span := TitleSpan { ch_char : Z; ch_delay : R }.

Definition nbsp : Z := 160.

Definition title_spans : list title_span :=
  map (fun i => let c := nth i title_text 0%Z in
                TitleSpan (if Z.eqb c 32 then nbsp else c) (1.5 + INR i * 0.05))
      (seq 0 (List.length title_text)).

(** The render's dynamic parts: the tilted photo, the rays, the counts
    passed to RosePetals, SparkleEffect and FloatingParticles (lines
    106-112), the title and the call-to-action (line 236). *)
Record intro_view := IntroView {
  iv_transform : transform; iv_rays : list ray;
  iv_petals : nat; iv_sparkles : nat; iv_particles : nat;
  iv_title : list title_span; iv_button : bool
}.

Definition render_intro (i : intro) : intro_view :=
  IntroView (intro_transform i) light_rays 15 25 20 title_spans (showButton i).

(** ** Theorems *)

Definition intro_of (st : intro_sys) : intro := let '(i, _, _, _) := st in i.

Lemma intro_step_tilt e st :
  event_ok e -> tilt_ok (intro_of st) -> tilt_ok (intro_of (intro_step e st)).
Proof.
  destruct st as [[[i s] p] k]. cbn [intro_of]. intros He Ht.
  destruct e as [o|b g| |]; cbn [intro_step].
  - destruct p; [destruct o|]; exact Ht.
  - cbn [intro_of]. unfold handleOrientation. destruct (gyroPermission i); [|exact Ht].
    destruct b as [b|], g as [g|]; try exact Ht. destruct He as [Hb Hg].
    specialize (Hb b eq_refl). specialize (Hg g eq_refl). unfold tilt_ok; cbn [rotateX rotateY]. lra.
  - destruct (fire s) as [[t s']|]; [destruct (t_cb t); exact Ht|exact Ht].
  - destruct (showButton i); exact Ht.
Qed.

Lemma intro_run_app es1 es2 st : intro_run (es1 ++ es2) st = intro_run es2 (intro_run es1 st).
Proof. apply fold_left_app. Qed.

Lemma no_grant_keeps_still es st :
  (forall o, In (IPermission o) es -> o <> Granted) ->
  gyroPermission (intro_of st) = false /\ rotateX (intro_of st) = 0 /\ rotateY (intro_of st) = 0 ->
  let i := intro_of (intro_run es st) in
  gyroPermission i = false /\ rotateX i = 0 /\ rotateY i = 0.
Proof.
  unfold intro_run. revert st; induction es as [|e es IH]; intros st Hno H; [exact H|].
  cbn [fold_left]. apply IH; [intros o Ho; apply Hno; right; exact Ho|].
  destruct st as [[[i s] p] k]. cbn [intro_of] in H. destruct H as (Hg & Hx & Hy).
  destruct e as [o|b g| |]; cbn [intro_step].
  - destruct p; [|cbn; auto].
    destruct o; [exfalso; apply (Hno Granted); [left; reflexivity|reflexivity]|cbn; auto|cbn; auto].
  - unfold handleOrientation. rewrite Hg. cbn; auto.
  - destruct (fire s) as [[t s']|]; [destruct (t_cb t)|]; cbn; auto.
  - destruct (showButton i); cbn; auto.
Qed.

(** Every unit of the title's literal is a code point of the Basic
    Multilingual Plane, so [Array.from] yields the units themselves: the
    emoji's two units become two elements. *)
Lemma title_text_literal : title_text = title_literal.
Proof. apply array_from_bmp. vm_compute. reflexivity. Qed.

Lemma title_chars :
  map ch_char title_spans = map (fun c => if Z.eqb c 32 then nbsp else c) title_text.
Proof.
  unfold title_spans. rewrite map_map. cbn [ch_char].
  exact (map_nth_seq0 (fun c => if Z.eqb c 32 then nbsp else c) title_text 0%Z).
Qed.

Lemma title_delay i :
  (i < 32)%nat -> ch_delay (nth i title_spans (TitleSpan 0 0)) = 1.5 + INR i * 0.05.
Proof.
  intros Hi. unfold title_spans. change (List.length title_text) with 32%nat.
  rewrite nth_map_seq0 by exact Hi. reflexivity.
Qed.

(** The intro's title: [Array.from] cuts it into 32 animated spans,
    one per code point, none of them a breaking space (spaces become
    no-break spaces); the heart emoji is split across the last two spans
    (U+2764, then the variation selector U+FE0F on its own); the letters
    enter one after the other, 50 ms apart, the last at 3.05 s, before
    the button shows at 5 s; the five light rays fan out symmetrically
    from -30 to 30 degrees. *)
Theorem intro_title_render :
  List.length title_spans = 32%nat /\
  existsb (fun sp => Z.eqb (ch_char sp) 32) title_spans = false /\
  map ch_char (skipn 30 title_spans) = [10084; 65039]%Z /\
  (forall i, (S i < 32)%nat ->
     ch_delay (nth i title_spans (TitleSpan 0 0)) < ch_delay (nth (S i) title_spans (TitleSpan 0 0))) /\
  ch_delay (nth 31 title_spans (TitleSpan 0 0)) = 3.05 /\
  3.05 < INR button_delay_ms / 1000 /\
  map ray_rotate light_rays = [-30; -15; 0; 15; 30]%Z.
Proof.
  split; [unfold title_spans; rewrite length_map, length_seq; reflexivity|].
  split; [transitivity (existsb (fun c => Z.eqb c 32) (map ch_char title_spans));
          [symmetry; apply existsb_map_comm|rewrite title_chars; vm_compute; reflexivity]|].
  split; [rewrite <- skipn_map, title_chars; vm_compute; reflexivity|].
  split; [intros i Hi; rewrite !title_delay by lia; rewrite S_INR; lra|].
  split; [rewrite title_delay by lia; rewrite INR_IZR_INZ; cbn; lra|].
  split; [unfold button_delay_ms; rewrite INR_IZR_INZ; cbn; lra|reflexivity].
Qed.

(** C31. The tilt stays subtle: whatever events arrive, as long as the
    orientation events carry angles in their ranges, the photo is never
    tilted more than 18 degrees about the x axis nor 9 about the y axis. *)
Theorem tilt_bounded api t0 es :
  Forall event_ok es -> tilt_ok (intro_of (intro_run es (intro_sys_init api t0))).
Proof.
  intros Hes. assert (H0 : tilt_ok (intro_of (intro_sys_init api t0)))
    by (destruct api; unfold tilt_ok; simpl; lra).
  revert H0. unfold intro_run. generalize (intro_sys_init api t0) as st.
  induction Hes as [|e es He Hes IH]; intros st H; [exact H|]. cbn [fold_left].
  apply IH, intro_step_tilt; assumption.
Qed.

(** C32. The call to action waits for the intro: at mount the button is
    hidden and a click does nothing; the only timer fires at [t0 + 5000],
    the button shows, and a click calls [onComplete] once. *)
Theorem intro_button api t0 :
  let g := match api with NoRequestPermission => true | RequestPermission => false end in
  intro_run [IClick] (intro_sys_init api t0) = intro_sys_init api t0 /\
  intro_run [IClick; IFire; IClick] (intro_sys_init api t0) =
    (Intro true g 0 0, Sched (t0 + button_delay_ms) 2 [], negb g, 1%nat).
Proof.
  split; [destruct api; reflexivity|].
  destruct api; unfold intro_run, intro_sys_init, intro_mount, setTimeout, schedule;
    cbn [fold_left intro_step snd fst now next_id pending app showButton];
    rewrite fire_single_timeout by lia; reflexivity.
Qed.

(** C33. The tilt is gated by the permission: on a browser that asks for
    it, as long as the request has not been granted no orientation event
    moves the photo; once granted, an event with both angles sets the tilt
    to a tenth of them. *)
Theorem tilt_needs_permission t0 es b g :
  (forall o, In (IPermission o) es -> o <> Granted) ->
  let i := intro_of (intro_run es (intro_sys_init RequestPermission t0)) in
  gyroPermission i = false /\ rotateX i = 0 /\ rotateY i = 0 /\
  (let i' := intro_of (intro_run [IPermission Granted; IOrientation (Some b) (Some g)]
                                 (intro_sys_init RequestPermission t0)) in
   rotateX i' = b * 0.1 /\ rotateY i' = g * 0.1).
Proof.
  intros Hno. cbv zeta.
  assert (H0 : gyroPermission (intro_of (intro_sys_init RequestPermission t0)) = false /\
               rotateX (intro_of (intro_sys_init RequestPermission t0)) = 0 /\
               rotateY (intro_of (intro_sys_init RequestPermission t0)) = 0) by (simpl; auto).
  destruct (no_grant_keeps_still es _ Hno H0) as (H1 & H2 & H3).
  split; [exact H1|]. split; [exact H2|]. split; [exact H3|]. split; reflexivity.
Qed.

Lemma tilt_bounded_witness :
  Forall event_ok [IPermission Granted; IOrientation (Some 90) (Some (-45))] /\
  tilt_ok (intro_of (intro_run [IPermission Granted; IOrientation (Some 90) (Some (-45))]
                               (intro_sys_init RequestPermission 0))).
Proof.
  assert (H : Forall event_ok [IPermission Granted; IOrientation (Some 90) (Some (-45))]).
  { constructor; [exact I|]. constructor; [|constructor]. split; intros x Hx; injection Hx as <-; lra. }
  split; [exact H|apply tilt_bounded, H].
Defined.

Lemma tilt_needs_permission_witness :
  (forall o, In (IPermission o) [IPermission Rejected; IOrientation (Some 30) (Some 10)] -> o <> Granted) /\
  rotateX (intro_of (intro_run [IPermission Rejected; IOrientation (Some 30) (Some 10)]
                                (intro_sys_init RequestPermission 0))) = 0.
Proof.
  assert (H : forall o, In (IPermission o) [IPermission Rejected; IOrientation (Some 30) (Some 10)] -> o <> Granted).
  { intros o [Ho|[Ho|[]]]; [injection Ho as <-|]; discriminate. }
  split; [exact H|exact (proj1 (proj2 (tilt_needs_permission 0 _ 0 0 H)))].
Defined.
