(* ===== verification/Decor.v ===== *)
(** * The decorative generators

    RosePetals.tsx and SparkleEffect.tsx fill their state once per
    [count] (their effects, lines 16-26 and 15-25) with [count] items
    whose fields are affine in [Math.random()] draws, and render one
    animated element per item keyed by its id.  HiddenEasterEgg.tsx fills
    its confetti when it becomes active (lines 13-19): 50 pieces, the
    colour of piece [i] being entry [i % 5] of a five-colour palette.  The
    draws are an argument: [rnd i k] is the [k]-th [Math.random()] of item
    [i], a real in [0, 1).  The renders are modelled too: the elements
    RosePetals and SparkleEffect draw for their items, and
    HiddenEasterEgg's overlay (sparkles, falling confetti, floating
    hearts), whose own draws are made anew at every render. *)

From Stdlib Require Import List Reals Lra Lia String.
From S2P Require Import Prelude.
Import ListNotations.
Local Open Scope R_scope.

(** ** RosePetals *)

Record petal := Petal { pt_id : nat; pt_x : R; pt_delay : R; pt_duration : R; pt_rotation : R; pt_size : R }.

Definition make_petals (rnd : nat -> nat -> R) (count : nat) : list petal :=
  map (fun i => Petal i (rnd i 0%nat * 100) (rnd i 1%nat * 3) (5 + rnd i 2%nat * 3)
                      (rnd i 3%nat * 360) (20 + rnd i 4%nat * 20)) (seq 0 count).

(** A petal's keyframes: [x: [0, Math.sin(petal.id) * 50, 0]] and
    [rotate: [petal.rotation, petal.rotation + 720]]. *)
Definition petal_sway (p : petal) : list R := [0; sin (INR (pt_id p)) * 50; 0].
Definition petal_spin (p : petal) : list R := [pt_rotation p; pt_rotation p + 720].

(** Lines 27-62: one falling element per petal, keyed by its id, at
    [left: x%], falling from [0vh] to [110vh] while it sways and spins,
    for [duration] s after [delay] s, [size] px wide. *)
Record petal_el := PetalEl {
  pe_key : nat; pe_left : R; pe_sway : list R; pe_spin : list R;
  pe_duration : R; pe_delay : R; pe_size : R
}.

Definition render_petals (ps : list petal) : list petal_el :=
  map (fun p => PetalEl (pt_id p) (pt_x p) (petal_sway p) (petal_spin p)
                        (pt_duration p) (pt_delay p) (pt_size p)) ps.

(** ** SparkleEffect *)

Record sparkle := Sparkle { sp_id : nat; sp_x : R; sp_y : R; sp_delay : R; sp_scale : R }.

Definition make_sparkles (rnd : nat -> nat -> R) (count : nat) : list sparkle :=
  map (fun i => Sparkle i (rnd i 0%nat * 100) (rnd i 1%nat * 100) (rnd i 2%nat * 2)
                        (0.3 + rnd i 3%nat * 0.7)) (seq 0 count).

(** Lines 26-51: one twinkling element per sparkle, keyed by its id, at
    [(x%, y%)], scaling [0 -> scale -> 0] after [delay] s. *)
Record sparkle_el := SparkleEl { se_key : nat; se_left : R; se_top : R; se_scale : list R; se_delay : R }.

Definition render_sparkles (ss : list sparkle) : list sparkle_el :=
  map (fun s => SparkleEl (sp_id s) (sp_x s) (sp_y s) [0; sp_scale s; 0] (sp_delay s)) ss.

(** ** HiddenEasterEgg's confetti *)

Definition palette : list string := ["#FFD700"; "#FF69B4"; "#87CEEB"; "#FFB6C1"; "#FFA500"]%string.

Record confetto := Confetto { cf_id : nat; cf_x : R; cf_color : string }.

Definition make_confetti (rnd : nat -> R) : list confetto :=
  map (fun i => Confetto i (rnd i * 100) (nth (i mod 5) palette EmptyString)) (seq 0 50).

Definition draws_ok (rnd : nat -> nat -> R) : Prop := forall i k, 0 <= rnd i k < 1.

(** ** HiddenEasterEgg's render *)

(** Lines 74-92: twenty sparkles at random places of the card, the
    [i]-th pulsing after [i * 0.1] s. *)
Record egg_sparkle := EggSparkle { es_left : R; es_top : R; es_delay : R }.

(** Lines 146-165: a falling piece per entry of the [confetti] state,
    at its [x] and in its colour, spinning a full turn one way or the
    other ([Math.random() > 0.5]), drifting by up to 50 px and falling
    for 2 to 4 s. *)
Record falling := Falling {
  fl_id : nat; fl_left : R; fl_color : string; fl_rotate : R; fl_x : R; fl_duration : R
}.

(** Lines 169-191: ten floating hearts, started between 20% and 80% of
    the width, the [i]-th after [i * 0.2] s, rising for 3 to 5 s. *)
Record floating_heart := FloatingHeart {
  fh_key : nat; fh_left : R; fh_x : R; fh_delay : R; fh_duration : R
}.

Record egg_view := EggView {
  ev_sparkles : list egg_sparkle; ev_confetti : list falling; ev_hearts : list floating_heart
}.

(** The render: nothing unless [isActive] (line 31).  The render's own
    [Math.random()] draws are arguments, drawn anew at every render:
    [rs i k] for sparkle [i], [rc id k] for the piece [id], [rh i k] for
    heart [i], in the order the JSX makes them. *)
Definition render_egg (isActive : bool) (confetti : list confetto)
    (rs rc rh : nat -> nat -> R) : option egg_view :=
  if isActive then
    Some (EggView
      (map (fun i => EggSparkle (rs i 0%nat * 100) (rs i 1%nat * 100) (INR i * 0.1)) (seq 0 20))
      (map (fun c => Falling (cf_id c) (cf_x c) (cf_color c)
                       (360 * (if Rlt_dec 0.5 (rc (cf_id c) 0%nat) then 1 else -1))
                       ((rc (cf_id c) 1%nat - 0.5) * 100) (2 + rc (cf_id c) 2%nat * 2)) confetti)
      (map (fun i => FloatingHeart i (20 + rh i 0%nat * 60) ((rh i 1%nat - 0.5) * 100)
                       (INR i * 0.2) (3 + rh i 2%nat * 2)) (seq 0 10)))
  else None.

(** ** Theorems *)

Lemma map_id_seq {A} (mk : nat -> A) (id : A -> nat) n :
  (forall i, id (mk i) = i) -> map id (map mk (seq 0 n)) = seq 0 n.
Proof. intros H. rewrite map_map. rewrite (map_ext _ (fun i => i)) by exact H. apply map_id. Qed.

Lemma petals_sparkles_ranges rnd count :
  draws_ok rnd ->
  map pt_id (make_petals rnd count) = seq 0 count /\
  Forall (fun p => 0 <= pt_x p < 100 /\ 0 <= pt_delay p < 3 /\ 5 <= pt_duration p < 8 /\
                   0 <= pt_rotation p < 360 /\ 20 <= pt_size p < 40) (make_petals rnd count) /\
  map sp_id (make_sparkles rnd count) = seq 0 count /\
  Forall (fun s => 0 <= sp_x s < 100 /\ 0 <= sp_y s < 100 /\ 0 <= sp_delay s < 2 /\
                   0.3 <= sp_scale s < 1) (make_sparkles rnd count).
Proof.
  intros Hr. split; [apply map_id_seq; reflexivity|]. split; [|split; [apply map_id_seq; reflexivity|]].
  - apply Forall_map, Forall_forall. intros i _. cbn [pt_x pt_delay pt_duration pt_rotation pt_size].
    pose proof (Hr i 0%nat). pose proof (Hr i 1%nat). pose proof (Hr i 2%nat).
    pose proof (Hr i 3%nat). pose proof (Hr i 4%nat). lra.
  - apply Forall_map, Forall_forall. intros i _. cbn [sp_x sp_y sp_delay sp_scale].
    pose proof (Hr i 0%nat). pose proof (Hr i 1%nat). pose proof (Hr i 2%nat).
    pose proof (Hr i 3%nat). lra.
Qed.

Lemma INR_lt_bound i n : In i (seq 0 n) -> 0 <= INR i < INR n.
Proof.
  intros Hi. apply in_seq in Hi. split; [apply pos_INR|apply lt_INR; lia].
Qed.

Lemma egg_render_ranges conf rs rc rh v :
  draws_ok rs -> draws_ok rc -> draws_ok rh -> render_egg true conf rs rc rh = Some v ->
  List.length (ev_sparkles v) = 20%nat /\
  Forall (fun e => 0 <= es_left e < 100 /\ 0 <= es_top e < 100 /\ 0 <= es_delay e < 2) (ev_sparkles v) /\
  map (fun f => (fl_id f, fl_color f)) (ev_confetti v) = map (fun c => (cf_id c, cf_color c)) conf /\
  Forall (fun f => (fl_rotate f = 360 \/ fl_rotate f = -360) /\ -50 <= fl_x f < 50 /\
                   2 <= fl_duration f < 4) (ev_confetti v) /\
  List.length (ev_hearts v) = 10%nat /\
  Forall (fun h => 20 <= fh_left h < 80 /\ -50 <= fh_x h < 50 /\ 0 <= fh_delay h < 2 /\
                   3 <= fh_duration h < 5) (ev_hearts v).
Proof.
  intros Hs Hc Hh Hv. unfold render_egg in Hv.
  set (sp := map _ (seq 0 20)) in Hv. set (cf := map _ conf) in Hv. set (hs := map _ (seq 0 10)) in Hv.
  injection Hv as <-. cbn [ev_sparkles ev_confetti ev_hearts]. subst sp cf hs.
  split; [rewrite length_map, length_seq; reflexivity|].
  split; [apply Forall_map, Forall_forall; intros i Hi; cbn [es_left es_top es_delay];
          pose proof (INR_lt_bound i 20 Hi) as Hb; simpl in Hb;
          pose proof (Hs i 0%nat); pose proof (Hs i 1%nat); lra|].
  split; [rewrite map_map; reflexivity|].
  split; [apply Forall_map, Forall_forall; intros c _; cbn [fl_rotate fl_x fl_duration];
          pose proof (Hc (cf_id c) 1%nat); pose proof (Hc (cf_id c) 2%nat);
          destruct (Rlt_dec 0.5 (rc (cf_id c) 0%nat)); split; [left; ring|lra|right; ring|lra]|].
  split; [rewrite length_map, length_seq; reflexivity|].
  apply Forall_map, Forall_forall; intros i Hi; cbn [fh_left fh_x fh_delay fh_duration].
  pose proof (INR_lt_bound i 10 Hi) as Hb; simpl in Hb.
  pose proof (Hh i 0%nat); pose proof (Hh i 1%nat); pose proof (Hh i 2%nat). lra.
Qed.

(** The rendered petals and sparkles are keyed [0 .. count - 1], each
    petal spinning two full turns and swaying at most 50 px, each sparkle
    peaking at its scale. *)
Lemma render_decor_keys rnd count :
  map pe_key (render_petals (make_petals rnd count)) = seq 0 count /\
  Forall (fun e => exists r, pe_spin e = [r; r + 720] /\
                   exists w, pe_sway e = [0; w; 0] /\ -50 <= w <= 50) (render_petals (make_petals rnd count)) /\
  map se_key (render_sparkles (make_sparkles rnd count)) = seq 0 count.
Proof.
  unfold render_petals, render_sparkles. rewrite !map_map.
  split; [apply map_id_seq; reflexivity|split; [|apply map_id_seq; reflexivity]].
  apply Forall_map, Forall_map, Forall_forall. intros i _. cbn [pe_spin pe_sway petal_spin petal_sway pt_rotation pt_id].
  exists (rnd i 3%nat * 360). split; [reflexivity|]. exists (sin (INR i) * 50). split; [reflexivity|].
  pose proof (SIN_bound (INR i)). nra.
Qed.

(** C34. The decorations stay in their ranges, whatever the random draws:
    the falling petals and the sparkles get one item per index, keyed
    [0 .. count - 1] (distinct React keys), each petal starting within
    the width, with a delay under 3 s, a fall of 5 to 8 s, a size of 20
    to 40 px, each sparkle inside the box with a scale between 0.3 and 1;
    the easter egg renders nothing while inactive, and when active twenty
    sparkles inside its card, one falling piece per confetti entry with
    that entry's key and colour, spinning a full turn and falling for 2
    to 4 s, and ten hearts started between 20% and 80% of the width,
    rising for 3 to 5 s. *)
Theorem decor_ranges rnd count conf rs rc rh :
  draws_ok rnd -> draws_ok rs -> draws_ok rc -> draws_ok rh ->
  map pt_id (make_petals rnd count) = seq 0 count /\
  Forall (fun p => 0 <= pt_x p < 100 /\ 0 <= pt_delay p < 3 /\ 5 <= pt_duration p < 8 /\
                   0 <= pt_rotation p < 360 /\ 20 <= pt_size p < 40) (make_petals rnd count) /\
  map sp_id (make_sparkles rnd count) = seq 0 count /\
  Forall (fun s => 0 <= sp_x s < 100 /\ 0 <= sp_y s < 100 /\ 0 <= sp_delay s < 2 /\
                   0.3 <= sp_scale s < 1) (make_sparkles rnd count) /\
  render_egg false conf rs rc rh = None /\
  exists v, render_egg true conf rs rc rh = Some v /\
  List.length (ev_sparkles v) = 20%nat /\
  Forall (fun e => 0 <= es_left e < 100 /\ 0 <= es_top e < 100 /\ 0 <= es_delay e < 2) (ev_sparkles v) /\
  map (fun f => (fl_id f, fl_color f)) (ev_confetti v) = map (fun c => (cf_id c, cf_color c)) conf /\
  Forall (fun f => (fl_rotate f = 360 \/ fl_rotate f = -360) /\ -50 <= fl_x f < 50 /\
                   2 <= fl_duration f < 4) (ev_confetti v) /\
  List.length (ev_hearts v) = 10%nat /\
  Forall (fun h => 20 <= fh_left h < 80 /\ -50 <= fh_x h < 50 /\ 0 <= fh_delay h < 2 /\
                   3 <= fh_duration h < 5) (ev_hearts v).
Proof.
  intros Hr Hs Hc Hh.
  destruct (petals_sparkles_ranges rnd count Hr) as (H1 & H2 & H3 & H4).
  split; [exact H1|split; [exact H2|split; [exact H3|split; [exact H4|split; [reflexivity|]]]]].
  destruct (render_egg true conf rs rc rh) as [v|] eqn:Ev; [|discriminate].
  exists v. split; [reflexivity|exact (egg_render_ranges conf rs rc rh v Hs Hc Hh Ev)].
Qed.

(** The confetti: 50 pieces keyed [0 .. 49], the colours cycling
    through the palette with period 5, so that each of the five colours
    is worn by exactly ten pieces, whatever the random positions. *)
Theorem confetti_palette rnd :
  map cf_id (make_confetti rnd) = seq 0 50 /\
  (forall i, (i + 5 < 50)%nat ->
     cf_color (nth (i + 5) (make_confetti rnd) (Confetto 0 0 EmptyString)) =
     cf_color (nth i (make_confetti rnd) (Confetto 0 0 EmptyString))) /\
  Forall (fun c => List.length (List.filter (fun p => String.eqb (cf_color p) c) (make_confetti rnd)) = 10%nat)
         palette.
Proof.
  split; [apply map_id_seq; reflexivity|]. split.
  - intros i Hi. unfold make_confetti.
    rewrite !(nth_map_seq0 (fun i => Confetto i (rnd i * 100) (nth (i mod 5) palette EmptyString))) by lia.
    cbn [cf_color]. replace (i + 5)%nat with (i + 1 * 5)%nat by lia. rewrite Nat.Div0.mod_add. reflexivity.
  - unfold make_confetti. repeat constructor; rewrite length_filter_map; vm_compute; reflexivity.
Qed.

Lemma decor_ranges_witness :
  draws_ok (fun _ _ => 1 / 2) /\ map pt_id (make_petals (fun _ _ => 1 / 2) 15) = seq 0 15.
Proof.
  assert (H : draws_ok (fun _ _ => 1 / 2)) by (intros i k; lra).
  split; [exact H|exact (proj1 (decor_ranges _ 15 (make_confetti (fun _ => 1 / 2)) _ _ _ H H H H))].
Defined.
