(* ===== verification/Backgrounds.v ===== *)
(** * The scenes' animated backgrounds

    Every scene draws a background of repeated elements with
    [[...Array(n)].map((_, i) => ...)]: each element's fields are affine
    in its index [i] or in [Math.random()] draws made in the render body,
    so drawn anew at every render.  As in Decor, the draws are an
    argument: [rnd i k] is the [k]-th draw of element [i], a real in
    [0, 1) ([draws_ok]).  Positions are percentages of the scene's box;
    delays and durations are seconds. *)

From Stdlib Require Import List Reals Lra Lia String.
From S2P Require Import Prelude Decor.
Import ListNotations.
Local Open Scope R_scope.

(** An element floating at [left%] (and [top%] when it has one), pulsing
    or rising for [duration] s after [delay] s. *)
Record particle := Particle {
  pa_key : nat; pa_left : R; pa_top : option R; pa_delay : R; pa_duration : R
}.

(** ** Scene2PhotoJourney *)

(** Lines 66-94: six soft orbs, [200 + i * 50] px wide, alternately rose
    gold ([i % 2 === 0]) and pink, at [(20 + i * 15)%, (10 + i * 12)%],
    drifting for [8 + i] s. *)
Record orb := Orb {
  orb_key : nat; orb_size : R; orb_rose : bool; orb_left : R; orb_top : R; orb_duration : R
}.

Definition journey_orbs : list orb :=
  map (fun i => Orb i (200 + INR i * 50) (Nat.even i) (20 + INR i * 15) (10 + INR i * 12) (8 + INR i))
      (seq 0 6).

(** Lines 96-120: thirty rising sparkles at a random [left], for
    [4 + random * 3] s, the [i]-th after [i * 0.2] s. *)
Definition journey_sparkles (rnd : nat -> nat -> R) : list particle :=
  map (fun i => Particle i (rnd i 0%nat * 100) None (INR i * 0.2) (4 + rnd i 1%nat * 3)) (seq 0 30).

(** Lines 390-413: eight rising hearts at [(10 + i * 12)%], for [8 + i] s
    after [i * 1.5] s. *)
Definition journey_hearts : list particle :=
  map (fun i => Particle i (10 + INR i * 12) None (INR i * 1.5) (8 + INR i)) (seq 0 8).

(** ** Scene3GiftBox *)

(** Lines 49-69: forty twinkles at random places, each twinkling for 2 s
    after a random delay under 2 s. *)
Definition gift_aura (rnd : nat -> nat -> R) : list particle :=
  map (fun i => Particle i (rnd i 0%nat * 100) (Some (rnd i 1%nat * 100)) (rnd i 2%nat * 2) 2) (seq 0 40).

(** ** Scene4MemoryUniverse *)

(** Lines 94-113: a hundred stars at random places, twinkling for 3 s
    after a random delay under 3 s. *)
Definition memory_stars (rnd : nat -> nat -> R) : list particle :=
  map (fun i => Particle i (rnd i 0%nat * 100) (Some (rnd i 1%nat * 100)) (rnd i 2%nat * 3) 3) (seq 0 100).

(** ** Scene5Timeline *)

(** Lines 46-71: twenty hearts rising at a random [left], for [8 + random
    * 4] s after a random delay under 5 s, [20 + random * 20] px large. *)
Record bg_heart := BgHeart { bh_key : nat; bh_left : R; bh_duration : R; bh_delay : R; bh_size : R }.

Definition timeline_hearts (rnd : nat -> nat -> R) : list bg_heart :=
  map (fun i => BgHeart i (rnd i 0%nat * 100) (8 + rnd i 1%nat * 4) (rnd i 2%nat * 5) (20 + rnd i 3%nat * 20))
      (seq 0 20).

(** ** Scene6Finale *)

(** Lines 42-106: once [showLanterns] holds, fifteen lanterns rising from
    [(10 + random * 80)%], drifting by up to 50 px, for [8 + random * 4] s
    after [i * 0.5] s. *)
Record lantern := Lantern { ln_key : nat; ln_left : R; ln_x : R; ln_duration : R; ln_delay : R }.

Definition lantern_views (showLanterns : bool) (rnd : nat -> nat -> R) : list lantern :=
  if showLanterns
  then map (fun i => Lantern i (10 + rnd i 0%nat * 80) ((rnd i 1%nat - 0.5) * 100)
                             (8 + rnd i 2%nat * 4) (INR i * 0.5)) (seq 0 15)
  else [].

(** Lines 108-127: fifty golden sparkles at random places, pulsing for 3 s
    after [i * 0.1] s. *)
Definition finale_sparkles (rnd : nat -> nat -> R) : list particle :=
  map (fun i => Particle i (rnd i 0%nat * 100) (Some (rnd i 1%nat * 100)) (INR i * 0.1) 3) (seq 0 50).

(** Lines 278-301: thirty confetti pieces falling from a random [left],
    coloured by [i % 4] in a four-colour palette, turning a full turn one
    way or the other, drifting by up to 50 px, for [3 + random * 2] s after
    [i * 0.1] s. *)
Definition rain_palette : list string := ["#FFD700"; "#FF69B4"; "#87CEEB"; "#FFB6C1"]%string.

Record rain := Rain {
  rn_key : nat; rn_left : R; rn_color : string; rn_rotate : R; rn_x : R; rn_duration : R; rn_delay : R
}.

Definition finale_rain (rnd : nat -> nat -> R) : list rain :=
  map (fun i => Rain i (rnd i 0%nat * 100) (nth (i mod 4) rain_palette EmptyString)
                     (360 * (if Rlt_dec 0.5 (rnd i 1%nat) then 1 else -1))
                     ((rnd i 2%nat - 0.5) * 100) (3 + rnd i 3%nat * 2) (INR i * 0.1)) (seq 0 30).

(** ** Theorems *)

(** An element at a random place: inside the box, its delay under [dmax]. *)
Definition in_box (dmax : R) (p : particle) : Prop :=
  0 <= pa_left p < 100 /\ (forall t, pa_top p = Some t -> 0 <= t < 100) /\ 0 <= pa_delay p < dmax.

Lemma INR_lt_n i n : (i < n)%nat -> 0 <= INR i <= INR n - 1.
Proof.
  intros H. split; [apply pos_INR|]. assert (H' : (S i <= n)%nat) by lia.
  apply le_INR in H'. rewrite S_INR in H'. lra.
Qed.

(** The random backgrounds stay in their boxes: the sparkles, twinkles
    and stars of every scene start inside it, with their delays in the
    ranges their formulas allow; the lanterns start between 10% and 90%
    and only once [showLanterns] holds; each confetti piece of the
    Finale's rain turns a full turn one way or the other. *)
Lemma backgrounds_in_box rnd :
  draws_ok rnd ->
  Forall (in_box 6) (journey_sparkles rnd) /\ Forall (in_box 2) (gift_aura rnd) /\
  Forall (in_box 3) (memory_stars rnd) /\ Forall (in_box 5) (finale_sparkles rnd) /\
  lantern_views false rnd = [] /\
  Forall (fun l => 10 <= ln_left l < 90 /\ -50 <= ln_x l < 50) (lantern_views true rnd) /\
  Forall (fun r => rn_rotate r = 360 \/ rn_rotate r = -360) (finale_rain rnd).
Proof.
  intros Hr.
  repeat split; try reflexivity; apply Forall_map_seq0; intros i Hi;
    pose proof (Hr i 0%nat); pose proof (Hr i 1%nat); pose proof (Hr i 2%nat);
    pose proof (INR_lt_n i _ Hi) as Hb; simpl INR in Hb;
    repeat split; cbn [pa_left pa_top pa_delay ln_left ln_x rn_rotate] in *;
    try (intros t Ht; injection Ht as <-); try discriminate; try lra.
  all: try (match goal with H : Some _ = Some _ |- _ => injection H as <- end; lra).
  destruct (Rlt_dec 0.5 (rnd i 1%nat)); [left|right]; ring.
Qed.
