(* ===== verification/App.v ===== *)
(** * App: the scenes composed with the sequencer

    App.tsx renders the scene the sequencer names and passes it a
    callback ([handleSceneComplete], or [handleReplay] for the Finale).
    The completion contract between a scene and the sequencer is the
    class [SceneModel]: a scene has a state, events, a state at mount and
    a step that says whether the scene called its callback.  The six
    scene components are instances of it, built from their models in the
    other files; App's state is the sequencer's [presence] and the state
    of the one scene instance in the tree (the exiting one during an exit
    animation).  A callback runs the sequencer's operation; when the
    sequencer mounts a new instance, its state starts from the scene's
    mount state.  An unmounted instance has no state left, so its late
    callbacks (a timeout React still runs) change nothing, as React 18
    ignores state updates of unmounted components.

    Each scene's timers run in its own queue, from time 0 at its mount.
    Scene1Intro is the browser without [requestPermission]. *)

From Stdlib Require Import List Lia Arith.
From stdpp Require Import base decidable tactics.
From S2P Require Import Prelude Timers Sequencer Data Carousel GiftBox Timeline Finale Memory Intro.
Import ListNotations.

(** ** The completion contract *)

Class SceneModel (sc : scene) := {
  sm_state : Type;
  sm_event : Type;
  sm_mount : sm_state;
  sm_step : sm_event -> sm_state -> sm_state * bool
}.
Arguments sm_state sc {_}.
Arguments sm_event sc {_}.
Arguments sm_mount sc {_}.
Arguments sm_step {sc _}.

(** A step of a model that counts its callback calls. *)
Definition counted_step {S E} (step : E -> S -> S) (count : S -> nat) (e : E) (s : S) : S * bool :=
  let s' := step e s in (s', count s <? count s').

(** ** The six scenes *)

#[export] Instance intro_model : SceneModel Scene1Intro := {|
  sm_state := intro_sys;
  sm_event := intro_event;
  sm_mount := intro_sys_init NoRequestPermission 0;
  sm_step := counted_step intro_step (fun '(_, _, _, k) => k)
|}.

(** Scene2PhotoJourney: a turn of its event loop, or a click on "Continue
    Your Journey", which exists once [showContinue] holds. *)
Inductive carousel_event := CTick | CContinue.

Definition carousel_sys : Type := (carousel * sched unit * nat)%type.

Definition carousel_sys_mount : carousel_sys :=
  let '(h, s) := carousel_mount tt (Sched 0 1 []) in (carousel_init, s, h).

Definition carousel_sys_step (e : carousel_event) (st : carousel_sys) : carousel_sys * bool :=
  let '(c, s, h) := st in
  match e with
  | CTick => match carousel_step (List.length photos) h (c, s) with
             | Some (c', s') => ((c', s', h), false)
             | None => (st, false)
             end
  | CContinue => (st, continue_button c)
  end.

#[export] Instance carousel_model : SceneModel Scene2PhotoJourney := {|
  sm_state := carousel_sys;
  sm_event := carousel_event;
  sm_mount := carousel_sys_mount;
  sm_step := carousel_sys_step
|}.

Definition gift_count (st : gift_sys) : nat := let '(_, _, k) := st in k.

#[export] Instance gift_model : SceneModel Scene3GiftBox := {|
  sm_state := gift_sys;
  sm_event := gift_event;
  sm_mount := gift_sys_init 0;
  sm_step := counted_step gift_sys_step gift_count
|}.

(** Scene4MemoryUniverse: its own events, or a click on "Continue", which
    the open modal (z-30, full screen) covers. *)
Inductive memory_app_event := MEv (e : MemoryUniverse.memory_event) | MContinue.

Definition memory_sys : Type := (MemoryUniverse.memory * sched MemoryUniverse.memory_cb)%type.

Definition memory_sys_step (e : memory_app_event) (st : memory_sys) : memory_sys * bool :=
  match e with
  | MEv e => (MemoryUniverse.memory_step photos e st, false)
  | MContinue => match MemoryUniverse.expandedPhoto (fst st) with
                 | None => (st, true)
                 | Some _ => (st, false)
                 end
  end.

#[export] Instance memory_model : SceneModel Scene4MemoryUniverse := {|
  sm_state := memory_sys;
  sm_event := memory_app_event;
  sm_mount := (MemoryUniverse.memory_effect photos MemoryUniverse.memory_init, Sched 0 1 []);
  sm_step := memory_sys_step
|}.

#[export] Instance timeline_model : SceneModel Scene5Timeline := {|
  sm_state := timeline;
  sm_event := timeline_event;
  sm_mount := timeline_init;
  sm_step := timeline_step
|}.

(** Scene6Finale: a turn of its event loop, or a click on "Replay". *)
Inductive finale_event := FTick | FReplay.

Definition finale_sys : Type := (finale * sched finale_cb)%type.

Definition finale_sys_step (e : finale_event) (st : finale_sys) : finale_sys * bool :=
  match e with
  | FTick => match finale_step st with Some st' => (st', false) | None => (st, false) end
  | FReplay => (st, true)
  end.

#[export] Instance finale_model : SceneModel Scene6Finale := {|
  sm_state := finale_sys;
  sm_event := finale_event;
  sm_mount := (finale_init, snd (finale_mount (Sched 0 1 [])));
  sm_step := finale_sys_step
|}.

(** The model of each scene. *)
Definition scene_model (sc : scene) : SceneModel sc :=
  match sc as s return SceneModel s with
  | Scene1Intro => intro_model
  | Scene2PhotoJourney => carousel_model
  | Scene3GiftBox => gift_model
  | Scene4MemoryUniverse => memory_model
  | Scene5Timeline => timeline_model
  | Scene6Finale => finale_model
  end.

(** ** App *)

(** The scene instance in the tree and its state. *)
Definition slot : Type := { sc : scene & (nat * @sm_state sc (scene_model sc))%type }.

Definition mk_slot (sc : scene) (i : nat) (st : @sm_state sc (scene_model sc)) : slot :=
  @existT scene (fun s => (nat * @sm_state s (scene_model s))%type) sc (i, st).

Record app := App { app_presence : presence; app_slot : option slot }.

(** After a re-render: the instance in the tree keeps its state, a new
    instance starts from its scene's mount state. *)
Definition mount_slot (p : presence) (old : option slot) : option slot :=
  match shown p with
  | Some (sc, i) =>
      match old with
      | Some (existT _ (i', _)) => if i' =? i then old else Some (mk_slot sc i (@sm_mount sc (scene_model sc)))
      | None => Some (mk_slot sc i (@sm_mount sc (scene_model sc)))
      end
  | None => None
  end.

(** The callback App passed to a scene element: [handleSceneComplete], or
    [handleReplay] for the Finale. *)
Definition run_callback (sc : scene) (p : presence) : presence :=
  match callback_of sc with
  | OnComplete => fst (set_scene (handleSceneComplete (currentScene p)) p)
  | OnReplay => fst (set_scene (handleReplay (currentScene p)) p)
  end.

Definition app_init : app :=
  let p := fst presence_init in App p (mount_slot p None).

(** App's events: an event of the scene in the tree, or the end of the
    exit animation. *)
Inductive app_event :=
| AScene (sc : scene) (e : @sm_event sc (scene_model sc))
| AExitDone.

Definition app_step (e : app_event) (a : app) : app :=
  match e with
  | AExitDone =>
      if exiting (app_presence a)
      then let p' := fst (exit_complete (app_presence a)) in App p' (mount_slot p' (app_slot a))
      else a
  | AScene sc ev =>
      match app_slot a with
      | Some (existT sc' (i, st)) =>
          match decide (sc' = sc) with
          | left H =>
              let st0 := eq_rect sc' (fun x => @sm_state x (scene_model x)) st sc H in
              let '(st1, called) := @sm_step sc (scene_model sc) ev st0 in
              let sl := Some (mk_slot sc i st1) in
              if called
              then let p' := run_callback sc (app_presence a) in App p' (mount_slot p' sl)
              else App (app_presence a) sl
          | right _ => a
          end
      | None => a
      end
  end.

Definition app_run (es : list app_event) (a : app) : app :=
  fold_left (fun a e => app_step e a) es a.

(** The instance in the tree is the one the slot holds. *)
Definition slot_ok (a : app) : Prop :=
  match shown (app_presence a), app_slot a with
  | Some (sc, i), Some s => projT1 s = sc /\ fst (projT2 s) = i
  | None, None => True
  | _, _ => False
  end.

(** Instance numbers are handed out by [next_inst]. *)
Definition inst_ok (p : presence) : Prop :=
  match shown p with Some (_, i) => i < next_inst p | None => True end.

Definition app_ok (a : app) : Prop := slot_ok a /\ inst_ok (app_presence a).

(** The sequencer's event a scene's callback stands for. *)
Definition callback_event (sc : scene) (i : nat) : seq_event :=
  match callback_of sc with OnComplete => EvComplete sc i | OnReplay => EvReplay i end.

(** A run of a scene's model from a state: the final state and the number
    of callback calls. *)
Fixpoint sm_run {sc} {M : SceneModel sc} (es : list (sm_event sc)) (st : sm_state sc)
    : sm_state sc * nat :=
  match es with
  | [] => (st, 0)
  | e :: es' =>
      let '(st1, called) := sm_step e st in
      let '(st2, k) := sm_run es' st1 in
      (st2, (if called then 1 else 0) + k)
  end.

(** The law of a scene whose instances call back at most once. *)
Definition once_only (sc : scene) {M : SceneModel sc} : Prop :=
  forall es, snd (sm_run es (sm_mount sc)) <= 1.

(** The counter names the scene in the tree unless it is exiting. *)
Definition cur_ok (p : presence) : Prop :=
  match shown p with
  | Some (sc, _) => exiting p = false -> currentScene p = scene_index sc
  | None => True
  end.

(** The instance in the tree has run its model from its mount, and it is
    exiting exactly when it has called back. *)
Definition slot_history (a : app) : Prop :=
  match app_slot a with
  | Some (existT sc (_, st)) =>
      exists hist, fst (@sm_run sc (scene_model sc) hist (@sm_mount sc (scene_model sc))) = st /\
        (exiting (app_presence a) = true <->
         1 <= snd (@sm_run sc (scene_model sc) hist (@sm_mount sc (scene_model sc))))
  | None => True
  end.

(** The run that brings the gift box to its last timeout. *)
Definition gift_script : list app_event :=
  [AScene Scene1Intro IFire; AScene Scene1Intro IClick] ++
  repeat (AScene Scene2PhotoJourney CTick) 13 ++
  [AScene Scene2PhotoJourney CContinue; AExitDone; AScene Scene3GiftBox GTap; AScene Scene3GiftBox GFire].


(** ** Theorems *)

(** A re-render keeps the element in the tree or mounts a fresh instance. *)
Lemma reconcile_fresh p :
  let p' := fst (reconcile p) in
  next_inst p <= next_inst p' /\
  forall sc i, shown p' = Some (sc, i) -> shown p = Some (sc, i) \/ i = next_inst p.
Proof.
  unfold reconcile, mount_wanted. repeat case_match; simplify_eq/=;
    (split; [lia|intros ? ? Hsh; simplify_eq/=; auto]).
Qed.

Lemma exit_complete_fresh p :
  let p' := fst (exit_complete p) in
  next_inst p <= next_inst p' /\
  forall sc i, shown p' = Some (sc, i) -> shown p = Some (sc, i) \/ i = next_inst p.
Proof.
  unfold exit_complete, mount_wanted. repeat case_match; simplify_eq/=;
    (split; [lia|intros ? ? Hsh; simplify_eq/=; auto]).
Qed.

Lemma run_callback_fresh sc p :
  let p' := run_callback sc p in
  next_inst p <= next_inst p' /\
  forall sc' i, shown p' = Some (sc', i) -> shown p = Some (sc', i) \/ i = next_inst p.
Proof.
  unfold run_callback, set_scene.
  destruct (callback_of sc); exact (reconcile_fresh (Presence _ (shown p) (exiting p) (next_inst p))).
Qed.

Lemma fresh_inst_ok p p' :
  inst_ok p -> next_inst p <= next_inst p' ->
  (forall sc i, shown p' = Some (sc, i) -> shown p = Some (sc, i) \/ i = next_inst p) ->
  (forall sc i, shown p' = Some (sc, i) -> i < next_inst p') ->
  inst_ok p'.
Proof. unfold inst_ok. intros _ _ _ H. destruct (shown p') as [[sc i]|]; [exact (H sc i eq_refl)|exact I]. Qed.

(** Mounting after a re-render keeps [app_ok]. *)
Lemma mount_slot_ok p p' old :
  app_ok (App p old) -> next_inst p <= next_inst p' -> inst_ok p' ->
  (forall sc i, shown p' = Some (sc, i) -> shown p = Some (sc, i) \/ i = next_inst p) ->
  app_ok (App p' (mount_slot p' old)).
Proof.
  intros [Hs Hi] Hle Hi' Hfr. split; [|exact Hi'].
  unfold slot_ok, inst_ok, mount_slot in *; cbn [app_presence app_slot] in *.
  destruct (shown p') as [[sc i]|] eqn:E; [|exact I].
  destruct old as [[sc0 [i0 st0]]|]; [|split; reflexivity].
  destruct (Nat.eqb_spec i0 i) as [<-|Hne]; [|split; reflexivity].
  destruct (Hfr sc i0 eq_refl) as [Hsh|Heq].
  - rewrite Hsh in Hs. exact Hs.
  - destruct (shown p) as [[sc1 i1]|]; [|contradiction]. destruct Hs as [_ Hs]. cbn in Hs. lia.
Qed.

Lemma reconcile_inst_ok p : inst_ok p -> inst_ok (fst (reconcile p)).
Proof. unfold inst_ok, reconcile, mount_wanted. repeat case_match; simplify_eq/=; lia. Qed.

Lemma exit_complete_inst_ok p : inst_ok p -> inst_ok (fst (exit_complete p)).
Proof. unfold inst_ok, exit_complete, mount_wanted. repeat case_match; simplify_eq/=; lia. Qed.

Lemma run_callback_inst_ok sc p : inst_ok p -> inst_ok (run_callback sc p).
Proof.
  unfold run_callback, set_scene. intros H.
  destruct (callback_of sc); apply reconcile_inst_ok; exact H.
Qed.

(** A step of App keeps the slot on the instance in the tree, and is a
    step of the sequencer or leaves its state alone. *)
Lemma app_step_ok e a :
  app_ok a ->
  app_ok (app_step e a) /\
  (app_presence (app_step e a) = app_presence a \/
   exists ev, seq_step (app_presence a) ev (app_presence (app_step e a))).
Proof.
  intros Hok. destruct a as [p sl]. destruct e as [sc ev|]; cbn [app_step app_presence app_slot].
  - destruct sl as [[sc' [i st]]|]; [|split; [exact Hok|left; reflexivity]].
    destruct (decide (sc' = sc)) as [Heq|Hne]; [subst sc|split; [exact Hok|left; reflexivity]].
    cbn [eq_rect]. destruct (sm_step ev st) as [st1 called] eqn:Estep.
    pose proof Hok as [Hs Hi]. unfold slot_ok in Hs; cbn [app_presence app_slot] in Hs.
    destruct (shown p) as [[sc0 i0]|] eqn:Esh; [|contradiction].
    destruct Hs as [Hsc Hidx]; cbn in Hsc, Hidx; subst sc0 i0.
    assert (Hok1 : app_ok (App p (Some (mk_slot sc' i st1))))
      by (split; [unfold slot_ok; cbn; rewrite Esh; split; reflexivity|exact Hi]).
    destruct called.
    + destruct (run_callback_fresh sc' p) as [Hle Hfr]. split.
      * apply (mount_slot_ok p); [exact Hok1|exact Hle|apply run_callback_inst_ok, Hi|exact Hfr].
      * right. exists (callback_event sc' i). unfold callback_event, run_callback.
        destruct (callback_of sc') eqn:Ecb.
        -- apply seq_complete; assumption.
        -- destruct sc'; try discriminate. apply seq_replay. exact Esh.
    + split; [exact Hok1|left; reflexivity].
  - destruct (exiting p) eqn:Ex; [|split; [exact Hok|left; reflexivity]].
    destruct (exit_complete_fresh p) as [Hle Hfr]. split.
    + apply (mount_slot_ok p); [exact Hok|exact Hle|apply exit_complete_inst_ok, (proj2 Hok)|exact Hfr].
    + right. exists EvExitDone. apply seq_exit. exact Ex.
Qed.

Lemma sm_run_snoc {sc} {M : SceneModel sc} hist e st0 :
  sm_run (hist ++ [e]) st0 =
  (fst (sm_step e (fst (sm_run hist st0))),
   snd (sm_run hist st0) + (if snd (sm_step e (fst (sm_run hist st0))) then 1 else 0)).
Proof.
  revert st0; induction hist as [|e0 hist IH]; intros st0; cbn [Datatypes.app sm_run].
  - cbn [fst snd]. destruct (sm_step e st0) as [st1 [|]]; reflexivity.
  - destruct (sm_step e0 st0) as [st1 b1]. rewrite IH.
    destruct (sm_run hist st1) as [st2 k]. cbn [fst snd].
    f_equal. lia.
Qed.

Lemma set_scene_cur_ok n p : cur_ok (fst (set_scene n p)).
Proof.
  unfold cur_ok, set_scene, reconcile, mount_wanted.
  repeat case_match; simplify_eq/=; intros; try discriminate; try reflexivity;
    first [congruence | match goal with H : scene_at _ = Some _ |- _ => exact (scene_at_Some _ _ H) end].
Qed.

Lemma exit_complete_cur_ok p : cur_ok p -> cur_ok (fst (exit_complete p)).
Proof.
  unfold cur_ok, exit_complete, mount_wanted.
  repeat case_match; simplify_eq/=; intros; try discriminate; auto;
    first [congruence | match goal with H : scene_at _ = Some _ |- _ => exact (scene_at_Some _ _ H) end].
Qed.

(** A newly mounted element does not play an exit animation. *)
Lemma reconcile_mount p sc i :
  shown (fst (reconcile p)) = Some (sc, i) -> shown p <> Some (sc, i) ->
  exiting (fst (reconcile p)) = false.
Proof. unfold reconcile, mount_wanted. repeat case_match; simplify_eq/=; intros; auto; congruence. Qed.

Lemma exit_complete_mount p sc i :
  shown (fst (exit_complete p)) = Some (sc, i) -> shown p <> Some (sc, i) ->
  exiting (fst (exit_complete p)) = false.
Proof. unfold exit_complete, mount_wanted. repeat case_match; simplify_eq/=; intros; auto; congruence. Qed.

Lemma run_callback_mount sc p sc' i :
  shown (run_callback sc p) = Some (sc', i) -> shown p <> Some (sc', i) ->
  exiting (run_callback sc p) = false.
Proof.
  unfold run_callback, set_scene.
  destruct (callback_of sc); exact (reconcile_mount (Presence _ (shown p) (exiting p) (next_inst p)) sc' i).
Qed.

(** A scene that calls back and stays in the tree is exiting. *)
Lemma run_callback_stays sc i p :
  cur_ok p -> inst_ok p -> shown p = Some (sc, i) ->
  shown (run_callback sc p) = Some (sc, i) -> exiting (run_callback sc p) = true.
Proof.
  intros Hc Hi Hsh.
  unfold run_callback, handleSceneComplete, handleReplay, set_scene, reconcile.
  cbn [shown exiting next_inst currentScene]. rewrite Hsh.
  destruct (exiting p) eqn:Ex; [intros _; destruct (callback_of sc); reflexivity|].
  unfold cur_ok, inst_ok in Hc, Hi. rewrite Hsh in Hc, Hi. specialize (Hc Ex).
  destruct (callback_of sc) eqn:Ecb;
    (rewrite decide_False by (intros Hd; apply scene_at_Some in Hd; destruct sc; simpl in *;
                             try discriminate; lia));
    (destruct (has_exit sc); [intros _; reflexivity|]);
    unfold mount_wanted; repeat case_match; simplify_eq/=; intros Hx; simplify_eq/=; lia.
Qed.

(** A callback while the exit animation plays changes only the counter. *)
Lemma run_callback_exiting sc p x :
  exiting p = true -> shown p = Some x ->
  shown (run_callback sc p) = Some x /\ exiting (run_callback sc p) = true.
Proof.
  intros Ex Hsh. destruct x as [sc0 i0].
  unfold run_callback, set_scene, reconcile; cbn [shown exiting]. rewrite Hsh, Ex.
  destruct (callback_of sc); split; reflexivity.
Qed.

(** The end of an exit animation mounts a fresh instance, if any. *)
Lemma exit_complete_new p sc i :
  exiting p = true -> shown (fst (exit_complete p)) = Some (sc, i) ->
  i = next_inst p /\ exiting (fst (exit_complete p)) = false.
Proof.
  intros Ex. unfold exit_complete, mount_wanted. rewrite Ex.
  repeat case_match; simplify_eq/=; intros Hx; simplify_eq/=; split; reflexivity.
Qed.

Lemma slot_history_fresh p sc i :
  exiting p = false -> slot_history (App p (Some (mk_slot sc i (@sm_mount sc (scene_model sc))))).
Proof.
  intros Ex. exists []. cbn [sm_run fst snd app_presence]. split; [reflexivity|].
  rewrite Ex. split; [discriminate|lia].
Qed.

(** A callback that leaves the same instance in the tree leaves it
    exiting. *)
Lemma run_callback_keeps_exiting sc p i sc2 :
  cur_ok p -> i < next_inst p -> shown p = Some (sc, i) ->
  shown (run_callback sc p) = Some (sc2, i) -> exiting (run_callback sc p) = true.
Proof.
  intros Hcur Hi Esh Esh2. destruct (exiting p) eqn:Ex.
  - exact (proj2 (run_callback_exiting sc p _ Ex Esh)).
  - destruct (proj2 (run_callback_fresh sc p) sc2 i Esh2) as [H|H]; [|lia].
    rewrite Esh in H. injection H as <-.
    apply (run_callback_stays sc i p); [exact Hcur|unfold inst_ok; rewrite Esh; exact Hi|exact Esh|exact Esh2].
Qed.

(** The end of an exit animation mounts a fresh instance. *)
Lemma exit_done_history p sl :
  app_ok (App p sl) -> exiting p = true ->
  slot_history (App (fst (exit_complete p)) (mount_slot (fst (exit_complete p)) sl)).
Proof.
  intros [Hs Hi] Ex. unfold slot_history, mount_slot; cbn [app_slot].
  destruct (shown (fst (exit_complete p))) as [[sc2 i2]|] eqn:Esh2; [|exact I].
  destruct (exit_complete_new p sc2 i2 Ex Esh2) as [-> Hx].
  unfold slot_ok, inst_ok in Hs, Hi; cbn [app_presence app_slot] in Hs, Hi.
  destruct sl as [[sc0 [i0 st0]]|].
  - destruct (Nat.eqb_spec i0 (next_inst p)) as [Heq|Hne].
    + exfalso. destruct (shown p) as [[sc1 i1]|]; [|contradiction].
      destruct Hs as [_ Hs]; cbn in Hs. lia.
    + apply slot_history_fresh, Hx.
  - apply slot_history_fresh, Hx.
Qed.

(** Every step keeps the slot's history and the counter's invariant. *)
Lemma app_step_history e a :
  app_ok a -> cur_ok (app_presence a) -> slot_history a ->
  slot_history (app_step e a) /\ cur_ok (app_presence (app_step e a)).
Proof.
  intros Hok Hcur Hh. destruct a as [p sl]. destruct e as [sc ev|]; cbn [app_step app_presence app_slot].
  - destruct sl as [[sc' [i st]]|]; [|split; assumption].
    destruct (decide (sc' = sc)) as [Heq|Hne]; [subst sc|split; assumption].
    cbn [eq_rect]. destruct (sm_step ev st) as [st1 called] eqn:Estep.
    pose proof Hok as [Hs Hi]. unfold slot_ok in Hs; cbn [app_presence app_slot] in Hs.
    unfold inst_ok in Hi; cbn [app_presence] in Hi.
    destruct (shown p) as [[sc0 i0]|] eqn:Esh; [|contradiction].
    destruct Hs as [Hsc Hidx]; cbn in Hsc, Hidx; subst sc0 i0.
    destruct Hh as (hist & Hst & Hex). cbn [app_presence] in Hex.
    assert (Hrun : sm_run (hist ++ [ev]) (sm_mount sc') =
                   (st1, snd (sm_run hist (sm_mount sc')) + (if called then 1 else 0)))
      by (rewrite sm_run_snoc, Hst, Estep; reflexivity).
    destruct called.
    + split; [|unfold run_callback; destruct (callback_of sc'); apply set_scene_cur_ok].
      unfold mount_slot, mk_slot. destruct (shown (run_callback sc' p)) as [[sc2 i2]|] eqn:Esh2; [|exact I].
      destruct (Nat.eqb_spec i i2) as [<-|Hne].
      * exists (hist ++ [ev]). rewrite Hrun. cbn [fst snd app_presence]. split; [reflexivity|].
        rewrite (run_callback_keeps_exiting sc' p i sc2 Hcur Hi Esh Esh2). split; [intros _; lia|reflexivity].
      * cbn [projT2 fst]. apply slot_history_fresh. apply (run_callback_mount sc' p sc2 i2 Esh2).
        rewrite Esh. congruence.
    + split; [|exact Hcur]. exists (hist ++ [ev]). rewrite Hrun. cbn [fst snd app_presence].
      rewrite Nat.add_0_r. split; [reflexivity|exact Hex].
  - destruct (exiting p) eqn:Ex; [|split; assumption].
    split; [apply exit_done_history; assumption|apply exit_complete_cur_ok, Hcur].
Qed.

Lemma app_init_ok :
  app_ok app_init /\ cur_ok (app_presence app_init) /\ slot_history app_init.
Proof.
  split; [split; [split; reflexivity|cbn; lia]|]. split; [intros _; reflexivity|].
  apply slot_history_fresh. reflexivity.
Qed.

Lemma app_run_inv es a :
  app_ok a -> cur_ok (app_presence a) -> slot_history a ->
  app_ok (app_run es a) /\ cur_ok (app_presence (app_run es a)) /\ slot_history (app_run es a) /\
  seq_reach (app_presence a) (app_presence (app_run es a)).
Proof.
  unfold app_run. revert a; induction es as [|e es IH]; intros a Hok Hcur Hh; cbn [fold_left].
  - split; [exact Hok|split; [exact Hcur|split; [exact Hh|apply star_refl]]].
  - destruct (app_step_ok e a Hok) as [Hok' Hsim].
    destruct (app_step_history e a Hok Hcur Hh) as [Hh' Hcur'].
    destruct (IH _ Hok' Hcur' Hh') as (H1 & H2 & H3 & H4).
    split; [exact H1|split; [exact H2|split; [exact H3|]]].
    destruct Hsim as [Heq|[ev Hev]].
    + rewrite <- Heq. exact H4.
    + eapply star_step; [exists ev; exact Hev|exact H4].
Qed.

Lemma gift_count_step e (st : gift_sys) :
  gift_count st <= gift_count (gift_sys_step e st) <= S (gift_count st).
Proof.
  destruct st as [[g s] k]. unfold gift_count. destruct e; cbn [gift_sys_step].
  - destruct (handleTap id g s). lia.
  - destruct (fire s) as [[t s']|]; [|lia]. destruct (gift_timer id (t_cb t) g s') as [[g' s''] c].
    destruct c; lia.
Qed.

(** The gift box's model counts its completions in the system's counter. *)
Lemma gift_sm_run (es : list gift_event) (st : gift_sys) :
  fst (@sm_run Scene3GiftBox gift_model es st) = gift_run es st /\
  gift_count st + snd (@sm_run Scene3GiftBox gift_model es st) = gift_count (gift_run es st).
Proof.
  revert st; induction es as [|e es IH]; intros st; cbn [sm_run].
  - split; [reflexivity|cbn; lia].
  - cbn [sm_step gift_model counted_step].
    destruct (IH (gift_sys_step e st)) as [IH1 IH2].
    destruct (@sm_run Scene3GiftBox gift_model es (gift_sys_step e st)) as [st2 k2] eqn:E.
    cbn [fst snd] in IH1, IH2 |- *.
    change (gift_run (e :: es) st) with (gift_run es (gift_sys_step e st)).
    split; [exact IH1|]. rewrite <- IH2.
    pose proof (gift_count_step e st) as Hle.
    destruct (Nat.ltb_spec (gift_count st) (gift_count (gift_sys_step e st))); lia.
Qed.



(** C2. App refines its sequencer: every run of the composed App, with
    the real scenes reacting to any events, is a run of the sequencer
    machine [seq_step] from App's first render, the scene state App
    holds is always that of the instance in the tree, and it is the
    scene's mount state run on the events that instance received, the
    instance exiting exactly when it has called back. *)
Theorem app_runs_are_sequencer_runs es :
  seq_reach (fst presence_init) (app_presence (app_run es app_init)) /\
  slot_ok (app_run es app_init) /\ slot_history (app_run es app_init).
Proof.
  destruct app_init_ok as (H1 & H2 & H3).
  destruct (app_run_inv es _ H1 H2 H3) as (Hok & _ & Hh & Hr).
  split; [exact Hr|split; [exact (proj1 Hok)|exact Hh]].
Qed.

(** The completion contract at work, for any scene model. *)
Lemma once_only_guarded_gen sc es i st ev st' :
  @once_only sc (scene_model sc) ->
  app_slot (app_run es app_init) = Some (mk_slot sc i st) ->
  @sm_step sc (scene_model sc) ev st = (st', true) ->
  exiting (app_presence (app_run es app_init)) = false.
Proof.
  intros Hoo Hsl Hstep. destruct app_init_ok as (H1 & H2 & H3).
  destruct (app_run_inv es _ H1 H2 H3) as (_ & _ & Hh & _).
  unfold slot_history in Hh. rewrite Hsl in Hh. unfold mk_slot in Hh.
  destruct Hh as (hist & Hst & Hex).
  destruct (exiting (app_presence (app_run es app_init))) eqn:Ex; [exfalso|reflexivity].
  pose proof (proj1 Hex eq_refl) as Hc. specialize (Hoo (hist ++ [ev])).
  rewrite sm_run_snoc, Hst, Hstep in Hoo. cbn [fst snd] in Hoo. lia.
Qed.

(** Scene3GiftBox's model keeps the contract. *)
Lemma gift_model_once_only : @once_only Scene3GiftBox (scene_model Scene3GiftBox).
Proof.
  intros es. change (scene_model Scene3GiftBox) with gift_model.
  change (@sm_mount Scene3GiftBox gift_model) with (gift_sys_init 0).
  destruct (gift_sm_run es (gift_sys_init 0)) as [_ Hc].
  pose proof (gift_inv_count _ (gift_run_inv es _ (gift_inv_init 0))) as Hle.
  change (gift_count (gift_sys_init 0)) with 0 in Hc. unfold gift_count in Hc.
  destruct (gift_run es (gift_sys_init 0)) as [[g s] k]. lia.
Qed.

(** C6. The completion contract, proved for any scene model: if a scene's
    model calls back at most once from its mount, then in every run of
    App its instance in the tree never calls back while its exit
    animation plays, so every completion it sends the sequencer is a
    step of the guarded machine of [Sequencer]. *)
Theorem app_once_only_guarded sc es i st ev st' :
  @once_only sc (scene_model sc) ->
  app_slot (app_run es app_init) = Some (mk_slot sc i st) ->
  @sm_step sc (scene_model sc) ev st = (st', true) ->
  exiting (app_presence (app_run es app_init)) = false.
Proof. apply once_only_guarded_gen. Qed.

(** C7. The gift box never makes App skip a scene: in every run of App,
    when the gift box in the tree calls [onComplete], it is not exiting,
    since its model calls back at most once whatever taps and timer
    firings it receives. *)
Theorem gift_app_guarded es i st ev st' :
  app_slot (app_run es app_init) = Some (mk_slot Scene3GiftBox i st) ->
  @sm_step Scene3GiftBox (scene_model Scene3GiftBox) ev st = (st', true) ->
  exiting (app_presence (app_run es app_init)) = false.
Proof. apply once_only_guarded_gen, gift_model_once_only. Qed.

Lemma app_once_only_guarded_witness :
  app_slot (app_run gift_script app_init) =
    Some (mk_slot Scene3GiftBox 2 (Gift true true, Sched 2000 3 [Timer 2 4000 None GiftDone], 0)) /\
  exiting (app_presence (app_run gift_script app_init)) = false.
Proof.
  assert (Hs : app_slot (app_run gift_script app_init) =
    Some (mk_slot Scene3GiftBox 2 (Gift true true, Sched 2000 3 [Timer 2 4000 None GiftDone], 0)))
    by (vm_compute; reflexivity).
  split; [exact Hs|].
  apply (app_once_only_guarded Scene3GiftBox gift_script 2 _ GFire
           (Gift true true, Sched 4000 3 [], 1) gift_model_once_only Hs).
  vm_compute. reflexivity.
Defined.

Lemma gift_app_guarded_witness :
  app_slot (app_run gift_script app_init) =
    Some (mk_slot Scene3GiftBox 2 (Gift true true, Sched 2000 3 [Timer 2 4000 None GiftDone], 0)) /\
  exiting (app_presence (app_run gift_script app_init)) = false.
Proof.
  assert (Hs : app_slot (app_run gift_script app_init) =
    Some (mk_slot Scene3GiftBox 2 (Gift true true, Sched 2000 3 [Timer 2 4000 None GiftDone], 0)))
    by (vm_compute; reflexivity).
  split; [exact Hs|].
  apply (gift_app_guarded gift_script 2 _ GFire (Gift true true, Sched 4000 3 [], 1) Hs).
  vm_compute. reflexivity.
Defined.
