(* ===== verification/Presentation.v ===== *)
(** * The whole presentation: App's scenes and its gesture shell together

    App.tsx holds both [currentScene] (the sequencer and the scene in the
    tree, modelled in App) and [showEasterEgg] / [longPressTimer] (the
    gesture shell, modelled in Shell).  The two parts share one thing: a
    render of App.  When a scene's callback changes [currentScene], App
    re-renders, and HiddenEasterEgg receives a new [onDismiss] arrow, so
    its effect runs again ([rerender] of Shell); a callback that leaves
    [currentScene] as it was is not possible ([handleSceneComplete] adds
    one, [handleReplay] is only called from the Finale, index 5), and a
    change inside a scene or the end of an exit animation re-renders
    only the scene or AnimatePresence, not App.  The gestures (touch or
    mouse down and up on App's root div, lines 176-181) change only the
    shell; the egg's overlay has [pointer-events-none] (line 33 of
    HiddenEasterEgg.tsx), so the scenes keep their events while it
    shows. *)

From Stdlib Require Import List Lia Arith.
From S2P Require Import Prelude Timers Sequencer Intro App Shell.
Import ListNotations.

Definition pres : Type := (app * shell_sys)%type.

Definition pres_init : pres := (app_init, (shell_init, Sched 0 1 [])).

(** The presentation's events: one of App's (a scene event or the end of
    an exit animation), or a gesture on the root div, a turn of the
    shell's timers, time passing. *)
Inductive pres_event :=
| PScene (e : app_event)
| PTouchStart
| PTouchEnd
| PShellFire
| PWait (d : nat).

(** App re-renders exactly when [currentScene] changes. *)
Definition app_rerenders (a a' : app) : bool :=
  negb (Nat.eqb (currentScene (app_presence a')) (currentScene (app_presence a))).

Definition pres_step (e : pres_event) (st : pres) : pres :=
  let '(a, sh) := st in
  match e with
  | PScene ev =>
      let a' := app_step ev a in
      if app_rerenders a a' then (a', shell_step ERender sh) else (a', sh)
  | PTouchStart => (a, shell_step ETouchStart sh)
  | PTouchEnd => (a, shell_step ETouchEnd sh)
  | PShellFire => (a, shell_step EFire sh)
  | PWait d => (a, shell_step (EWait d) sh)
  end.

Definition pres_run (es : list pres_event) (st : pres) : pres :=
  fold_left (fun st e => pres_step e st) es st.


(** ** Theorems *)

Lemma pres_run_app es1 es2 st : pres_run (es1 ++ es2) st = pres_run es2 (pres_run es1 st).
Proof. apply fold_left_app. Qed.

Lemma app_run_snoc es e a : app_run (es ++ [e]) a = app_step e (app_run es a).
Proof. apply fold_left_app. Qed.

Lemma shell_run_snoc es e st : shell_run (es ++ [e]) st = shell_step e (shell_run es st).
Proof. apply fold_left_app. Qed.

(** The presentation is App and the shell run side by side: every run of
    it is a run of App on its scene events and a run of the shell on the
    gestures, with a re-render inserted after each scene change. *)
Lemma pres_projects es :
  exists ea eg, pres_run es pres_init = (app_run ea app_init, shell_run eg (shell_init, Sched 0 1 [])).
Proof.
  induction es as [|e es IH] using rev_ind; [exists [], []; reflexivity|].
  destruct IH as (ea & eg & H). rewrite pres_run_app, H. cbn [pres_run fold_left].
  destruct e as [ev| | | |d]; cbn [pres_step].
  - destruct (app_rerenders _ _).
    + exists (ea ++ [ev]), (eg ++ [ERender]). rewrite app_run_snoc, shell_run_snoc. reflexivity.
    + exists (ea ++ [ev]), eg. rewrite app_run_snoc. reflexivity.
  - exists ea, (eg ++ [ETouchStart]). rewrite shell_run_snoc. reflexivity.
  - exists ea, (eg ++ [ETouchEnd]). rewrite shell_run_snoc. reflexivity.
  - exists ea, (eg ++ [EFire]). rewrite shell_run_snoc. reflexivity.
  - exists ea, (eg ++ [EWait d]). rewrite shell_run_snoc. reflexivity.
Qed.

(** A cleanup of the egg's effect leaves no dismissal pending. *)
Lemma egg_cleared sh s u :
  shell_inv (sh, s) -> In u (pending (clear_opt (eggTimer sh) s)) -> t_cb u <> EggDismiss.
Proof.
  intros (_ & _ & _ & _ & _ & Hegg & _) Hu Hc. apply in_clear_opt in Hu as [Hu Hne].
  exact (Hne (Hegg u Hu Hc)).
Qed.

Lemma clear_opt_now o (s : sched shell_cb) : now (clear_opt o s) = now s.
Proof. destruct o; reflexivity. Qed.


(** C20. A scene change restarts the easter egg: when a scene's callback
    changes [currentScene] while the egg shows, App's re-render gives
    HiddenEasterEgg a new [onDismiss], its effect clears its timeout and
    arms a new one, so the egg stays for 5 s from the scene change,
    whatever was left of its previous 5 s; the only dismissal pending
    is the new one. *)
Theorem scene_change_restarts_egg a sh s ev :
  shell_inv (sh, s) -> showEasterEgg sh = true -> app_rerenders a (app_step ev a) = true ->
  let '(a', (sh', s')) := pres_step (PScene ev) (a, (sh, s)) in
  a' = app_step ev a /\ sh' = Shell true (longPressTimer sh) (Some (next_id s)) /\ now s' = now s /\
  List.filter (fun u => shell_cb_eqb (t_cb u) EggDismiss) (pending s') =
    [Timer (next_id s) (now s + egg_ms) None EggDismiss].
Proof.
  intros Hinv Hshow Hre. cbn [pres_step]. rewrite Hre.
  cbn [shell_step]. unfold rerender, shell_commit. rewrite Hshow, opt_eqb_refl.
  cbn [setTimeout schedule fst snd now next_id pending].
  rewrite clear_opt_next_id, clear_opt_now.
  split; [reflexivity|split; [reflexivity|split; [reflexivity|]]].
  rewrite filter_app, (filter_nil_of_false _ (pending (clear_opt (eggTimer sh) s))); [reflexivity|].
  intros u Hu. pose proof (egg_cleared sh s u Hinv Hu) as Hne.
  destruct (t_cb u); [reflexivity|congruence].
Qed.

Lemma scene_change_restarts_egg_witness :
  shell_run [ETouchStart; EFire] (shell_init, Sched 0 1 []) =
    (Shell true (Some 1) (Some 2), Sched 3000 3 [Timer 2 8000 None EggDismiss]) /\
  app_rerenders (app_run [AScene Scene1Intro IFire] app_init)
                (app_step (AScene Scene1Intro IClick) (app_run [AScene Scene1Intro IFire] app_init)) = true /\
  (let '(a', (sh', s')) :=
     pres_step (PScene (AScene Scene1Intro IClick))
               (app_run [AScene Scene1Intro IFire] app_init,
                (Shell true (Some 1) (Some 2), Sched 3000 3 [Timer 2 8000 None EggDismiss])) in
   a' = app_step (AScene Scene1Intro IClick) (app_run [AScene Scene1Intro IFire] app_init) /\
   sh' = Shell true (Some 1) (Some 3) /\ now s' = 3000 /\
   List.filter (fun u => shell_cb_eqb (t_cb u) EggDismiss) (pending s') =
     [Timer 3 (3000 + egg_ms) None EggDismiss]).
Proof.
  assert (Hr : shell_run [ETouchStart; EFire] (shell_init, Sched 0 1 []) =
                 (Shell true (Some 1) (Some 2), Sched 3000 3 [Timer 2 8000 None EggDismiss]))
    by (vm_compute; reflexivity).
  assert (Hinv : shell_inv (Shell true (Some 1) (Some 2), Sched 3000 3 [Timer 2 8000 None EggDismiss]))
    by (rewrite <- Hr; apply shell_run_inv, shell_inv_init).
  assert (Hre : app_rerenders (app_run [AScene Scene1Intro IFire] app_init)
                  (app_step (AScene Scene1Intro IClick) (app_run [AScene Scene1Intro IFire] app_init)) = true)
    by (vm_compute; reflexivity).
  split; [exact Hr|split; [exact Hre|]].
  exact (scene_change_restarts_egg _ _ _ _ Hinv eq_refl Hre).
Defined.
